(** * Japanese_vocab: the vocabulary pipeline of convert_kana_entries.py
      and process_mimikara_n3.py

    A shallow embedding of the parser of the raw file, the writer and the
    parser of the fixed numbered file, the pool builder, the multiple-choice
    question generator, the level header reader, the chapter mappings and
    the insertion into the database, followed by the properties the
    specification states about them and by further properties of the
    code. *)

From Stdlib Require Import Ascii String NArith.
From stdpp Require Import base decidable option list sorting sets gmap strings pretty.

Local Open Scope nat_scope.
Local Open Scope list_scope.

(** * The embedding *)

(** ** Python strings

    A Python [str] is a sequence of Unicode code points.  Vocabulary files
    hold kanji and kana, so the embedding keeps code points, not bytes. *)

Definition char : Type := N.
Definition str : Type := list char.

(** An ASCII literal of the source as a [str]. *)
Fixpoint str_of (s : string) : str :=
  match s with
  | EmptyString => []
  | String a s' => N_of_ascii a :: str_of s'
  end.

Definition comma : char := 44%N.
Definition dot : char := 46%N.
Definition newline : char := 10%N.

(** Python truthiness of a string: [if s] holds when [s] is not empty. *)
Definition truthy (s : str) : bool :=
  match s with [] => false | _ :: _ => true end.

(** ** Exceptions

    The exceptions the embedded functions can raise, and the outcome of a
    call that may raise. *)

Inductive exn : Type :=
| ValueError
| IndexError
| FileNotFoundError.

Inductive result (A : Type) : Type :=
| Ok (a : A)
| Raise (e : exn).

Arguments Ok {A} a.
Arguments Raise {A} e.

Definition bind {A B : Type} (r : result A) (k : A → result B) : result B :=
  match r with
  | Ok a => k a
  | Raise e => Raise e
  end.

Notation "x ←r e1 ;; e2" := (bind e1 (λ x, e2))
  (at level 100, e1 at next level, e2 at level 200, right associativity).

(** ** The Unicode tables of the Python runtime

    [str.strip], [str.lower] and the classes [\s] and [\d] of [re] read
    CPython's Unicode database, which is not part of the repository.  The
    embedding takes the tables as an interface, with the facts about them
    that the modelled code relies on. *)

Class UnicodeData : Type := {
  (** [c.isspace()], also the class [\s] of a [str] pattern *)
  isspace : char → bool;
  (** the class [\d] of a [str] pattern: a decimal digit *)
  isdecimal : char → bool;
  (** [s.lower()] *)
  lower : str → str;
  (** the line feed is white space *)
  isspace_newline : isspace newline = true;
  (** the full stop is not a digit *)
  isdecimal_dot : isdecimal dot = false;
  (** no digit is white space *)
  isdecimal_not_space : ∀ c, isdecimal c = true → isspace c = false;
  (** lowering neither empties a string nor fills an empty one *)
  lower_nil : ∀ s, lower s = [] ↔ s = [];
}.

Section Strings.
Context `{UnicodeData}.

(** [s.lstrip()], [s.rstrip()] and [s.strip()] with no argument. *)
Fixpoint lstrip (s : str) : str :=
  match s with
  | [] => []
  | c :: s' => if isspace c then lstrip s' else s
  end.

Definition rstrip (s : str) : str := reverse (lstrip (reverse s)).

Definition strip (s : str) : str := rstrip (lstrip s).

End Strings.

(** ** The random source

    [generate_all_questions] draws from an injected [random.Random] (or from
    the module-level generator) through two methods only.  The interface
    gives them with the contract of the Python library: [sample] returns [k]
    elements taken at distinct positions of the population and raises
    [ValueError] when [k] exceeds its length; [shuffle] permutes the list. *)

Class RandomSource (G : Type) : Type := {
  (** [rng.sample(population, k)]; [None] stands for [ValueError] *)
  rng_sample : G → list str → nat → option (list str * G);
  (** [rng.shuffle(x)], returning the list as it is after the call *)
  rng_shuffle : G → list str → list str * G;
  rng_sample_some : ∀ g l k, k ≤ length l →
    ∃ r g', rng_sample g l k = Some (r, g') ∧ length r = k ∧ r ⊆+ l;
  rng_sample_none : ∀ g l k, length l < k → rng_sample g l k = None;
  rng_shuffle_perm : ∀ g l, (rng_shuffle g l).1 ≡ₚ l;
}.

(** ** Entries, directions and questions *)

(** An entry is the tuple [(kanji, kana, meaning)]. *)
Definition entry : Type := str * str * str.

(** The six question types, in the order the generator attempts them.  The
    record field [q_type] of the source holds the tag [q_type_tag]. *)
Inductive QType : Type :=
| KanjiToHiragana
| KanjiToMeaning
| KanaToMeaning
| KanaToKanji
| MeaningToKanji
| MeaningToKana.

#[export] Instance QType_eq_dec : EqDecision QType.
Proof. solve_decision. Defined.

Definition q_type_tag (d : QType) : string :=
  match d with
  | KanjiToHiragana => "kanji_to_hiragana"
  | KanjiToMeaning => "kanji_to_meaning"
  | KanaToMeaning => "kana_to_meaning"
  | KanaToKanji => "kana_to_kanji"
  | MeaningToKanji => "meaning_to_kanji"
  | MeaningToKana => "meaning_to_kana"
  end.

(** The question dict built by [make_question]. *)
Record Question : Type := {
  entry_index : nat;
  q_type : QType;
  prompt : str;
  text : str;
  options : list str;
  correct_answer : str;
  correct_index : nat;
}.

(** [l.index(x)]: the first position of [x]; [None] stands for [ValueError]. *)
Fixpoint index (l : list str) (x : str) : option nat :=
  match l with
  | [] => None
  | y :: l' => if decide (y = x) then Some 0 else S <$> index l' x
  end.

(** ** Reading a text file line by line

    A file is its decoded content, line ends already translated to the line
    feed as text mode does.  Iterating over it yields its lines, each with
    its terminating line feed; a last line without one is yielded too. *)
Fixpoint readlines (content : str) : list str :=
  match content with
  | [] => []
  | c :: t =>
      if decide (c = newline) then [c] :: readlines t
      else match readlines t with
           | [] => [[c]]
           | l :: ls => (c :: l) :: ls
           end
  end.

(** [s.split(sep, maxsplit)] for a one-character separator. *)
Fixpoint split (sep : char) (maxsplit : nat) (s : str) : list str :=
  match s with
  | [] => [[]]
  | c :: s' =>
      if decide (c = sep) then
        match maxsplit with
        | 0 => [s]
        | S m => [] :: split sep m s'
        end
      else match split sep maxsplit s' with
           | [] => [[c]]
           | p :: ps => (c :: p) :: ps
           end
  end.

(** The longest prefix whose characters satisfy [p], and what follows it. *)
Fixpoint span (p : char → bool) (s : str) : str * str :=
  match s with
  | [] => ([], [])
  | c :: s' =>
      if p c then let '(a, b) := span p s' in (c :: a, b) else ([], s)
  end.

(** ** convert_kana_entries.py: parsing the fixed numbered file *)

Section Parser.
Context `{UnicodeData}.

(** [_ENTRY_LINE_RE.match(line)].  The pattern is: start of string, white
    space [\s*], group 1 the digits [\d+], a literal full stop, white space
    [\s*], group 2 any characters [.*], end of string [$].  The result is
    [(group(1), group(2))] of the match, [None] when there is none.
    Each greedy repetition is followed by something it cannot itself match
    (a digit is not white space, the full stop is not a digit), so the match
    takes the longest run at each step.  [.] matches every character except
    the line feed, and [$] holds at the end of the string or just before a
    line feed that ends it. *)
Definition entry_line_match (line : str) : option (str * str) :=
  let s1 := lstrip line in
  let '(digits, s2) := span isdecimal s1 in
  match digits, s2 with
  | _ :: _, c :: s3 =>
      if decide (c = dot) then
        let s4 := lstrip s3 in
        let '(body, tail) := span (λ c, bool_decide (c ≠ newline)) s4 in
        match tail with
        | [] => Some (digits, body)
        | [_] => Some (digits, body)
        | _ => None
        end
      else None
  | _, _ => None
  end.

(** [while len(parts) < 3: parts.append('')] *)
Definition pad_parts (parts : list str) : list str :=
  parts ++ replicate (3 - length parts) [].

(** [parts[i]], raising [IndexError] out of range. *)
Definition item (parts : list str) (i : nat) : result str :=
  match parts !! i with
  | Some p => Ok p
  | None => Raise IndexError
  end.

(** The body of the loop of [parse_fixed_file] on one line of the file:
    [Ok None] when the line is skipped ([continue]), [Ok (Some e)] when the
    entry [e] is appended. *)
Definition parse_fixed_line (raw : str) : result (option entry) :=
  let line := strip raw in
  if negb (truthy line) then Ok None
  else match entry_line_match line with
       | None => Ok None
       | Some (_, group2) =>
           let rest := strip group2 in
           let parts := strip <$> split comma 2 rest in
           let parts := pad_parts parts in
           kanji ←r item parts 0 ;;
           kana ←r item parts 1 ;;
           meaning ←r item parts 2 ;;
           Ok (Some (kanji, kana, meaning))
       end.

Fixpoint parse_fixed_lines (lines : list str) (entries : list entry)
  : result (list entry) :=
  match lines with
  | [] => Ok entries
  | raw :: lines' =>
      r ←r parse_fixed_line raw ;;
      parse_fixed_lines lines'
        (match r with Some e => entries ++ [e] | None => entries end)
  end.

(** [parse_fixed_file(path)]: the file at [path] is [None] when it does not
    exist and its content otherwise. *)
Definition parse_fixed_file (file : option str) : result (list entry) :=
  match file with
  | None => Raise FileNotFoundError
  | Some content => parse_fixed_lines (readlines content) []
  end.

End Parser.

(** ** convert_kana_entries.py: the pool builder *)

(** The three pools and the three sets of values already seen. *)
Record Pools : Type := {
  kanji_pool : list str;
  kana_pool : list str;
  meaning_pool : list str;
  seen_kanji : gset str;
  seen_kana : gset str;
  seen_meaning : gset str;
}.

(** [if v and v not in seen: seen.add(v); pool.append(v)] *)
Definition add_unique (v : str) (pool : list str) (seen : gset str)
  : list str * gset str :=
  if truthy v && bool_decide (v ∉ seen)
  then (pool ++ [v], {[ v ]} ∪ seen)
  else (pool, seen).

(** One iteration of the loop of [build_pools]. *)
Definition build_pools_step (ps : Pools) (e : entry) : Pools :=
  let '(kanji, kana, meaning) := e in
  let '(kp, sk) := add_unique kanji (kanji_pool ps) (seen_kanji ps) in
  let '(np, sn) := add_unique kana (kana_pool ps) (seen_kana ps) in
  let '(mp, sm) := add_unique meaning (meaning_pool ps) (seen_meaning ps) in
  {| kanji_pool := kp; kana_pool := np; meaning_pool := mp;
     seen_kanji := sk; seen_kana := sn; seen_meaning := sm |}.

Definition build_pools_loop (entries : list entry) (ps : Pools) : Pools :=
  foldl build_pools_step ps entries.

Definition empty_pools : Pools :=
  {| kanji_pool := []; kana_pool := []; meaning_pool := [];
     seen_kanji := ∅; seen_kana := ∅; seen_meaning := ∅ |}.

(** [build_pools(entries)] returns [(kanji_pool, kana_pool, meaning_pool)]. *)
Definition build_pools (entries : list entry) : list str * list str * list str :=
  let ps := build_pools_loop entries empty_pools in
  (kanji_pool ps, kana_pool ps, meaning_pool ps).

(** ** convert_kana_entries.py: the question generator *)

(** [list(dict.fromkeys(l))]: the values of [l] in order of first
    occurrence; the dict is the insertion-ordered list of its keys. *)
Definition dict_fromkeys (l : list str) : list str :=
  foldl (λ keys k, if decide (k ∈ keys) then keys else keys ++ [k]) [] l.

(** [[k for k in dict.fromkeys(pool) if k]] *)
Definition unique_pool (pool : list str) : list str :=
  filter (λ k, truthy k = true) (dict_fromkeys pool).

Section Generator.
Context `{UnicodeData} {G : Type} `{RandomSource G}.

(** The variables the loop of [generate_all_questions] updates. *)
Record GenState : Type := {
  questions : list Question;
  skipped : nat;
  rng_state : G;
}.

(** [sample_distractors(pool, correct, need)]: [Ok (None, _)] is the
    returned [None], [Raise] an exception of [rng.sample]. *)
Definition sample_distractors (g : G) (pool : list str) (correct : str)
    (need : nat) : result (option (list str) * G) :=
  let candidates := filter (λ p, p ≠ correct) pool in
  if decide (length candidates < need) then Ok (None, g)
  else match rng_sample g candidates need with
       | Some (ds, g') => Ok (Some ds, g')
       | None => Raise ValueError
       end.

(** [make_question(...)]: the dict appended to [questions]. *)
Definition make_question (entry_index : nat) (q_type : QType)
    (prompt text correct_value : str) (options : list str)
    (correct_index : nat) : Question :=
  {| entry_index := entry_index; q_type := q_type; prompt := prompt;
     text := text; options := options; correct_answer := correct_value;
     correct_index := correct_index |}.

(** The question text of each type, around the prompt value. *)
Definition question_text (d : QType) (v : str) : str :=
  match d with
  | KanjiToHiragana => str_of "What is the hiragana reading of '" ++ v ++ str_of "'?"
  | KanjiToMeaning => str_of "What does '" ++ v ++ str_of "' mean?"
  | KanaToMeaning => str_of "What does '" ++ v ++ str_of "' mean?"
  | KanaToKanji => str_of "Which kanji corresponds to '" ++ v ++ str_of "'?"
  | MeaningToKanji => str_of "Which kanji represents '" ++ v ++ str_of "'?"
  | MeaningToKana => str_of "What is the hiragana for '" ++ v ++ str_of "'?"
  end.

(** One of the six blocks of the loop body, which differ in the question
    type, the prompt value, the correct value and the pool only:

      if prompt and correct:
          distractors = sample_distractors(pool, correct)
          if distractors is None: skipped += 1
          else:
              opts = distractors + [correct]; rng.shuffle(opts)
              make_question(idx, q_type, prompt, text, correct, opts,
                            opts.index(correct))

    [sample_distractors] is called with its default [need = 3]. *)
Definition attempt (idx : nat) (d : QType) (prompt_val correct_val : str)
    (pool : list str) (st : GenState) : result GenState :=
  if truthy prompt_val && truthy correct_val then
    r ←r sample_distractors (rng_state st) pool correct_val 3 ;;
    match r with
    | (None, g) =>
        Ok {| questions := questions st; skipped := S (skipped st); rng_state := g |}
    | (Some distractors, g) =>
        let '(opts, g') := rng_shuffle g (distractors ++ [correct_val]) in
        match index opts correct_val with
        | None => Raise ValueError
        | Some i =>
            Ok {| questions :=
                    questions st ++
                      [make_question idx d prompt_val
                         (question_text d prompt_val) correct_val opts i];
                  skipped := skipped st;
                  rng_state := g' |}
        end
    end
  else Ok st.

(** The body of the loop over [enumerate(entries, start=1)], with the three
    unique pools computed before the loop. *)
Definition entry_body (kanji_pool_unique kana_pool_unique meaning_pool_unique : list str)
    (idx : nat) (e : entry) (st : GenState) : result GenState :=
  let '(kanji, kana, meaning) := e in
  let kanji_val := strip kanji in
  let kana_val := strip kana in
  let meaning_val := strip meaning in
  st ←r attempt idx KanjiToHiragana kanji_val kana_val kana_pool_unique st ;;
  st ←r attempt idx KanjiToMeaning kanji_val meaning_val meaning_pool_unique st ;;
  st ←r attempt idx KanaToMeaning kana_val meaning_val meaning_pool_unique st ;;
  st ←r attempt idx KanaToKanji kana_val kanji_val kanji_pool_unique st ;;
  st ←r attempt idx MeaningToKanji meaning_val kanji_val kanji_pool_unique st ;;
  attempt idx MeaningToKana meaning_val kana_val kana_pool_unique st.

Fixpoint gen_loop (kp np mp : list str) (idx : nat) (entries : list entry)
    (st : GenState) : result GenState :=
  match entries with
  | [] => Ok st
  | e :: entries' =>
      st' ←r entry_body kp np mp idx e st ;;
      gen_loop kp np mp (S idx) entries' st'
  end.

(** [generate_all_questions(entries, kanji_pool, kana_pool, meaning_pool,
    min_options, rng)].  [rng] is [None] when the caller passes none, and
    the generator of the [random] module, whose state is [ambient], is used
    then.  The result is [(questions, skipped)] with the state the random
    source is left in.  [min_options] is accepted and not read. *)
Definition generate_all_questions (entries : list entry)
    (kanji_pool kana_pool meaning_pool : list str) (min_options : Z)
    (rng : option G) (ambient : G) : result (list Question * nat * G) :=
  let rng := match rng with Some g => g | None => ambient end in
  let kanji_pool_unique := unique_pool kanji_pool in
  let kana_pool_unique := unique_pool kana_pool in
  let meaning_pool_unique := unique_pool meaning_pool in
  st ←r gen_loop kanji_pool_unique kana_pool_unique meaning_pool_unique 1
          entries {| questions := []; skipped := 0; rng_state := rng |} ;;
  Ok (questions st, skipped st, rng_state st).

End Generator.

(** ** process_mimikara_n3.py: the level header *)

Section Level.
Context `{UnicodeData}.

(** The dict [level_map]. *)
Definition level_map : gmap str nat :=
  list_to_map [(str_of "n5", 1); (str_of "n4", 2); (str_of "n3", 3);
               (str_of "n2", 4); (str_of "n1", 5)].

(** The loop of [read_level_from_txt] over the lines of the file; leaving
    the loop, by [break] or at the end of the file, reaches the [raise]. *)
Fixpoint read_level_lines (lines : list str) : result nat :=
  match lines with
  | [] => Raise ValueError
  | raw :: lines' =>
      let line := lower (strip raw) in
      if negb (truthy line) then read_level_lines lines'
      else match level_map !! line with
           | Some level_id => Ok level_id
           | None => Raise ValueError
           end
  end.

(** [read_level_from_txt(path)]; opening a file that does not exist raises
    [FileNotFoundError]. *)
Definition read_level_from_txt (file : option str) : result nat :=
  match file with
  | None => Raise FileNotFoundError
  | Some content => read_level_lines (readlines content)
  end.

End Level.

(** ** process_mimikara_n3.py: the raw file and the fixed file *)

Definition space : char := 32%N.
Definition carriage_return : char := 13%N.

(** What a file opened for reading in text mode hands over for the stored
    text: a carriage return followed by a line feed, and a lone carriage
    return, each become one line feed. *)
Fixpoint text_mode_read (stored : str) : str :=
  match stored with
  | [] => []
  | c :: s' =>
      if decide (c = carriage_return) then
        match s' with
        | c' :: s'' =>
            if decide (c' = newline) then newline :: text_mode_read s''
            else newline :: text_mode_read s'
        | [] => [newline]
        end
      else c :: text_mode_read s'
  end.

(** [s.lstrip(chars)]: [s] without its leading characters that are in
    [chars]. *)
Fixpoint lstrip_chars (chars : list char) (s : str) : str :=
  match s with
  | [] => []
  | c :: s' => if bool_decide (c ∈ chars) then lstrip_chars chars s' else s
  end.

(** [s.rstrip(chars)]: [s] without its trailing characters that are in
    [chars]. *)
Definition rstrip_chars (chars : list char) (s : str) : str :=
  reverse (lstrip_chars chars (reverse s)).

(** [str(i)] and [f"{i}"] for an [int] that is not negative: its decimal
    digits. *)
Definition str_of_nat (i : nat) : str := str_of (pretty i).

Section RawFile.
Context `{UnicodeData}.

(** The character class of [kana_re]: hiragana (U+3040 to U+309F), katakana
    (U+30A0 to U+30FF), the katakana extensions (U+31F0 to U+31FF), the
    prolonged sound mark, the middle dot, the two iteration marks and white
    space. *)
Definition kana_class (c : char) : bool :=
  bool_decide (0x3040 ≤ c ∧ c ≤ 0x309F)%N
  || bool_decide (0x30A0 ≤ c ∧ c ≤ 0x30FF)%N
  || bool_decide (0x31F0 ≤ c ∧ c ≤ 0x31FF)%N
  || bool_decide (c = 0x30FC%N)
  || bool_decide (c = 0x30FB%N)
  || bool_decide (c = 0x309D%N)
  || bool_decide (c = 0x309E%N)
  || isspace c.

(** [_is_kana_only(s)]: the trimmed string is not empty and the pattern, one
    or more characters of the class between the anchors, matches all of
    it. *)
Definition _is_kana_only (s : str) : bool :=
  let s := strip s in
  if negb (truthy s) then false
  else forallb kana_class s.

(** The body of the loop of [parse_raw_file] on one line of the file:
    [None] when the line is skipped, [Some e] when the entry [e] is
    appended. *)
Definition parse_raw_line (raw : str) : option entry :=
  let line := strip raw in
  if negb (truthy line) then None
  else if negb (bool_decide (comma ∈ line)) then None
  else
    let line := rstrip_chars [comma] line in
    let parts := strip <$> split comma 2 line in
    let parts :=
      filter (λ p, truthy p = true ∧ lower p ≠ str_of "nan") parts in
    match parts with
    | kanji :: kana :: meaning :: _ => Some (kanji, kana, meaning)
    | [a; b] => if _is_kana_only a then Some ([], a, b) else Some (a, b, [])
    | [a] => if _is_kana_only a then Some ([], a, []) else Some ([], [], a)
    | [] => None
    end.

Fixpoint parse_raw_lines (lines : list str) (entries : list entry)
  : list entry :=
  match lines with
  | [] => entries
  | raw :: lines' =>
      parse_raw_lines lines'
        (match parse_raw_line raw with
         | Some e => entries ++ [e]
         | None => entries
         end)
  end.

(** [parse_raw_file(path)]: the file at [path] is [None] when it does not
    exist and what reading it in text mode hands over otherwise. *)
Definition parse_raw_file (file : option str) : result (list entry) :=
  match file with
  | None => Raise FileNotFoundError
  | Some content => Ok (parse_raw_lines (readlines content) [])
  end.

(** The line [write_fixed_file] writes for the entry at position [i]. *)
Definition fixed_line (i : nat) (e : entry) : str :=
  let '(kanji, kana, meaning) := e in
  let kanji_s := strip kanji in
  let kana_s := strip kana in
  let meaning_s := strip meaning in
  str_of_nat i ++ str_of ".   " ++ kanji_s ++ str_of ", " ++ kana_s
    ++ str_of ", " ++ meaning_s ++ [newline].

Fixpoint write_fixed_lines (i : nat) (entries : list entry) : str :=
  match entries with
  | [] => []
  | e :: entries' => fixed_line i e ++ write_fixed_lines (S i) entries'
  end.

(** The text [write_fixed_file(entries, out_path)] leaves in the file when
    it returns.  The file is opened for writing with [newline="\n"], so that
    nothing is translated. *)
Definition write_fixed_file (entries : list entry) : str :=
  write_fixed_lines 1 entries.

(** The file is opened with [encoding="utf-8"], and a [str] may hold what
    UTF-8 does not encode: a surrogate, U+D800 to U+DFFF.  [fh.write] raises
    [UnicodeEncodeError] on a line that holds one. *)
Definition surrogate (c : char) : bool :=
  bool_decide (0xD800 ≤ c ∧ c ≤ 0xDFFF)%N.

Definition utf8_encodable (text : str) : bool :=
  forallb (λ c, negb (surrogate c)) text.

(** The loop of [write_fixed_file] with its error: [written] is what went
    to the file so far, and [None] stands for the [UnicodeEncodeError] of
    [fh.write]. *)
Fixpoint write_fixed_lines_call (i : nat) (entries : list entry)
    (written : str) : option str :=
  match entries with
  | [] => Some written
  | e :: entries' =>
      let line := fixed_line i e in
      if utf8_encodable line
      then write_fixed_lines_call (S i) entries' (written ++ line)
      else None
  end.

(** The call [write_fixed_file(entries, out_path)]: the text in the file
    when the call returns, [None] when it raises. *)
Definition write_fixed_file_call (entries : list entry) : option str :=
  write_fixed_lines_call 1 entries [].

End RawFile.

(** ** process_mimikara_n3.py: the chapters of the numbered file *)

Definition open_brace : char := 123%N.
Definition close_brace : char := 125%N.

(** [re.findall(pattern, text, flags=re.S)] for the pattern of
    [parse_chapters_from_fixed]: an opening brace, group 1 any run of
    characters other than the closing brace, a closing brace.  The result is
    the list of group 1 of the matches, found from left to right without
    overlap.  A match starts at the first opening brace at or after the end
    of the match before it; its group, being greedy and followed by the one
    character it excludes, runs to the next closing brace, over any opening
    brace on the way.  When no closing brace follows, the attempt fails, and
    so does every attempt further right.  [inside] is [None] while an
    opening brace is looked for, and the group read so far after one. *)
Fixpoint findall_blocks (inside : option str) (text : str) : list str :=
  match text with
  | [] => []
  | c :: text' =>
      match inside with
      | None =>
          if decide (c = open_brace) then findall_blocks (Some []) text'
          else findall_blocks None text'
      | Some block =>
          if decide (c = close_brace) then block :: findall_blocks None text'
          else findall_blocks (Some (block ++ [c])) text'
      end
  end.

(** The characters [str.splitlines] breaks lines at: line feed, vertical
    tab, form feed, carriage return, the file, group and record separators,
    next line (U+0085), line separator (U+2028) and paragraph separator
    (U+2029). *)
Definition line_boundary (c : char) : bool :=
  bool_decide (c ∈ [10; 11; 12; 13; 28; 29; 30; 0x85; 0x2028; 0x2029]%N).

(** [s.splitlines()]: the lines of [s] without their line ends; a carriage
    return followed by a line feed is one line end, and a line end at the
    end of [s] starts no further line. *)
Fixpoint splitlines (s : str) : list str :=
  match s with
  | [] => []
  | c :: s' =>
      if line_boundary c then
        [] :: match s' with
              | c' :: s'' =>
                  if decide (c = carriage_return ∧ c' = newline)
                  then splitlines s''
                  else splitlines s'
              | [] => []
              end
      else match splitlines s' with
           | [] => [[c]]
           | l :: ls => (c :: l) :: ls
           end
  end.

(** [int(s)] for a string of decimal digits.  What it returns for digits
    outside ASCII, and the length from which it raises [ValueError], are the
    runtime's. *)
Class IntConversion : Type := {
  py_int : str → result Z;
}.

Section Chapters.
Context `{UnicodeData} `{IntConversion}.

(** [re.match(pattern, line)] for the pattern of the numbered lines: start
    of string, group 1 the digits [\d+], a literal full stop.  The result is
    [group(1)] of the match, [None] when there is none.  The full stop is no
    digit, so the group is the longest run of digits. *)
Definition chapter_line_match (line : str) : option str :=
  let '(digits, rest) := span isdecimal line in
  match digits, rest with
  | _ :: _, c :: _ => if decide (c = dot) then Some digits else None
  | _, _ => None
  end.

(** The body of the inner loop of [parse_chapters_from_fixed]. *)
Definition chapter_line (chapter_idx : nat) (raw : str) (mapping : gmap Z nat)
  : result (gmap Z nat) :=
  let line := strip raw in
  if negb (truthy line) then Ok mapping
  else match chapter_line_match line with
       | Some group1 =>
           entry_id ←r py_int group1 ;;
           Ok (<[entry_id := chapter_idx]> mapping)
       | None => Ok mapping
       end.

Fixpoint chapter_lines (chapter_idx : nat) (lines : list str)
    (mapping : gmap Z nat) : result (gmap Z nat) :=
  match lines with
  | [] => Ok mapping
  | raw :: lines' =>
      mapping ←r chapter_line chapter_idx raw mapping ;;
      chapter_lines chapter_idx lines' mapping
  end.

(** The loop over [enumerate(blocks, start=1)]. *)
Fixpoint chapter_blocks (chapter_idx : nat) (blocks : list str)
    (mapping : gmap Z nat) : result (gmap Z nat) :=
  match blocks with
  | [] => Ok mapping
  | block :: blocks' =>
      mapping ←r chapter_lines chapter_idx (splitlines block) mapping ;;
      chapter_blocks (S chapter_idx) blocks' mapping
  end.

(** The value of [blocks] when the loop starts: the groups found, or the
    whole text when there is none. *)
Definition blocks_of_text (text : str) : list str :=
  let blocks := findall_blocks None text in
  match blocks with
  | [] => [text]
  | _ => blocks
  end.

(** [parse_chapters_from_fixed(fixed_path)]: the file at [fixed_path] is
    [None] when it does not exist and what [read_text] hands over
    otherwise. *)
Definition parse_chapters_from_fixed (file : option str)
  : result (gmap Z nat) :=
  match file with
  | None => Raise FileNotFoundError
  | Some text => chapter_blocks 1 (blocks_of_text text) ∅
  end.

(** The start of [apply_chapters]: [level_str] lowered is looked up in the
    dict [level_map], the same dict as in [read_level_from_txt]; a key that
    is not there raises [ValueError]. *)
Definition apply_chapters_level (level_str : str) : result nat :=
  let level_key := lower level_str in
  match level_map !! level_key with
  | None => Raise ValueError
  | Some level_id => Ok level_id
  end.

(** [re.match(pattern, line)] for the pattern of [apply_chapters]: start of
    string, white space [\s*], group 1 the digits [\d+], a literal full
    stop. *)
Definition apply_chapters_line_match (line : str) : option str :=
  let s1 := lstrip line in
  let '(digits, rest) := span isdecimal s1 in
  match digits, rest with
  | _ :: _, c :: _ => if decide (c = dot) then Some digits else None
  | _, _ => None
  end.

(** The body of the inner loop of [apply_chapters]; a [ValueError] of
    [int] is caught and the line passed over. *)
Definition apply_chapters_line (ci : nat) (raw_line : str)
    (entry_to_chapter : gmap Z nat) : result (gmap Z nat) :=
  let line := strip raw_line in
  if negb (truthy line) then Ok entry_to_chapter
  else match apply_chapters_line_match line with
       | Some group1 =>
           match py_int group1 with
           | Ok entry_num => Ok (<[entry_num := ci]> entry_to_chapter)
           | Raise ValueError => Ok entry_to_chapter
           | Raise e => Raise e
           end
       | None => Ok entry_to_chapter
       end.

Fixpoint apply_chapters_lines (ci : nat) (lines : list str)
    (entry_to_chapter : gmap Z nat) : result (gmap Z nat) :=
  match lines with
  | [] => Ok entry_to_chapter
  | raw_line :: lines' =>
      entry_to_chapter ←r apply_chapters_line ci raw_line entry_to_chapter ;;
      apply_chapters_lines ci lines' entry_to_chapter
  end.

Fixpoint apply_chapters_blocks (ci : nat) (chapter_blocks : list str)
    (entry_to_chapter : gmap Z nat) : result (gmap Z nat) :=
  match chapter_blocks with
  | [] => Ok entry_to_chapter
  | block :: chapter_blocks' =>
      entry_to_chapter ←r
        apply_chapters_lines ci (splitlines block) entry_to_chapter ;;
      apply_chapters_blocks (S ci) chapter_blocks' entry_to_chapter
  end.

(** The part of [apply_chapters] between reading the fixed file and opening
    the database: the value of [entry_to_chapter] for the text read. *)
Definition entry_to_chapter (text : str) : result (gmap Z nat) :=
  let chapter_blocks := findall_blocks None text in
  let chapter_blocks :=
    match chapter_blocks with
    | [] => [text]
    | _ => chapter_blocks
    end in
  apply_chapters_blocks 1 chapter_blocks ∅.

End Chapters.

(** ** convert_kana_entries.py: inserting into the database *)

(** [s or None]: the empty string is stored as NULL. *)
Definition or_none (s : str) : option str :=
  if truthy s then Some s else None.

(** The parameters of the [INSERT INTO entries] statement. *)
Record EntryParams : Type := {
  list_index : nat;
  entry_kanji : option str;
  entry_kana : option str;
  entry_meaning : option str;
}.

(** The parameters of the [INSERT INTO questions] statement; [None] is
    NULL. *)
Record QuestionParams : Type := {
  param_entry_id : option Z;
  param_quiz_id : option Z;
  param_q_type : str;
  param_prompt : str;
  param_text : str;
  param_options : str;
  param_correct_answer : str;
  param_correct_index : nat;
  param_level : option Z;
  param_chapter : option Z;
  param_created_at : str;
}.

(** What [insert_entries] and [insert_questions] call outside the module:
    the connection to the database, [json.dumps] and the clock.  [D] is the
    state of the connection; a call that raises yields [None]. *)
Class Connection (D : Type) : Type := {
  (** [cur.execute] of the INSERT into [entries], then [cur.lastrowid] *)
  execute_insert_entry : D → EntryParams → option (D * Z);
  (** [cur.execute] of the INSERT into [questions] *)
  execute_insert_question : D → QuestionParams → option D;
  (** [conn.commit()] *)
  commit : D → option D;
  (** [json.dumps(options, ensure_ascii=False)] *)
  json_dumps : list str → str;
  (** [datetime.utcnow().isoformat()] *)
  utcnow_isoformat : D → str;
}.

Section Inserts.
Context {D : Type} `{Connection D}.

(** The tuple [insert_entries] hands to [execute] for the entry at
    position [i]. *)
Definition entry_params (i : nat) (e : entry) : EntryParams :=
  let '(kanji, kana, meaning) := e in
  {| list_index := i; entry_kanji := or_none kanji;
     entry_kana := or_none kana; entry_meaning := or_none meaning |}.

(** The loop of [insert_entries] over [enumerate(entries, start=1)]. *)
Fixpoint insert_entries_loop (conn : D) (i : nat) (entries : list entry)
    (inserted_ids : list Z) : option (D * list Z) :=
  match entries with
  | [] => Some (conn, inserted_ids)
  | e :: entries' =>
      '(conn, lastrowid) ← execute_insert_entry conn (entry_params i e);
      insert_entries_loop conn (S i) entries' (inserted_ids ++ [lastrowid])
  end.

(** [insert_entries(conn, entries)] *)
Definition insert_entries (conn : D) (entries : list entry)
  : option (D * list Z) :=
  '(conn, inserted_ids) ← insert_entries_loop conn 1 entries [];
  conn ← commit conn;
  Some (conn, inserted_ids).

(** The tuple [insert_questions] hands to [execute] for a question dict
    that [make_question] built.  Such a dict has an [int] under
    [entry_index] and no key [entry_id], [level] or [chapter]: the fallback
    on [entry_id] does nothing, and [level] and [chapter] are NULL. *)
Definition question_params (q : Question) (entry_db_ids : list Z)
    (created_at : str) : QuestionParams :=
  let entry_id :=
    if decide (1 ≤ entry_index q ≤ length entry_db_ids)
    then entry_db_ids !! (entry_index q - 1)
    else None in
  {| param_entry_id := entry_id;
     param_quiz_id := None;
     param_q_type := str_of (q_type_tag (q_type q));
     param_prompt := prompt q;
     param_text := text q;
     param_options := json_dumps (options q);
     param_correct_answer := correct_answer q;
     param_correct_index := correct_index q;
     param_level := None;
     param_chapter := None;
     param_created_at := created_at |}.

(** The loop of [insert_questions]. *)
Fixpoint insert_questions_loop (conn : D) (questions : list Question)
    (entry_db_ids : list Z) (inserted : nat) : option (D * nat) :=
  match questions with
  | [] => Some (conn, inserted)
  | q :: questions' =>
      conn ← execute_insert_question conn
                (question_params q entry_db_ids (utcnow_isoformat conn));
      insert_questions_loop conn questions' entry_db_ids (S inserted)
  end.

(** [insert_questions(conn, questions, entry_db_ids)] *)
Definition insert_questions (conn : D) (questions : list Question)
    (entry_db_ids : list Z) : option (D * nat) :=
  '(conn, inserted) ← insert_questions_loop conn questions entry_db_ids 0;
  conn ← commit conn;
  Some (conn, inserted).

End Inserts.

(** * The vocabulary of the properties

    The notions the statements below are written in: order of first
    occurrence, the fields and pools of a question type, the outcome of an
    attempt, the order of the questions, what it is for two random sources
    to be the same. *)

(** ** Values in order of first occurrence *)

(** The distinct values of a list, each at the place of its first
    occurrence. *)
Fixpoint first_occ (l : list str) : list str :=
  match l with
  | [] => []
  | x :: l' => x :: filter (λ y, y ≠ x) (first_occ l')
  end.

(** [x] first occurs in [l] before [y] first does. *)
Definition first_lt (l : list str) (x y : str) : Prop :=
  ∃ a b, index l x = Some a ∧ index l y = Some b ∧ a < b.

(** The accumulation both [build_pools] and [dict.fromkeys] perform: append
    a value that passes [keep] and is not in the list yet. *)
Definition add_val (keep : str → bool) (pool : list str) (v : str) : list str :=
  if keep v && bool_decide (v ∉ pool) then pool ++ [v] else pool.

(** ** Pools *)

Definition kanji_of (e : entry) : str := e.1.1.
Definition kana_of (e : entry) : str := e.1.2.
Definition meaning_of (e : entry) : str := e.2.

(** Each set of seen values holds the values of its pool. *)
Definition pools_wf (ps : Pools) : Prop :=
  (∀ v, v ∈ seen_kanji ps ↔ v ∈ kanji_pool ps) ∧
  (∀ v, v ∈ seen_kana ps ↔ v ∈ kana_pool ps) ∧
  (∀ v, v ∈ seen_meaning ps ↔ v ∈ meaning_pool ps).

(** [pool] is the pool of the field whose values, entry by entry, are
    [col]: every non-empty value of the field and nothing else, each once,
    in order of first appearance. *)
Definition pool_of_column (pool col : list str) : Prop :=
  NoDup pool ∧
  (∀ v, v ∈ pool ↔ v ≠ [] ∧ v ∈ col) ∧
  (∀ i j x y, pool !! i = Some x → pool !! j = Some y → i < j →
     first_lt col x y) ∧
  length pool ≤ length col.

(** ** Question types, fields and attempts *)

(** The six question types in the order of the six blocks. *)
Definition directions : list QType :=
  [KanjiToHiragana; KanjiToMeaning; KanaToMeaning; KanaToKanji;
   MeaningToKanji; MeaningToKana].

(** The place of a question type in that order. *)
Definition rank (d : QType) : nat :=
  match d with
  | KanjiToHiragana => 0
  | KanjiToMeaning => 1
  | KanaToMeaning => 2
  | KanaToKanji => 3
  | MeaningToKanji => 4
  | MeaningToKana => 5
  end.

(** The three fields of an entry. *)
Inductive Field : Type :=
| Kanji
| Kana
| Meaning.

Definition field_of (f : Field) (e : entry) : str :=
  match f with
  | Kanji => kanji_of e
  | Kana => kana_of e
  | Meaning => meaning_of e
  end.

Definition pool_of (f : Field) (kanji_pool kana_pool meaning_pool : list str)
  : list str :=
  match f with
  | Kanji => kanji_pool
  | Kana => kana_pool
  | Meaning => meaning_pool
  end.

(** The field a question type takes its prompt from, and the field it
    takes its correct answer from. *)
Definition source (d : QType) : Field :=
  match d with
  | KanjiToHiragana | KanjiToMeaning => Kanji
  | KanaToMeaning | KanaToKanji => Kana
  | MeaningToKanji | MeaningToKana => Meaning
  end.

Definition target (d : QType) : Field :=
  match d with
  | KanjiToHiragana | MeaningToKana => Kana
  | KanjiToMeaning | KanaToMeaning => Meaning
  | KanaToKanji | MeaningToKanji => Kanji
  end.

Definition source_field (d : QType) (e : entry) : str := field_of (source d) e.
Definition target_field (d : QType) (e : entry) : str := field_of (target d) e.

(** The pool a question type draws its distractors from: the pool of its
    target field. *)
Definition target_pool (d : QType) (kanji_pool kana_pool meaning_pool : list str)
  : list str :=
  pool_of (target d) kanji_pool kana_pool meaning_pool.

(** One attempt of the run: the position of the entry, the entry and the
    question type. *)
Definition task : Type := nat * entry * QType.

Definition entry_tasks (idx : nat) (e : entry) : list task :=
  (λ d, (idx, e, d)) <$> directions.

(** The attempts of a run over [entries], the first entry at position
    [idx], in the order they are made. *)
Fixpoint all_tasks (idx : nat) (entries : list entry) : list task :=
  match entries with
  | [] => []
  | e :: entries' => entry_tasks idx e ++ all_tasks (S idx) entries'
  end.

(** ** Outcomes *)

(** What the attempt of one question type for one entry comes to: the type
    is passed over without a trace, or it is counted as skipped, or a
    question is emitted. *)
Inductive outcome : Type :=
| Silent
| Counted
| Emitted (q : Question).

Definition emitted (o : outcome) : list Question :=
  match o with Emitted q => [q] | _ => [] end.

Definition counted (o : outcome) : nat :=
  match o with Counted => 1 | _ => 0 end.

(** The values of a pool that may serve as distractors for [correct]. *)
Definition candidates (pool : list str) (correct : str) : list str :=
  filter (λ p, p ≠ correct) pool.

(** The outcome [o] is the one the block of type [d] must have for the
    entry at position [idx] with prompt value [p], correct value [c] and
    unique pool [pool]. *)
Definition outcome_of (idx : nat) (d : QType) (p c : str) (pool : list str)
    (o : outcome) : Prop :=
  match o with
  | Silent => p = [] ∨ c = []
  | Counted => p ≠ [] ∧ c ≠ [] ∧ length (candidates pool c) < 3
  | Emitted q =>
      p ≠ [] ∧ c ≠ [] ∧ 3 ≤ length (candidates pool c) ∧
      entry_index q = idx ∧ q_type q = d ∧ prompt q = p ∧
      text q = question_text d p ∧ correct_answer q = c ∧
      index (options q) c = Some (correct_index q) ∧
      ∃ ds, length ds = 3 ∧ ds ⊆+ candidates pool c ∧ options q ≡ₚ ds ++ [c]
  end.

(** The invariant of a question: four options, no two equal, the correct
    answer at the recorded index. *)
Definition well_formed (q : Question) : Prop :=
  length (options q) = 4 ∧
  NoDup (options q) ∧
  options q !! correct_index q = Some (correct_answer q).

(** The options of a question other than its correct answer. *)
Definition distractors (q : Question) : list str :=
  filter (λ o, o ≠ correct_answer q) (options q).

(** ** The order of the questions *)

(** The order on (entry position, place of the question type): by entry
    first, by question type within an entry. *)
Definition key_lt (a b : nat * nat) : Prop :=
  a.1 < b.1 ∨ (a.1 = b.1 ∧ a.2 < b.2).

Definition task_key (t : task) : nat * nat := (t.1.1, rank t.2).

Definition question_key (q : Question) : nat * nat :=
  (entry_index q, rank (q_type q)).

(** ** Normalized values, and which attempts emit or are counted *)

Section Vocabulary.
Context `{UnicodeData}.

(** The value of a field after [# normalize values]. *)
Definition prompt_val (d : QType) (e : entry) : str := strip (source_field d e).
Definition correct_val (d : QType) (e : entry) : str := strip (target_field d e).

Definition task_outcome (kp np mp : list str) (t : task) (o : outcome) : Prop :=
  let '(idx, e, d) := t in
  outcome_of idx d (prompt_val d e) (correct_val d e) (target_pool d kp np mp) o.

(** The unique pool of the target field holds at least three values other
    than the normalized target value of the entry. *)
Definition enough (kp np mp : list str) (e : entry) (d : QType) : Prop :=
  3 ≤ length (candidates (unique_pool (target_pool d kp np mp))
                (strip (target_field d e))).

(** The type [d] yields a question for the entry [e]. *)
Definition emitting_dir (kp np mp : list str) (e : entry) (d : QType) : Prop :=
  strip (source_field d e) ≠ [] ∧ strip (target_field d e) ≠ [] ∧
  enough kp np mp e d.

(** The type [d] is counted as skipped for the entry [e]. *)
Definition counted_dir (kp np mp : list str) (e : entry) (d : QType) : Prop :=
  strip (source_field d e) ≠ [] ∧ strip (target_field d e) ≠ [] ∧
  ¬ enough kp np mp e d.

#[export] Instance enough_dec kp np mp e d : Decision (enough kp np mp e d).
Proof. unfold enough. apply _. Defined.

#[export] Instance emitting_dir_dec kp np mp e d :
  Decision (emitting_dir kp np mp e d).
Proof. unfold emitting_dir. apply _. Defined.

#[export] Instance counted_dir_dec kp np mp e d :
  Decision (counted_dir kp np mp e d).
Proof. unfold counted_dir. apply _. Defined.

(** The number of types counted as skipped for one entry. *)
Definition entry_skips (kp np mp : list str) (e : entry) : nat :=
  length (filter (counted_dir kp np mp e) directions).

(** ** Lines of a file *)

(** A line is empty when nothing is left of it after trimming. *)
Definition blank (line : str) : Prop := strip line = [].

(** The entry a line contributes, if any. *)
Definition line_entry (raw : str) : option entry :=
  match parse_fixed_line raw with
  | Ok r => r
  | Raise _ => None
  end.

End Vocabulary.

(** The five level tokens with their ordinal ids. *)
Definition level_tokens : list (string * nat) :=
  [("n5"%string, 1); ("n4"%string, 2); ("n3"%string, 3);
   ("n2"%string, 4); ("n1"%string, 5)].

(** ** Runs *)

Section RunVocabulary.
Context {G : Type}.

(** A run went from [st] to [st'] with outcomes [outs]: the questions are
    appended in order, the skipped count grows by the counted outcomes. *)
Definition extends (st st' : @GenState G) (outs : list outcome) : Prop :=
  questions st' = questions st ++ (outs ≫= emitted) ∧
  skipped st' = skipped st + sum_list_with counted outs.

End RunVocabulary.

(** ** The same random source *)

Section SameSource.
Context {G1 G2 : Type} `{RandomSource G1} `{RandomSource G2}.
Variable R : G1 → G2 → Prop.

(** Two random sources in states related by [R] are the same source: they
    answer every call alike and are left in related states. *)
Definition same_draws : Prop :=
  (∀ g1 g2 l k, R g1 g2 →
     match rng_sample g1 l k, rng_sample g2 l k with
     | Some (r1, g1'), Some (r2, g2') => r1 = r2 ∧ R g1' g2'
     | None, None => True
     | _, _ => False
     end) ∧
  (∀ g1 g2 l, R g1 g2 →
     (rng_shuffle g1 l).1 = (rng_shuffle g2 l).1 ∧
     R (rng_shuffle g1 l).2 (rng_shuffle g2 l).2).

Definition same_state (s1 : @GenState G1) (s2 : @GenState G2) : Prop :=
  questions s1 = questions s2 ∧ skipped s1 = skipped s2 ∧
  R (rng_state s1) (rng_state s2).

Definition same_result (r1 : result (@GenState G1)) (r2 : result (@GenState G2))
  : Prop :=
  match r1, r2 with
  | Ok s1, Ok s2 => same_state s1 s2
  | Raise e1, Raise e2 => e1 = e2
  | _, _ => False
  end.

End SameSource.

(** ** Concrete tables and a concrete random source

    The properties below hold for every [UnicodeData] and every
    [RandomSource].  The instances here show that both interfaces are
    inhabited, and run the embedding on concrete inputs. *)

(** The tables of the ASCII range: every code point above U+007F is taken
    to be neither white space nor a digit and to have no case.  CPython's
    tables agree with these on ASCII text. *)

Definition ascii_isspace (c : char) : bool :=
  bool_decide (c ∈ [9; 10; 11; 12; 13; 28; 29; 30; 31; 32]%N).

Definition ascii_isdecimal (c : char) : bool :=
  bool_decide (48 ≤ c ∧ c ≤ 57)%N.

Definition ascii_lower_char (c : char) : char :=
  if bool_decide (65 ≤ c ∧ c ≤ 90)%N then (c + 32)%N else c.

Definition ascii_lower (s : str) : str := ascii_lower_char <$> s.

#[export] Instance ascii_tables : UnicodeData.
Proof.
  refine {| isspace := ascii_isspace; isdecimal := ascii_isdecimal;
            lower := ascii_lower |}.
  - reflexivity.
  - reflexivity.
  - unfold ascii_isdecimal, ascii_isspace. intros c Hd.
    apply bool_decide_eq_true in Hd. apply bool_decide_eq_false.
    rewrite !elem_of_cons, elem_of_nil. lia.
  - intros s. unfold ascii_lower. destruct s; simpl; split; congruence.
Defined.

(** A linear congruential generator.  [sample] and [shuffle] both draw
    positions one at a time and remove the drawn element from the pool. *)

Definition lcg_next (g : N) : N := ((g * 1103515245 + 12345) mod 2147483648)%N.

Definition randbelow (g : N) (n : nat) : nat * N :=
  let g' := lcg_next g in (N.to_nat (g' mod N.of_nat n), g').

Fixpoint draw (g : N) (pool : list str) (k : nat) : list str * N :=
  match k with
  | 0 => ([], g)
  | S k' =>
      let '(j, g1) := randbelow g (length pool) in
      match pool !! j with
      | Some x => let '(r, g2) := draw g1 (delete j pool) k' in (x :: r, g2)
      | None => ([], g1)
      end
  end.

Definition lcg_sample (g : N) (l : list str) (k : nat) : option (list str * N) :=
  if decide (k ≤ length l) then Some (draw g l k) else None.

Definition lcg_shuffle (g : N) (l : list str) : list str * N :=
  draw g l (length l).

#[export] Instance lcg_random : RandomSource N.
Proof.
  assert (Hdraw : ∀ k g l, k ≤ length l →
            length (draw g l k).1 = k ∧ (draw g l k).1 ⊆+ l).
  { induction k as [|k IH]; intros g l Hk; cbn [draw].
    - split; [done | apply submseteq_nil_l].
    - destruct (randbelow g (length l)) as [j g1] eqn:Hr.
      assert (Hj : j < length l).
      { unfold randbelow in Hr. injection Hr as <- _.
        assert (lcg_next g mod N.of_nat (length l) < N.of_nat (length l))%N
          by (apply N.mod_lt; lia).
        lia. }
      destruct (lookup_lt_is_Some_2 l j Hj) as [x Hx]. rewrite Hx.
      destruct (draw g1 (delete j l) k) as [r g2] eqn:Hd.
      destruct (IH g1 (delete j l)) as [Hlen Hsub].
      { rewrite length_delete by eauto. lia. }
      rewrite Hd in Hlen, Hsub. simpl in *. split; [lia |].
      rewrite (delete_Permutation l j x Hx). by apply submseteq_skip. }
  refine {| rng_sample := lcg_sample; rng_shuffle := lcg_shuffle |}.
  - intros g l k Hk. unfold lcg_sample. rewrite decide_True by done.
    destruct (Hdraw k g l Hk) as [Hlen Hsub].
    destruct (draw g l k) as [r g']. by exists r, g'.
  - intros g l k Hk. unfold lcg_sample. rewrite decide_False; [done | lia].
  - intros g l. unfold lcg_shuffle.
    destruct (Hdraw (length l) g l) as [Hlen Hsub]; [done |].
    apply submseteq_length_Permutation; [done | lia].
Defined.

(** ** Concrete runs *)

(** An entry written with ASCII literals. *)
Definition E (kanji kana meaning : string) : entry :=
  (str_of kanji, str_of kana, str_of meaning).

Definition two_entries : list entry := [E "a" "b" "c"; E "d" "e" "f"].

Definition four_entries : list entry :=
  [E "a" "b" "c"; E "d" "e" "f"; E "g" "h" "i"; E "j" "k" "l"].

Definition five_entries : list entry :=
  [E "a" "b" "c"; E "d" "e" "f"; E "g" "h" "i"; E "j" "k" "l"; E "m" "n" "o"].

(** [generate_all_questions] on an entry list and the pools [build_pools]
    makes of it, with the generator [lcg_random] seeded with [seed]. *)
Definition run_seeded (entries : list entry) (min_options : Z) (seed : N)
  : result (list Question * nat * N) :=
  generate_all_questions entries (build_pools entries).1.1
    (build_pools entries).1.2 (build_pools entries).2 min_options
    (Some seed) 0%N.

(** ** Files of entries *)

(** An ASCII decimal digit. *)
Definition digit (c : char) : Prop := (48 ≤ c)%N ∧ (c ≤ 57)%N.

Section FileVocabulary.
Context `{UnicodeData}.

(** Three facts of the Unicode tables about ASCII characters: the space is
    white space, the comma is not, and the digits 0 to 9 are decimal
    digits. *)
Definition ascii_conventions : Prop :=
  isspace space = true ∧ isspace comma = false ∧
  ∀ c, digit c → isdecimal c = true.

(** The entry with its three fields trimmed. *)
Definition normalize (e : entry) : entry :=
  (strip (kanji_of e), strip (kana_of e), strip (meaning_of e)).

(** Every field of the entry is as trimming leaves it. *)
Definition trimmed (e : entry) : Prop :=
  ∀ f, strip (field_of f e) = field_of f e.

(** No field of the entry, once trimmed, holds a surrogate: the line
    [write_fixed_file] makes of the entry encodes. *)
Definition encodable (e : entry) : Prop :=
  ∀ f, Forall (λ c, surrogate c = false) (strip (field_of f e)).

(** What [write_fixed_file] can store of an entry and [parse_fixed_file]
    read back: trimmed, neither the kanji nor the kana holds a comma, and no
    field holds a line feed or a carriage return. *)
Definition storable (e : entry) : Prop :=
  (comma ∉ strip (kanji_of e)) ∧ (comma ∉ strip (kana_of e)) ∧
  ∀ f, (newline ∉ strip (field_of f e)) ∧
       (carriage_return ∉ strip (field_of f e)).

End FileVocabulary.

(** Two entries as a raw file may give them, and the text of a fixed file
    saved with carriage returns. *)
Definition padded_entries : list entry := [E " a " "b" "c, d"; E "" "" "x"].

Definition crlf_fixed_text : str :=
  str_of "7. a,b" ++ [carriage_return; newline] ++ str_of "note" ++
  [carriage_return] ++ str_of "2.  , x , y,z".

(** The text of a raw file, saved with carriage returns, and its entries:
    a full line with commas in the meaning, a heading, a line whose kanji is
    [nan] and which ends in commas, a line that starts with a kana, a line
    with a meaning only. *)
Definition raw_text : str :=
  str_of "a, b, c, d" ++ [carriage_return; newline] ++
  str_of "Unit 1" ++ [carriage_return; newline] ++
  str_of "nan, b, meaning,," ++ [carriage_return; newline] ++
  [0x3042; 0x308B]%N ++ str_of " , to be" ++ [carriage_return; newline] ++
  str_of "NaN, nan, q".

Definition raw_entries : list entry :=
  [E "a" "b" "c, d"; E "b" "meaning" "";
   ([], [0x3042; 0x308B]%N, str_of "to be"); E "" "" "q"].

(** ** Attempts *)

Section Attempts.
Context `{UnicodeData}.

(** The type [d] is attempted for the entry [e]: the prompt value and the
    correct value are both non-empty. *)
Definition attempted_dir (e : entry) (d : QType) : Prop :=
  strip (source_field d e) ≠ [] ∧ strip (target_field d e) ≠ [].

#[export] Instance attempted_dir_dec e d : Decision (attempted_dir e d).
Proof. unfold attempted_dir. apply _. Defined.

(** The number of types attempted for one entry. *)
Definition entry_attempts (e : entry) : nat :=
  length (filter (attempted_dir e) directions).

(** The fields of the entry that are non-empty once trimmed. *)
Definition filled_fields (e : entry) : list Field :=
  filter (λ f, strip (field_of f e) ≠ []) [Kanji; Kana; Meaning].

End Attempts.

Definition three_entries : list entry :=
  [E "a" "b" "c"; E "d" "e" "f"; E "g" "h" "i"].

(** ** Chapters *)

Section ChapterVocabulary.
Context `{UnicodeData} `{IntConversion}.

(** The number of a line of the numbered file, when the line starts with
    digits and a full stop once trimmed. *)
Definition line_number (raw : str) : option Z :=
  match chapter_line_match (strip raw) with
  | Some digits =>
      match py_int digits with
      | Ok entry_id => Some entry_id
      | Raise _ => None
      end
  | None => None
  end.

(** The numbers of the numbered lines of a block. *)
Definition block_numbers (block : str) : list Z :=
  omap line_number (splitlines block).

(** The mapping the loops over the blocks leave, the first block being
    chapter [idx]: block after block, each number of the block is given the
    chapter of the block. *)
Fixpoint chapters_from (idx : nat) (blocks : list str) (mapping : gmap Z nat)
  : gmap Z nat :=
  match blocks with
  | [] => mapping
  | block :: blocks' =>
      chapters_from (S idx) blocks'
        (foldl (λ m id, <[id := idx]> m) mapping (block_numbers block))
  end.

End ChapterVocabulary.

(** [int] on ASCII digits, with the default limit of 4300 digits. *)
Definition ascii_int (s : str) : result Z :=
  if forallb (λ c, bool_decide (48 ≤ c ∧ c ≤ 57)%N) s
     && bool_decide (0 < length s ≤ 4300)
  then Ok (foldl (λ n c, 10 * n + (Z.of_N c - 48))%Z 0%Z s)
  else Raise ValueError.

#[export] Instance ascii_int_conversion : IntConversion :=
  {| py_int := ascii_int |}.

(** The text of a numbered file: a level header and two chapters, the
    second of which numbers a line as the first does. *)
Definition chapter_text : str :=
  concat ((λ s, str_of s ++ [newline]) <$>
    ["n3"; "{"; "1. a, b, c"; "22. d, e, f"; "}"; "{ 333. g, h, i";
     "1. j, k, l }"]).

(** The text of a numbered file with no chapter marked. *)
Definition plain_text : str :=
  concat ((λ s, str_of s ++ [newline]) <$> ["n3"; "1. a, b, c"; "2. d, e, f"]).

(** ** A database for the examples *)

(** Two tables in memory: the rows of [entries] with their row ids, counted
    from 1, and the rows of [questions]; no statement fails. *)
Record Tables : Type := {
  entries_table : list (Z * EntryParams);
  questions_table : list QuestionParams;
}.

(** [json.dumps] of a list of strings with [ensure_ascii=False]: each
    string between quotation marks, the quotation mark, the backslash and
    the control characters below U+0020 escaped, the items separated by a
    comma and a space, the whole between square brackets. *)
Definition quotation_mark : char := 34%N.
Definition backslash : char := 92%N.

Definition hex_digit (n : N) : char :=
  if (n <? 10)%N then (48 + n)%N else (87 + n)%N.

Definition json_escape (c : char) : str :=
  if decide (c = quotation_mark) then [backslash; quotation_mark]
  else if decide (c = backslash) then [backslash; backslash]
  else if decide (c = 8%N) then backslash :: str_of "b"
  else if decide (c = 12%N) then backslash :: str_of "f"
  else if decide (c = 10%N) then backslash :: str_of "n"
  else if decide (c = 13%N) then backslash :: str_of "r"
  else if decide (c = 9%N) then backslash :: str_of "t"
  else if (c <? 32)%N then
    backslash :: str_of "u00" ++ [hex_digit (c / 16)%N; hex_digit (c mod 16)%N]
  else [c].

Definition json_string (s : str) : str :=
  [quotation_mark] ++ (s ≫= json_escape) ++ [quotation_mark].

Fixpoint json_items (l : list str) : str :=
  match l with
  | [] => []
  | [s] => json_string s
  | s :: l' => json_string s ++ str_of ", " ++ json_items l'
  end.

Definition json_dumps_list (l : list str) : str :=
  str_of "[" ++ json_items l ++ str_of "]".

#[export] Instance tables_connection : Connection Tables := {|
  execute_insert_entry t p :=
    let rowid := Z.of_nat (S (length (entries_table t))) in
    Some ({| entries_table := entries_table t ++ [(rowid, p)];
             questions_table := questions_table t |}, rowid);
  execute_insert_question t p :=
    Some {| entries_table := entries_table t;
            questions_table := questions_table t ++ [p] |};
  commit t := Some t;
  json_dumps := json_dumps_list;
  utcnow_isoformat _ := str_of "2024-01-01T00:00:00";
|}.

Definition empty_tables : Tables :=
  {| entries_table := []; questions_table := [] |}.

(** * Properties *)

(** ** Strings *)

Section StringFacts.
Context `{UnicodeData}.

Lemma truthy_true (s : str) : truthy s = true ↔ s ≠ [].
Proof. destruct s; simpl; split; intros; congruence. Qed.

Lemma truthy_false (s : str) : truthy s = false ↔ s = [].
Proof. destruct s; simpl; split; intros; congruence. Qed.

(** What [lstrip] returns does not start with white space. *)
Lemma lstrip_head (s : str) c s' : lstrip s = c :: s' → isspace c = false.
Proof.
  induction s as [|a s IH]; simpl; [done |].
  destruct (isspace a) eqn:Ha; [done |]. intros [= <- <-]. done.
Qed.

Lemma lstrip_id (s : str) c s' : s = c :: s' → isspace c = false → lstrip s = s.
Proof. intros -> Hc. simpl. by rewrite Hc. Qed.

(** [lstrip] removes a prefix of white space. *)
Lemma lstrip_suffix (s : str) :
  ∃ ws, s = ws ++ lstrip s ∧ Forall (λ c, isspace c = true) ws.
Proof.
  induction s as [|a s (ws & Hs & Hws)]; simpl.
  - by exists [].
  - destruct (isspace a) eqn:Ha.
    + exists (a :: ws). split; [simpl; congruence | by constructor].
    + by exists [].
Qed.

Lemma rstrip_prefix (s : str) :
  ∃ ws, s = rstrip s ++ ws ∧ Forall (λ c, isspace c = true) ws.
Proof.
  unfold rstrip. destruct (lstrip_suffix (reverse s)) as (ws & Hs & Hws).
  exists (reverse ws). split.
  - rewrite <- reverse_app, <- Hs. by rewrite reverse_involutive.
  - by apply Forall_reverse.
Qed.

(** [strip] removes white space at both ends and nothing else. *)
Lemma strip_decompose (s : str) :
  ∃ ws1 ws2, s = ws1 ++ strip s ++ ws2 ∧
    Forall (λ c, isspace c = true) ws1 ∧ Forall (λ c, isspace c = true) ws2.
Proof.
  destruct (lstrip_suffix s) as (ws1 & Hs1 & Hws1).
  destruct (rstrip_prefix (lstrip s)) as (ws2 & Hs2 & Hws2).
  exists ws1, ws2. split; [| done]. unfold strip.
  rewrite <- Hs2. done.
Qed.

End StringFacts.

(** ** Order of first occurrence *)

Lemma index_Some_elem_of (l : list str) x : x ∈ l → ∃ a, index l x = Some a.
Proof.
  induction l as [|y l IH]; [by intros ?%elem_of_nil |].
  intros Hx. simpl. destruct (decide (y = x)); [by eexists |].
  apply elem_of_cons in Hx as [-> | Hx]; [done |].
  destruct (IH Hx) as [a ->]. by eexists.
Qed.

Lemma index_lookup (l : list str) x i : index l x = Some i → l !! i = Some x.
Proof.
  revert i. induction l as [|y l IH]; intros i; simpl; [done |].
  destruct (decide (y = x)) as [-> | Hne]; [by intros [= <-] |].
  destruct (index l x) as [a |] eqn:Ha; simpl; [| done].
  intros [= <-]. by apply IH.
Qed.

Lemma elem_of_first_occ (l : list str) x : x ∈ first_occ l ↔ x ∈ l.
Proof.
  induction l as [|y l IH]; simpl; [done |].
  rewrite !elem_of_cons, list_elem_of_filter, IH.
  destruct (decide (x = y)); intuition congruence.
Qed.

Lemma NoDup_first_occ (l : list str) : NoDup (first_occ l).
Proof.
  induction l as [|y l IH]; simpl; [constructor |].
  constructor; [| by apply NoDup_filter].
  rewrite list_elem_of_filter. tauto.
Qed.

Lemma StronglySorted_filter_impl (R R' : relation str) (P : str → Prop)
    `{∀ x, Decision (P x)} (l : list str) :
  (∀ x y, P x → P y → x ∈ l → y ∈ l → R x y → R' x y) →
  StronglySorted R l → StronglySorted R' (filter P l).
Proof.
  intros HR Hs. induction Hs as [|x l Hs IH Hx]; [constructor |].
  rewrite filter_cons. 
  assert (StronglySorted R' (filter P l)) as IH'.
  { apply IH. intros a b ?? Ha Hb. apply HR; try done; by right. }
  destruct (decide (P x)) as [HP |]; [| done].
  constructor; [done |].
  apply Forall_forall. intros y [HPy Hy]%list_elem_of_filter.
  apply HR; try done; [by left | by right |].
  rewrite Forall_forall in Hx. by apply Hx.
Qed.

Lemma StronglySorted_lookup {A : Type} (R : relation A) (l : list A) i j x y :
  StronglySorted R l → l !! i = Some x → l !! j = Some y → i < j → R x y.
Proof.
  intros Hs. revert i j. induction Hs as [|z l Hs IH Hz]; intros i j; [done |].
  destruct i as [|i], j as [|j]; simpl; try lia.
  - intros [= ->] Hy _. rewrite Forall_forall in Hz.
    eapply Hz, list_elem_of_lookup_2, Hy.
  - intros Hx Hy Hij. apply (IH i j); [done | done | lia].
Qed.

Lemma first_occ_sorted (l : list str) : StronglySorted (first_lt l) (first_occ l).
Proof.
  induction l as [|z l IH]; simpl; [constructor |].
  constructor.
  - eapply StronglySorted_filter_impl; [| exact IH].
    intros x y Hx Hy _ _ (a & b & Ha & Hb & Hab).
    exists (S a), (S b). simpl.
    rewrite !decide_False by done. rewrite Ha, Hb. simpl. split_and!; [done | done | lia].
  - apply Forall_forall. intros y [Hy Hin]%list_elem_of_filter.
    rewrite elem_of_first_occ in Hin.
    destruct (index_Some_elem_of _ _ Hin) as [b Hb].
    exists 0, (S b). simpl. rewrite decide_True by done.
    rewrite decide_False by done. rewrite Hb. simpl. split_and!; [done | done | lia].
Qed.

(** The accumulation appends to the list the new values that pass [keep],
    in order of first occurrence. *)
Lemma foldl_add_val (keep : str → bool) (l : list str) : ∀ acc,
  foldl (add_val keep) acc l =
  acc ++ filter (λ v, keep v = true ∧ v ∉ acc) (first_occ l).
Proof.
  induction l as [|x l IH]; intros acc; simpl.
  - by rewrite app_nil_r.
  - destruct (keep x && bool_decide (x ∉ acc)) eqn:Hc.
    + assert (add_val keep acc x = acc ++ [x]) as ->
        by (unfold add_val; by rewrite Hc).
      rewrite IH.
      apply andb_true_iff in Hc as [Hk Hx%bool_decide_eq_true].
      rewrite filter_cons_True by done.
      rewrite <- app_assoc. simpl. do 2 f_equal.
      rewrite list_filter_filter. apply list_filter_iff.
      intros y. rewrite elem_of_app, list_elem_of_singleton. tauto.
    + assert (add_val keep acc x = acc) as ->
        by (unfold add_val; by rewrite Hc).
      rewrite IH.
      assert (¬ (keep x = true ∧ x ∉ acc)) as Hn.
      { intros [Hk Hx]. rewrite Hk, bool_decide_eq_true_2 in Hc; done. }
      rewrite filter_cons_False by done. f_equal.
      rewrite list_filter_filter. apply list_filter_iff.
      intros y. split; [| tauto]. intros Hy. split; [done |]. by intros ->.
Qed.

Lemma dict_fromkeys_first_occ (l : list str) : dict_fromkeys l = first_occ l.
Proof.
  unfold dict_fromkeys.
  transitivity (foldl (add_val (λ _, true)) [] l).
  - assert (∀ acc : list str,
      foldl (λ keys k, if decide (k ∈ keys) then keys else keys ++ [k]) acc l =
      foldl (add_val (λ _, true)) acc l) as Hgen; [| apply Hgen].
    induction l as [|x l IH]; intros acc; simpl; [done |].
    rewrite IH. f_equal. unfold add_val. simpl.
    destruct (decide (x ∈ acc)).
    + by rewrite bool_decide_eq_false_2 by tauto.
    + by rewrite bool_decide_eq_true_2.
  - rewrite foldl_add_val. simpl.
    induction (first_occ l) as [|y k IHk]; [done |].
    rewrite filter_cons_True; [by rewrite IHk |].
    split; [done | apply not_elem_of_nil].
Qed.

Lemma unique_pool_first_occ (pool : list str) :
  unique_pool pool = filter (λ k, truthy k = true) (first_occ pool).
Proof. unfold unique_pool. by rewrite dict_fromkeys_first_occ. Qed.

Lemma elem_of_unique_pool (pool : list str) x :
  x ∈ unique_pool pool ↔ x ≠ [] ∧ x ∈ pool.
Proof.
  rewrite unique_pool_first_occ, list_elem_of_filter, elem_of_first_occ.
  by rewrite truthy_true.
Qed.

Lemma NoDup_unique_pool (pool : list str) : NoDup (unique_pool pool).
Proof. rewrite unique_pool_first_occ. apply NoDup_filter, NoDup_first_occ. Qed.

(** ** The pool builder *)

Lemma add_unique_spec (v : str) (pool : list str) (seen : gset str) :
  (∀ x, x ∈ seen ↔ x ∈ pool) →
  (add_unique v pool seen).1 = add_val truthy pool v ∧
  (∀ x, x ∈ (add_unique v pool seen).2 ↔ x ∈ (add_unique v pool seen).1).
Proof.
  intros Hseen. unfold add_unique, add_val.
  assert (bool_decide (v ∉ seen) = bool_decide (v ∉ pool)) as ->.
  { apply bool_decide_ext. by rewrite Hseen. }
  destruct (truthy v && bool_decide (v ∉ pool)); simpl; [| done].
  split; [done |]. intros x.
  rewrite elem_of_union, elem_of_singleton, elem_of_app, list_elem_of_singleton.
  rewrite Hseen. tauto.
Qed.

Lemma build_pools_step_spec (ps : Pools) (e : entry) :
  pools_wf ps →
  pools_wf (build_pools_step ps e) ∧
  kanji_pool (build_pools_step ps e) = add_val truthy (kanji_pool ps) (kanji_of e) ∧
  kana_pool (build_pools_step ps e) = add_val truthy (kana_pool ps) (kana_of e) ∧
  meaning_pool (build_pools_step ps e) = add_val truthy (meaning_pool ps) (meaning_of e).
Proof.
  intros (Hk & Hn & Hm). destruct e as [[kanji kana] meaning].
  unfold build_pools_step, kanji_of, kana_of, meaning_of. simpl.
  destruct (add_unique_spec kanji _ _ Hk) as [Hk1 Hk2].
  destruct (add_unique_spec kana _ _ Hn) as [Hn1 Hn2].
  destruct (add_unique_spec meaning _ _ Hm) as [Hm1 Hm2].
  destruct (add_unique kanji _ _) as [kp sk].
  destruct (add_unique kana _ _) as [np sn].
  destruct (add_unique meaning _ _) as [mp sm].
  simpl in *. split_and!; done.
Qed.

Lemma build_pools_loop_spec (entries : list entry) : ∀ ps, pools_wf ps →
  kanji_pool (build_pools_loop entries ps)
    = foldl (add_val truthy) (kanji_pool ps) (kanji_of <$> entries) ∧
  kana_pool (build_pools_loop entries ps)
    = foldl (add_val truthy) (kana_pool ps) (kana_of <$> entries) ∧
  meaning_pool (build_pools_loop entries ps)
    = foldl (add_val truthy) (meaning_pool ps) (meaning_of <$> entries).
Proof.
  unfold build_pools_loop.
  induction entries as [|e entries IH]; intros ps Hwf; simpl; [done |].
  destruct (build_pools_step_spec ps e Hwf) as (Hwf' & Hk & Hn & Hm).
  destruct (IH _ Hwf') as (IHk & IHn & IHm).
  rewrite IHk, IHn, IHm, Hk, Hn, Hm. done.
Qed.

Lemma foldl_add_val_nil (l : list str) :
  foldl (add_val truthy) [] l = unique_pool l.
Proof.
  rewrite foldl_add_val, unique_pool_first_occ. simpl.
  apply list_filter_iff. intros x. split; [tauto |].
  intros ?. split; [done | apply not_elem_of_nil].
Qed.

(** The pools [build_pools] returns are the unique pools of the three
    columns of the entry list. *)
Lemma build_pools_unique_pool (entries : list entry) :
  build_pools entries =
  (unique_pool (kanji_of <$> entries), unique_pool (kana_of <$> entries),
   unique_pool (meaning_of <$> entries)).
Proof.
  unfold build_pools.
  destruct (build_pools_loop_spec entries empty_pools) as (Hk & Hn & Hm).
  { repeat split; simpl; intros Hv;
      solve [by apply not_elem_of_empty in Hv | by apply not_elem_of_nil in Hv]. }
  rewrite Hk, Hn, Hm. simpl. by rewrite !foldl_add_val_nil.
Qed.

Lemma unique_pool_of_column (col : list str) : pool_of_column (unique_pool col) col.
Proof.
  split_and!.
  - apply NoDup_unique_pool.
  - apply elem_of_unique_pool.
  - intros i j x y Hx Hy Hij.
    eapply (StronglySorted_lookup (first_lt col)); [| exact Hx | exact Hy | done].
    rewrite unique_pool_first_occ.
    eapply StronglySorted_filter_impl; [| apply first_occ_sorted]. auto.
  - apply submseteq_length, NoDup_submseteq; [apply NoDup_unique_pool |].
    intros x. rewrite elem_of_unique_pool. tauto.
Qed.

(** C6. For every entry list, each of the three pools [build_pools] returns
    holds every distinct non-empty value of its field exactly once (no
    duplicate, and a value is in the pool exactly when it is non-empty and
    the field of some entry), in order of first appearance across the
    entries; it is no longer than the entry list; and the empty entry list
    yields three empty pools.  [build_pools] only reads [entries], so the
    embedding is a function of the list, which it leaves as it is. *)
Theorem build_pools_first_appearance (entries : list entry) :
  (pool_of_column (build_pools entries).1.1 (kanji_of <$> entries) ∧
   pool_of_column (build_pools entries).1.2 (kana_of <$> entries) ∧
   pool_of_column (build_pools entries).2 (meaning_of <$> entries)) ∧
  (length (build_pools entries).1.1 ≤ length entries ∧
   length (build_pools entries).1.2 ≤ length entries ∧
   length (build_pools entries).2 ≤ length entries) ∧
  build_pools [] = ([], [], []).
Proof.
  rewrite build_pools_unique_pool. simpl.
  pose proof (unique_pool_of_column (kanji_of <$> entries)) as Hk.
  pose proof (unique_pool_of_column (kana_of <$> entries)) as Hn.
  pose proof (unique_pool_of_column (meaning_of <$> entries)) as Hm.
  split_and!; try done.
  - destruct Hk as (_ & _ & _ & Hlen). by rewrite length_fmap in Hlen.
  - destruct Hn as (_ & _ & _ & Hlen). by rewrite length_fmap in Hlen.
  - destruct Hm as (_ & _ & _ & Hlen). by rewrite length_fmap in Hlen.
Qed.

(** ** The question generator: what one attempt does *)

Section Attempt.
Context `{UnicodeData} {G : Type} `{RandomSource G}.

Lemma attempt_outcome (idx : nat) (d : QType) (p c : str) (pool : list str)
    (st : GenState) :
  ∃ o st', attempt idx d p c pool st = Ok st' ∧
    outcome_of idx d p c pool o ∧
    questions st' = questions st ++ emitted o ∧
    skipped st' = skipped st + counted o.
Proof.
  unfold attempt.
  destruct (truthy p) eqn:Hp; simpl.
  2:{ exists Silent, st. apply truthy_false in Hp. simpl.
      rewrite app_nil_r. split_and!; auto with lia. }
  destruct (truthy c) eqn:Hc; simpl.
  2:{ exists Silent, st. apply truthy_false in Hc. simpl.
      rewrite app_nil_r. split_and!; auto with lia. }
  apply truthy_true in Hp, Hc.
  unfold sample_distractors. fold (candidates pool c).
  destruct (decide (length (candidates pool c) < 3)) as [Hlt | Hge]; simpl.
  { exists Counted. eexists. split; [done |]. simpl.
    rewrite app_nil_r. split_and!; auto with lia. }
  destruct (rng_sample_some (rng_state st) (candidates pool c) 3)
    as (ds & g1 & Hs & Hlen & Hsub); [lia |].
  rewrite Hs. simpl.
  pose proof (rng_shuffle_perm g1 (ds ++ [c])) as Hperm.
  destruct (rng_shuffle g1 (ds ++ [c])) as [opts g2]. simpl in Hperm.
  assert (c ∈ opts) as Hin.
  { rewrite Hperm, elem_of_app, list_elem_of_singleton. by right. }
  destruct (index_Some_elem_of opts c Hin) as [i Hi]. rewrite Hi.
  exists (Emitted (make_question idx d p (question_text d p) c opts i)).
  eexists. split; [done |]. simpl.
  split_and!; try done; try lia. by exists ds.
Qed.

End Attempt.

(** ** The question generator: the trace of a run *)

Section Trace.
Context `{UnicodeData} {G : Type} `{RandomSource G}.

Lemma extends_app (st1 st2 st3 : @GenState G) (o1 o2 : list outcome) :
  extends st1 st2 o1 → extends st2 st3 o2 → extends st1 st3 (o1 ++ o2).
Proof.
  intros [Hq1 Hs1] [Hq2 Hs2]. split.
  - rewrite Hq2, Hq1, bind_app, app_assoc. done.
  - rewrite Hs2, Hs1, sum_list_with_app. lia.
Qed.

Lemma entry_body_trace (kp np mp : list str) (idx : nat) (e : entry)
    (st : GenState) :
  ∃ outs st', entry_body kp np mp idx e st = Ok st' ∧
    Forall2 (task_outcome kp np mp) (entry_tasks idx e) outs ∧
    extends st st' outs.
Proof.
  destruct e as [[kanji kana] meaning]. unfold entry_body.
  destruct (attempt_outcome idx KanjiToHiragana (strip kanji) (strip kana) np st)
    as (o1 & st1 & -> & Ho1 & Hq1 & Hs1); simpl.
  destruct (attempt_outcome idx KanjiToMeaning (strip kanji) (strip meaning) mp st1)
    as (o2 & st2 & -> & Ho2 & Hq2 & Hs2); simpl.
  destruct (attempt_outcome idx KanaToMeaning (strip kana) (strip meaning) mp st2)
    as (o3 & st3 & -> & Ho3 & Hq3 & Hs3); simpl.
  destruct (attempt_outcome idx KanaToKanji (strip kana) (strip kanji) kp st3)
    as (o4 & st4 & -> & Ho4 & Hq4 & Hs4); simpl.
  destruct (attempt_outcome idx MeaningToKanji (strip meaning) (strip kanji) kp st4)
    as (o5 & st5 & -> & Ho5 & Hq5 & Hs5); simpl.
  destruct (attempt_outcome idx MeaningToKana (strip meaning) (strip kana) np st5)
    as (o6 & st6 & Hrun & Ho6 & Hq6 & Hs6).
  exists [o1; o2; o3; o4; o5; o6], st6. split; [done |]. split.
  - unfold entry_tasks, directions. simpl. repeat constructor; done.
  - split.
    + rewrite Hq6, Hq5, Hq4, Hq3, Hq2, Hq1. simpl.
      rewrite app_nil_r, <- !app_assoc. done.
    + rewrite Hs6, Hs5, Hs4, Hs3, Hs2, Hs1. simpl. lia.
Qed.

Lemma gen_loop_trace (kp np mp : list str) (entries : list entry) :
  ∀ idx st, ∃ outs st', gen_loop kp np mp idx entries st = Ok st' ∧
    Forall2 (task_outcome kp np mp) (all_tasks idx entries) outs ∧
    extends st st' outs.
Proof.
  induction entries as [|e entries IH]; intros idx st; cbn [gen_loop all_tasks].
  - exists [], st. split_and!; [done | constructor |].
    split; simpl; [by rewrite app_nil_r | lia].
  - destruct (entry_body_trace kp np mp idx e st) as (o1 & st1 & -> & Ho1 & He1).
    cbn [bind]. destruct (IH (S idx) st1) as (o2 & st2 & Hrun & Ho2 & He2).
    exists (o1 ++ o2), st2. split_and!; [done | by apply Forall2_app |].
    by eapply extends_app.
Qed.

(** The run of [generate_all_questions]: it returns, and what it returns
    is read off the outcomes of the attempts, made in order. *)
Lemma generate_trace (entries : list entry) (kanji_pool kana_pool meaning_pool : list str)
    (min_options : Z) (rng : option G) (ambient : G) :
  ∃ outs qs skipped g,
    generate_all_questions entries kanji_pool kana_pool meaning_pool
      min_options rng ambient = Ok (qs, skipped, g) ∧
    Forall2 (task_outcome (unique_pool kanji_pool) (unique_pool kana_pool)
               (unique_pool meaning_pool)) (all_tasks 1 entries) outs ∧
    qs = outs ≫= emitted ∧
    skipped = sum_list_with counted outs.
Proof.
  unfold generate_all_questions.
  edestruct (gen_loop_trace (unique_pool kanji_pool) (unique_pool kana_pool)
    (unique_pool meaning_pool) entries 1) as (outs & st' & -> & Houts & Hq & Hs).
  simpl in *. exists outs. do 3 eexists. split_and!; done.
Qed.

End Trace.

(** ** The questions of a run *)

Lemma submseteq_NoDup (l k : list str) : l ⊆+ k → NoDup k → NoDup l.
Proof.
  intros [k' Hk]%submseteq_Permutation Hnd. rewrite Hk in Hnd.
  by apply NoDup_app in Hnd as (? & _ & _).
Qed.

Lemma not_elem_of_candidates (pool : list str) (c : str) : c ∉ candidates pool c.
Proof. unfold candidates. rewrite list_elem_of_filter. tauto. Qed.

Lemma filter_ne_id (l : list str) (c : str) : c ∉ l → filter (λ o, o ≠ c) l = l.
Proof.
  induction l as [|x l IH]; [done |]. intros Hc.
  apply not_elem_of_cons in Hc as [Hne Hc].
  rewrite filter_cons_True by done. by rewrite IH.
Qed.

Lemma outcome_emitted (idx : nat) (d : QType) (p c : str) (pool : list str)
    (q : Question) :
  NoDup pool → outcome_of idx d p c pool (Emitted q) →
  well_formed q ∧ length (distractors q) = 3 ∧
  distractors q ⊆+ candidates pool (correct_answer q).
Proof.
  intros Hnd (Hp & Hc & Hge & Hidx & Hd & Hpr & Htx & Hca & Hi & ds & Hlen & Hsub & Hperm).
  assert (c ∉ ds) as Hcds.
  { intros Hin. eapply not_elem_of_candidates, elem_of_submseteq; done. }
  assert (NoDup ds) as Hndds.
  { eapply submseteq_NoDup; [done |]. by apply NoDup_filter. }
  assert (distractors q ≡ₚ ds) as Hdis.
  { unfold distractors. rewrite Hca, Hperm, filter_app, filter_ne_id by done.
    rewrite filter_cons_False by tauto. by rewrite app_nil_r. }
  unfold well_formed. split_and!.
  - rewrite Hperm, length_app, Hlen. done.
  - rewrite Hperm. apply NoDup_app. split_and!; [done | | apply NoDup_singleton].
    intros x Hx ->%list_elem_of_singleton. done.
  - rewrite Hca. by apply index_lookup.
  - by rewrite Hdis.
  - by rewrite Hdis, Hca.
Qed.

Lemma trace_emitted {T : Type} (R : T → outcome → Prop) (ts : list T)
    (outs : list outcome) (q : Question) :
  Forall2 R ts outs → q ∈ outs ≫= emitted → ∃ t, t ∈ ts ∧ R t (Emitted q).
Proof.
  intros HF Hq. apply list_elem_of_bind in Hq as (o & Hq & Ho).
  destruct o as [| | q']; simpl in Hq; try by apply elem_of_nil in Hq.
  apply list_elem_of_singleton in Hq as ->.
  apply list_elem_of_lookup in Ho as [i Hi].
  destruct (Forall2_lookup_r _ _ _ _ _ HF Hi) as (t & Ht & HR).
  exists t. split; [by eapply list_elem_of_lookup_2 | done].
Qed.

Lemma elem_of_all_tasks (entries : list entry) : ∀ idx i e d,
  (i, e, d) ∈ all_tasks idx entries ↔
  ∃ n, entries !! n = Some e ∧ i = idx + n.
Proof.
  induction entries as [|e0 entries IH]; intros idx i e d; cbn [all_tasks].
  - rewrite elem_of_nil. split; [done |]. by intros (n & Hn & _).
  - rewrite elem_of_app, IH. unfold entry_tasks.
    rewrite list_elem_of_fmap. split.
    + intros [(d' & [= -> -> ->] & _) | (n & Hn & ->)].
      * exists 0. split; [done | lia].
      * exists (S n). split; [done | lia].
    + intros ([|n] & Hn & ->); simpl in Hn.
      * left. injection Hn as ->. exists d. split; [f_equal; f_equal; lia |].
        unfold directions. rewrite !elem_of_cons. destruct d; tauto.
      * right. exists n. split; [done | lia].
Qed.

Section Questions.
Context `{UnicodeData} {G : Type} `{RandomSource G}.

(** Every question of a run is the one emitted for an entry of the list,
    at its position counted from 1, and for the type it carries. *)
Lemma generated_question (entries : list entry) (kp np mp : list str)
    (outs : list outcome) (q : Question) :
  Forall2 (task_outcome kp np mp) (all_tasks 1 entries) outs →
  q ∈ outs ≫= emitted →
  ∃ n e, entries !! n = Some e ∧ entry_index q = S n ∧
    outcome_of (S n) (q_type q) (prompt_val (q_type q) e)
      (correct_val (q_type q) e) (target_pool (q_type q) kp np mp) (Emitted q).
Proof.
  intros HF Hq. destruct (trace_emitted _ _ _ _ HF Hq) as ([[i e] d] & Ht & Ho).
  apply elem_of_all_tasks in Ht as (n & Hn & ->).
  simpl in Ho. pose proof Ho as (_ & _ & _ & Hidx & Hd & _).
  exists n, e. rewrite Hd. by split_and!.
Qed.

Lemma NoDup_target_pool (d : QType) (kp np mp : list str) :
  NoDup (target_pool d (unique_pool kp) (unique_pool np) (unique_pool mp)).
Proof. destruct d; apply NoDup_unique_pool. Qed.

Lemma target_pool_unique (d : QType) (kp np mp : list str) :
  target_pool d (unique_pool kp) (unique_pool np) (unique_pool mp)
  = unique_pool (target_pool d kp np mp).
Proof. by destruct d. Qed.

End Questions.

Section QuestionInvariant.
Context `{UnicodeData} {G : Type} `{RandomSource G}.

(** What holds of every question of a run, whatever the pool arguments. *)
Lemma generate_questions_inv (entries : list entry) (kp np mp : list str)
    (min_options : Z) (rng : option G) (ambient : G) :
  ∃ qs skipped g,
    generate_all_questions entries kp np mp min_options rng ambient
      = Ok (qs, skipped, g) ∧
    Forall (λ q, well_formed q ∧ length (distractors q) = 3 ∧
              distractors q ⊆+
                candidates (unique_pool (target_pool (q_type q) kp np mp))
                  (correct_answer q)) qs.
Proof.
  destruct (generate_trace entries kp np mp min_options rng ambient)
    as (outs & qs & sk & g & Hrun & HF & -> & ->).
  exists (outs ≫= emitted), (sum_list_with counted outs), g.
  split; [done |]. apply Forall_forall. intros q Hq.
  destruct (generated_question _ _ _ _ _ _ HF Hq) as (n & e & _ & _ & Ho).
  apply outcome_emitted in Ho; [| apply NoDup_target_pool].
  by rewrite target_pool_unique in Ho.
Qed.

(** C1. For every entry list, with the pools [build_pools] makes of it,
    whatever [min_options] and the random source: [generate_all_questions]
    returns, and every question it returns has exactly four options, no two
    of them equal, with [options[correct_index] == correct_answer]. *)
Theorem generated_questions_well_formed (entries : list entry)
    (min_options : Z) (rng : option G) (ambient : G) :
  ∃ qs skipped g,
    generate_all_questions entries (build_pools entries).1.1
      (build_pools entries).1.2 (build_pools entries).2
      min_options rng ambient = Ok (qs, skipped, g) ∧
    Forall (λ q, length (options q) = 4 ∧ NoDup (options q) ∧
              options q !! correct_index q = Some (correct_answer q)) qs.
Proof.
  destruct (generate_questions_inv entries (build_pools entries).1.1
    (build_pools entries).1.2 (build_pools entries).2 min_options rng ambient)
    as (qs & sk & g & Hrun & Hall).
  exists qs, sk, g. split; [done |].
  eapply Forall_impl; [exact Hall |]. by intros q [Hwf _].
Qed.

End QuestionInvariant.

(** ** The order of the questions of a run *)

Lemma StronglySorted_sublist {A : Type} (R : relation A) (l1 l2 : list A) :
  l1 `sublist_of` l2 → StronglySorted R l2 → StronglySorted R l1.
Proof.
  induction 1 as [|x l1 l2 Hsub IH|x l1 l2 Hsub IH]; intros Hs; [done | |].
  - apply StronglySorted_cons in Hs as [Hx Hs].
    constructor; [by apply IH |].
    rewrite Forall_forall in *. intros y Hy. apply Hx.
    eapply sublist_submseteq, elem_of_submseteq in Hsub; done.
  - apply StronglySorted_cons in Hs as [_ Hs]. by apply IH.
Qed.

Lemma StronglySorted_NoDup {A : Type} (R : relation A) (l : list A) :
  (∀ x, ¬ R x x) → StronglySorted R l → NoDup l.
Proof.
  intros Hirr. induction 1 as [|x l Hs IH Hx]; constructor; [| done].
  intros Hin. rewrite Forall_forall in Hx. by apply (Hirr x), Hx.
Qed.

Lemma key_lt_irrefl (a : nat * nat) : ¬ key_lt a a.
Proof. unfold key_lt. lia. Qed.

Lemma entry_tasks_keys (idx : nat) (e : entry) :
  task_key <$> entry_tasks idx e = (λ n, (idx, n)) <$> seq 0 6.
Proof. reflexivity. Qed.

Lemma all_tasks_keys_sorted (entries : list entry) : ∀ idx,
  StronglySorted key_lt (task_key <$> all_tasks idx entries) ∧
  Forall (λ k, idx ≤ k.1) (task_key <$> all_tasks idx entries).
Proof.
  induction entries as [|e entries IH]; intros idx; cbn [all_tasks].
  - split; constructor.
  - destruct (IH (S idx)) as [IHs IHf]. rewrite fmap_app, entry_tasks_keys.
    split.
    + apply StronglySorted_app_2; [| | done].
      * intros k1 k2 Hk1 Hk2. rewrite Forall_forall in IHf.
        apply IHf in Hk2. apply list_elem_of_fmap in Hk1 as (n & -> & _).
        left. simpl. lia.
      * simpl.
        repeat (apply SSorted_cons;
                [| repeat (apply List.Forall_cons; [right; simpl; lia |]);
                   apply List.Forall_nil]).
        apply SSorted_nil.
    + apply Forall_app. split.
      * simpl. repeat (apply List.Forall_cons; [simpl; lia |]).
        apply List.Forall_nil.
      * eapply Forall_impl; [exact IHf |]. simpl. intros; lia.
Qed.

Section Order.
Context `{UnicodeData}.

(** The questions of a run carry the keys of the attempts that emitted
    them, in the order of the attempts. *)
Lemma question_keys_sublist (kp np mp : list str) (ts : list task)
    (outs : list outcome) :
  Forall2 (task_outcome kp np mp) ts outs →
  question_key <$> (outs ≫= emitted) `sublist_of` task_key <$> ts.
Proof.
  induction 1 as [|t o ts outs Ho HF IH]; [constructor |].
  rewrite bind_cons, fmap_app, fmap_cons.
  destruct o as [| | q]; simpl; try by constructor.
  destruct t as [[idx e] d]. simpl in Ho.
  destruct Ho as (_ & _ & _ & Hidx & Hd & _).
  unfold question_key, task_key. simpl. rewrite Hidx, Hd. by constructor.
Qed.

Lemma question_keys_sorted (kp np mp : list str) (entries : list entry)
    (outs : list outcome) :
  Forall2 (task_outcome kp np mp) (all_tasks 1 entries) outs →
  StronglySorted key_lt (question_key <$> (outs ≫= emitted)).
Proof.
  intros HF. eapply StronglySorted_sublist.
  - by eapply question_keys_sublist.
  - apply all_tasks_keys_sorted.
Qed.

End Order.

Section OrderTheorem.
Context `{UnicodeData} {G : Type} `{RandomSource G}.

(** C7. The six question types are attempted in the order kanji to kana,
    kanji to meaning, kana to meaning, kana to kanji, meaning to kanji,
    meaning to kana ([rank] numbers them so).  In the sequence
    [generate_all_questions] returns, a question that comes before another
    belongs to an earlier entry, or to the same entry and a type earlier in
    that order; and [entry_index] is the position, counted from 1, of the
    entry the question was made from. *)
Theorem questions_in_entry_and_type_order (entries : list entry)
    (kanji_pool kana_pool meaning_pool : list str) (min_options : Z)
    (rng : option G) (ambient : G) :
  (λ d, (rank d, source d, target d)) <$> directions =
    [(0, Kanji, Kana); (1, Kanji, Meaning); (2, Kana, Meaning);
     (3, Kana, Kanji); (4, Meaning, Kanji); (5, Meaning, Kana)] ∧
  ∃ qs skipped g,
    generate_all_questions entries kanji_pool kana_pool meaning_pool
      min_options rng ambient = Ok (qs, skipped, g) ∧
    (∀ i j q1 q2, qs !! i = Some q1 → qs !! j = Some q2 → i < j →
       entry_index q1 < entry_index q2 ∨
       (entry_index q1 = entry_index q2 ∧ rank (q_type q1) < rank (q_type q2))) ∧
    Forall (λ q, ∃ n e, entry_index q = S n ∧ entries !! n = Some e ∧
              prompt q = strip (field_of (source (q_type q)) e) ∧
              correct_answer q = strip (field_of (target (q_type q)) e)) qs.
Proof.
  split; [reflexivity |].
  destruct (generate_trace entries kanji_pool kana_pool meaning_pool
    min_options rng ambient) as (outs & qs & sk & g & Hrun & HF & -> & ->).
  exists (outs ≫= emitted), (sum_list_with counted outs), g.
  split_and!; [done | |].
  - intros i j q1 q2 Hq1 Hq2 Hij.
    pose proof (question_keys_sorted _ _ _ _ _ HF) as Hs.
    apply (StronglySorted_lookup key_lt _ i j (question_key q1) (question_key q2) Hs);
      [| | done]; rewrite list_lookup_fmap; [by rewrite Hq1 | by rewrite Hq2].
  - apply Forall_forall. intros q Hq.
    destruct (generated_question _ _ _ _ _ _ HF Hq) as (n & e & Hn & Hidx & Ho).
    destruct Ho as (_ & _ & _ & _ & _ & Hp & _ & Hc & _).
    by exists n, e.
Qed.

End OrderTheorem.

(** ** Which attempts emit and which are counted *)

Lemma rank_inj (d1 d2 : QType) : rank d1 = rank d2 → d1 = d2.
Proof. destruct d1, d2; simpl; intros; congruence. Qed.

Lemma filter_none {A : Type} (P : A → Prop) `{∀ x, Decision (P x)} (l : list A) :
  (∀ z, z ∈ l → ¬ P z) → filter P l = [].
Proof.
  induction l as [|y l IH]; [done |]. intros Hn.
  rewrite filter_cons_False; [| apply Hn; by left].
  apply IH. intros z Hz. apply Hn. by right.
Qed.

Lemma filter_unique_key {A K : Type} `{EqDecision K} (f : A → K) (l : list A)
    (x : A) :
  NoDup (f <$> l) → x ∈ l → filter (λ y, f y = f x) l = [x].
Proof.
  induction l as [|y l IH]; [by intros _ ?%elem_of_nil |].
  rewrite fmap_cons, NoDup_cons. intros [Hy Hnd] Hx.
  assert (Hnone : ∀ z, z ∈ l → f z ≠ f y).
  { intros z Hz Heq. apply Hy. rewrite <- Heq. by apply list_elem_of_fmap_2. }
  apply elem_of_cons in Hx as [-> | Hx].
  - rewrite filter_cons_True by done. f_equal. by apply filter_none.
  - rewrite filter_cons_False; [by apply IH |].
    intros Heq. by apply (Hnone x).
Qed.

Section Counting.
Context `{UnicodeData}.

Lemma task_outcome_class (kp np mp : list str) (idx : nat) (e : entry)
    (d : QType) (o : outcome) :
  task_outcome (unique_pool kp) (unique_pool np) (unique_pool mp) (idx, e, d) o →
  (emitting_dir kp np mp e d ↔ ∃ q, o = Emitted q) ∧
  (counted_dir kp np mp e d ↔ o = Counted).
Proof.
  unfold task_outcome, emitting_dir, counted_dir, enough, prompt_val, correct_val.
  rewrite target_pool_unique.
  destruct o as [| | q]; simpl.
  - intros [Hp | Hc]; split; split; try done;
      try (intros (? & ? & _); done); by intros [? ?].
  - intros (Hp & Hc & Hlt). split; split; try done.
    + intros (_ & _ & Hge). lia.
    + by intros [? ?].
    + intros _. split_and!; [done | done | lia].
  - intros (Hp & Hc & Hge & _). split; split; try done.
    + by exists q.
    + intros (_ & _ & Hlt). lia.
Qed.

Lemma directions_skips (kp np mp : list str) (idx : nat) (e : entry)
    (ds : list QType) (outs : list outcome) :
  Forall2 (task_outcome (unique_pool kp) (unique_pool np) (unique_pool mp))
    ((λ d, (idx, e, d)) <$> ds) outs →
  sum_list_with counted outs = length (filter (counted_dir kp np mp e) ds).
Proof.
  revert outs. induction ds as [|d ds IH]; intros outs HF.
  - by apply Forall2_nil_inv_l in HF as ->.
  - rewrite fmap_cons in HF.
    apply Forall2_cons_inv_l in HF as (o & outs' & Ho & HF & ->).
    apply task_outcome_class in Ho as [_ Hc]. simpl. rewrite (IH _ HF).
    rewrite filter_cons. destruct (decide (counted_dir kp np mp e d)) as [Hd | Hd].
    + apply Hc in Hd as ->. done.
    + destruct o; simpl; try done. by destruct Hd; apply Hc.
Qed.

Lemma all_tasks_skips (kp np mp : list str) (entries : list entry) :
  ∀ idx outs,
  Forall2 (task_outcome (unique_pool kp) (unique_pool np) (unique_pool mp))
    (all_tasks idx entries) outs →
  sum_list_with counted outs = sum_list_with (entry_skips kp np mp) entries.
Proof.
  induction entries as [|e entries IH]; intros idx outs HF; cbn [all_tasks] in HF.
  - by apply Forall2_nil_inv_l in HF as ->.
  - apply Forall2_app_inv_l in HF as (o1 & o2 & H1 & H2 & ->).
    rewrite sum_list_with_app. simpl.
    rewrite (IH _ _ H2). unfold entry_skips.
    by rewrite (directions_skips _ _ _ _ _ _ _ H1).
Qed.

(** The questions a run returns for the entry at position [S n] and the
    type [d]: exactly one when the type yields a question for the entry,
    none otherwise. *)
Lemma direction_questions (kp np mp : list str) (entries : list entry)
    (outs : list outcome) (n : nat) (e : entry) (d : QType) :
  Forall2 (task_outcome (unique_pool kp) (unique_pool np) (unique_pool mp))
    (all_tasks 1 entries) outs →
  entries !! n = Some e →
  if decide (emitting_dir kp np mp e d)
  then ∃ q, filter (λ q, entry_index q = S n ∧ q_type q = d) (outs ≫= emitted) = [q] ∧
            prompt q = strip (source_field d e) ∧
            correct_answer q = strip (target_field d e)
  else filter (λ q, entry_index q = S n ∧ q_type q = d) (outs ≫= emitted) = [].
Proof.
  intros HF Hn. destruct (decide (emitting_dir kp np mp e d)) as [Hem | Hem].
  - assert ((S n, e, d) ∈ all_tasks 1 entries) as Ht.
    { apply elem_of_all_tasks. by exists n. }
    apply list_elem_of_lookup in Ht as [i Hi].
    destruct (Forall2_lookup_l _ _ _ _ _ HF Hi) as (o & Ho & Hout).
    pose proof (task_outcome_class _ _ _ _ _ _ _ Hout) as [Hcls _].
    apply Hcls in Hem as [q ->].
    simpl in Hout. destruct Hout as (_ & _ & _ & Hidx & Hd & Hp & _ & Hc & _).
    exists q. split_and!; [| done | done].
    assert (q ∈ outs ≫= emitted) as Hq.
    { apply list_elem_of_bind. exists (Emitted q).
      split; [by left | by eapply list_elem_of_lookup_2]. }
    rewrite <- (filter_unique_key question_key (outs ≫= emitted) q); [| | done].
    + apply list_filter_iff. intros y. unfold question_key.
      rewrite Hidx, Hd. split; [by intros [-> ->] |].
      intros [= -> ->%rank_inj]. done.
    + eapply StronglySorted_NoDup; [apply key_lt_irrefl |].
      by eapply question_keys_sorted.
  - apply filter_none. intros q Hq [Hidx Hd].
    destruct (generated_question _ _ _ _ _ _ HF Hq) as (n' & e' & Hn' & Hidx' & Ho).
    assert (n' = n) as -> by lia.
    assert (e' = e) as -> by congruence.
    rewrite Hd in Ho. apply Hem.
    apply (task_outcome_class kp np mp (S n) e d (Emitted q)); [done |].
    by exists q.
Qed.

End Counting.

Section SkipsAndEmissions.
Context `{UnicodeData} {G : Type} `{RandomSource G}.

Lemma three_candidates (pool : list str) (correct a b c : str) :
  NoDup [a; b; c] →
  (∀ x, x ∈ [a; b; c] → x ∈ pool ∧ x ≠ [] ∧ x ≠ correct) →
  3 ≤ length (candidates (unique_pool pool) correct).
Proof.
  intros Hnd Hin.
  change 3 with (length [a; b; c]). apply submseteq_length.
  apply NoDup_submseteq; [done |]. intros x Hx.
  destruct (Hin x Hx) as (Hp & Hne & Hc).
  unfold candidates. rewrite list_elem_of_filter, elem_of_unique_pool. done.
Qed.

(** C2, as amended.  For every entry and every one of the six question
    types: if the source and the target field of the entry are both
    non-empty after trimming, and the pool argument of the target field
    holds at least three distinct non-empty values other than the trimmed
    target value, then [generate_all_questions] returns exactly one question
    of that type for that entry, with the trimmed source value as prompt and
    the trimmed target value as correct answer. *)
Theorem question_emitted_when_enough_distractors (entries : list entry)
    (kanji_pool kana_pool meaning_pool : list str) (min_options : Z)
    (rng : option G) (ambient : G) (n : nat) (e : entry) (d : QType)
    (a b c : str) :
  entries !! n = Some e →
  strip (source_field d e) ≠ [] →
  strip (target_field d e) ≠ [] →
  NoDup [a; b; c] →
  (∀ x, x ∈ [a; b; c] →
     x ∈ target_pool d kanji_pool kana_pool meaning_pool ∧ x ≠ [] ∧
     x ≠ strip (target_field d e)) →
  ∃ qs skipped g q,
    generate_all_questions entries kanji_pool kana_pool meaning_pool
      min_options rng ambient = Ok (qs, skipped, g) ∧
    filter (λ q, entry_index q = S n ∧ q_type q = d) qs = [q] ∧
    prompt q = strip (source_field d e) ∧
    correct_answer q = strip (target_field d e).
Proof.
  intros Hn Hsrc Htgt Hnd Hin.
  destruct (generate_trace entries kanji_pool kana_pool meaning_pool
    min_options rng ambient) as (outs & qs & sk & g & Hrun & HF & -> & ->).
  pose proof (direction_questions _ _ _ _ _ n e d HF Hn) as Hd.
  rewrite decide_True in Hd.
  - destruct Hd as (q & Hq & Hp & Hc).
    by exists (outs ≫= emitted), (sum_list_with counted outs), g, q.
  - split_and!; [done | done |]. by eapply three_candidates.
Qed.

(** C3, as amended.  One block of the loop, given the trimmed values of
    its two fields: when one of them is empty it leaves the questions, the
    skipped count and the random source as they are; when both are
    non-empty and the pool holds fewer than three values other than the
    correct one, it adds exactly one to the skipped count and no question.
    [generate_all_questions] never raises.  The skipped count it returns is
    the number of pairs of an entry and a question type whose source and
    target values are both non-empty after trimming and whose unique target
    pool holds fewer than three values other than the target value: each
    such pair adds exactly one, and no other pair adds anything.  A pair that does not yield a question (a value empty after
    trimming, or too few candidates) has no question in the result.  An
    entry whose three fields are empty after trimming adds nothing to the
    skipped count and has no question. *)
Theorem skipped_counts_insufficient_distractors_only (entries : list entry)
    (kanji_pool kana_pool meaning_pool : list str) (min_options : Z)
    (rng : option G) (ambient : G) :
  (∀ idx d p c pool (st : @GenState G),
     p = [] ∨ c = [] → attempt idx d p c pool st = Ok st) ∧
  (∀ idx d p c pool (st : @GenState G),
     p ≠ [] → c ≠ [] → length (candidates pool c) < 3 →
     attempt idx d p c pool st =
     Ok {| questions := questions st; skipped := S (skipped st);
           rng_state := rng_state st |}) ∧
  ∃ qs skipped g,
    generate_all_questions entries kanji_pool kana_pool meaning_pool
      min_options rng ambient = Ok (qs, skipped, g) ∧
    skipped =
      sum_list_with (entry_skips kanji_pool kana_pool meaning_pool) entries ∧
    (∀ n e d, entries !! n = Some e →
       strip (source_field d e) = [] ∨ strip (target_field d e) = [] ∨
       counted_dir kanji_pool kana_pool meaning_pool e d →
       filter (λ q, entry_index q = S n ∧ q_type q = d) qs = []) ∧
    (∀ e d, strip (source_field d e) = [] ∨ strip (target_field d e) = [] →
       ¬ counted_dir kanji_pool kana_pool meaning_pool e d) ∧
    (∀ n e, entries !! n = Some e →
       (∀ f, strip (field_of f e) = []) →
       entry_skips kanji_pool kana_pool meaning_pool e = 0 ∧
       filter (λ q, entry_index q = S n) qs = []).
Proof.
  split; [| split].
  { intros idx d p c pool st [-> | ->]; unfold attempt; simpl; [done |].
    by rewrite andb_false_r. }
  { intros idx d p c pool st Hp%truthy_true Hc%truthy_true Hlt.
    unfold attempt, sample_distractors. rewrite Hp, Hc. simpl.
    fold (candidates pool c). by rewrite decide_True. }
  destruct (generate_trace entries kanji_pool kana_pool meaning_pool
    min_options rng ambient) as (outs & qs & sk & g & Hrun & HF & -> & ->).
  exists (outs ≫= emitted), (sum_list_with counted outs), g.
  split_and!; [done | by eapply all_tasks_skips | | |].
  - intros n e d Hn Hcase.
    pose proof (direction_questions _ _ _ _ _ n e d HF Hn) as Hd.
    rewrite decide_False in Hd; [done |].
    intros (Hs & Ht & Hen).
    destruct Hcase as [Hs' | [Ht' | (_ & _ & Hnot)]]; done.
  - intros e d Hcase (Hs & Ht & _). by destruct Hcase.
  - intros n e Hn Hempty. split.
    + unfold entry_skips. rewrite filter_none; [done |].
      intros d _ (Hs & _). apply Hs, Hempty.
    + apply filter_none. intros q Hq Hidx.
      destruct (generated_question _ _ _ _ _ _ HF Hq)
        as (n' & e' & Hn' & Hidx' & Ho).
      assert (n' = n) as -> by lia.
      assert (e' = e) as -> by congruence.
      destruct Ho as (Hp & _). apply Hp, Hempty.
Qed.

(** C9. For arbitrary pool arguments, duplicates and empty strings
    included, [generate_all_questions] samples from the unique pool of each
    argument: the argument without empty strings and without duplicates, in
    order of first occurrence.  A type whose prompt and correct value are
    non-empty for an entry yields exactly one question for it when the
    unique pool of the target field holds at least three values other than
    the correct value, and none otherwise, however long the pool argument
    is; the skipped count is the number of those that yield none.  The
    distractors of every question are three values of that unique pool other
    than the correct answer, so they are pairwise distinct and non-empty
    (and distinct from the correct answer, the options being pairwise
    distinct). *)
Theorem arbitrary_pools_distinct_distractors (entries : list entry)
    (kanji_pool kana_pool meaning_pool : list str) (min_options : Z)
    (rng : option G) (ambient : G) :
  (pool_of_column (unique_pool kanji_pool) kanji_pool ∧
   pool_of_column (unique_pool kana_pool) kana_pool ∧
   pool_of_column (unique_pool meaning_pool) meaning_pool) ∧
  ∃ qs skipped g,
    generate_all_questions entries kanji_pool kana_pool meaning_pool
      min_options rng ambient = Ok (qs, skipped, g) ∧
    Forall (λ q,
      distractors q ⊆+
        candidates
          (unique_pool (target_pool (q_type q) kanji_pool kana_pool meaning_pool))
          (correct_answer q) ∧
      length (distractors q) = 3 ∧
      NoDup (distractors q) ∧
      Forall (λ x, x ≠ []) (distractors q) ∧
      NoDup (options q)) qs ∧
    (∀ n e d, entries !! n = Some e →
       strip (source_field d e) ≠ [] → strip (target_field d e) ≠ [] →
       if decide (3 ≤ length
                    (candidates
                       (unique_pool
                          (target_pool d kanji_pool kana_pool meaning_pool))
                       (strip (target_field d e))))
       then ∃ q,
         filter (λ q, entry_index q = S n ∧ q_type q = d) qs = [q] ∧
         prompt q = strip (source_field d e) ∧
         correct_answer q = strip (target_field d e)
       else filter (λ q, entry_index q = S n ∧ q_type q = d) qs = []) ∧
    skipped =
      sum_list_with (entry_skips kanji_pool kana_pool meaning_pool) entries.
Proof.
  split; [split_and!; apply unique_pool_of_column |].
  destruct (generate_trace entries kanji_pool kana_pool meaning_pool
    min_options rng ambient) as (outs & qs & sk & g & Hrun & HF & -> & ->).
  exists (outs ≫= emitted), (sum_list_with counted outs), g.
  split_and!; [done | | | by eapply all_tasks_skips].
  - apply Forall_forall. intros q Hq.
    destruct (generated_question _ _ _ _ _ _ HF Hq) as (n & e & _ & _ & Ho).
    apply outcome_emitted in Ho; [| apply NoDup_target_pool].
    rewrite target_pool_unique in Ho.
    destruct Ho as ((_ & Hnd & _) & Hlen & Hsub). split_and!; try done.
    + eapply submseteq_NoDup; [exact Hsub |].
      apply NoDup_filter, NoDup_unique_pool.
    + apply Forall_forall. intros x Hx.
      eapply elem_of_submseteq in Hx; [| exact Hsub].
      apply list_elem_of_filter in Hx as [_ Hx].
      by apply elem_of_unique_pool in Hx as [Hne _].
  - intros n e d Hn Hs Ht.
    pose proof (direction_questions kanji_pool kana_pool meaning_pool
                  entries outs n e d HF Hn) as Hdq.
    destruct (decide (emitting_dir _ _ _ e d)) as [Hem | Hem].
    + rewrite decide_True; [done |]. by destruct Hem as (_ & _ & ?).
    + rewrite decide_False; [done |]. intros Hge. apply Hem.
      by split_and!.
Qed.

End SkipsAndEmissions.

(** ** Determinism *)

Section Determinism.
Context `{UnicodeData} {G1 G2 : Type} `{RandomSource G1} `{RandomSource G2}.
Variable R : G1 → G2 → Prop.
Hypothesis Hsame : same_draws R.

Lemma attempt_same (idx : nat) (d : QType) (p c : str) (pool : list str)
    (s1 : @GenState G1) (s2 : @GenState G2) :
  same_state R s1 s2 →
  same_result R (attempt idx d p c pool s1) (attempt idx d p c pool s2).
Proof.
  intros (Hq & Hs & Hr). destruct Hsame as [Hsample Hshuffle].
  unfold attempt. destruct (truthy p && truthy c); [| by split_and!].
  unfold sample_distractors.
  destruct (decide (length (filter (λ p0, p0 ≠ c) pool) < 3)); simpl.
  { split_and!; simpl; congruence. }
  specialize (Hsample _ _ (filter (λ p0, p0 ≠ c) pool) 3 Hr).
  destruct (rng_sample (rng_state s1) _ 3) as [[r1 g1'] |],
           (rng_sample (rng_state s2) _ 3) as [[r2 g2'] |]; simpl; try done.
  destruct Hsample as [-> Hr'].
  specialize (Hshuffle _ _ (r2 ++ [c]) Hr').
  destruct (rng_shuffle g1' (r2 ++ [c])) as [o1 g1''],
           (rng_shuffle g2' (r2 ++ [c])) as [o2 g2''].
  simpl in Hshuffle. destruct Hshuffle as [-> Hr''].
  destruct (index o2 c); simpl; [| done].
  split_and!; simpl; congruence.
Qed.

Lemma bind_same (r1 : result (@GenState G1)) (r2 : result (@GenState G2))
    (k1 : @GenState G1 → result (@GenState G1))
    (k2 : @GenState G2 → result (@GenState G2)) :
  same_result R r1 r2 →
  (∀ s1 s2, same_state R s1 s2 → same_result R (k1 s1) (k2 s2)) →
  same_result R (bind r1 k1) (bind r2 k2).
Proof. destruct r1, r2; simpl; intros Hr Hk; try done. by apply Hk. Qed.

Lemma entry_body_same (kp np mp : list str) (idx : nat) (e : entry)
    (s1 : @GenState G1) (s2 : @GenState G2) :
  same_state R s1 s2 →
  same_result R (entry_body kp np mp idx e s1) (entry_body kp np mp idx e s2).
Proof.
  intros Hs. destruct e as [[kanji kana] meaning]. unfold entry_body.
  repeat (apply bind_same; [| intros ???]); by apply attempt_same.
Qed.

Lemma gen_loop_same (kp np mp : list str) (entries : list entry) :
  ∀ idx (s1 : @GenState G1) (s2 : @GenState G2),
  same_state R s1 s2 →
  same_result R (gen_loop kp np mp idx entries s1) (gen_loop kp np mp idx entries s2).
Proof.
  induction entries as [|e entries IH]; intros idx s1 s2 Hs; simpl; [done |].
  apply bind_same; [by apply entry_body_same |].
  intros s1' s2' Hs'. by apply IH.
Qed.

Lemma run_same (kp np mp : list str) (entries : list entry) (g1 : G1) (g2 : G2) :
  R g1 g2 →
  ∃ s1 s2,
    gen_loop kp np mp 1 entries {| questions := []; skipped := 0; rng_state := g1 |}
      = Ok s1 ∧
    gen_loop kp np mp 1 entries {| questions := []; skipped := 0; rng_state := g2 |}
      = Ok s2 ∧
    same_state R s1 s2.
Proof.
  intros HR.
  pose proof (gen_loop_same kp np mp entries 1
    {| questions := []; skipped := 0; rng_state := g1 |}
    {| questions := []; skipped := 0; rng_state := g2 |}) as Hsim.
  destruct (gen_loop_trace kp np mp entries 1
    {| questions := []; skipped := 0; rng_state := g1 |}) as (? & s1 & E1 & _).
  destruct (gen_loop_trace kp np mp entries 1
    {| questions := []; skipped := 0; rng_state := g2 |}) as (? & s2 & E2 & _).
  rewrite E1, E2 in Hsim. exists s1, s2. split_and!; [done | done |].
  apply Hsim. by split_and!.
Qed.

(** C5. Two runs of [generate_all_questions] on the same entries and the
    same pools, each with a random source and the two sources the same
    (they answer every [sample] and every [shuffle] alike, as two
    generators seeded alike do), return the same sequence of questions and
    the same skipped count, and leave the sources the same.  The two runs
    need not even be given the same [min_options]. *)
Theorem generation_deterministic (entries : list entry)
    (kanji_pool kana_pool meaning_pool : list str) (min_options1 min_options2 : Z)
    (rng1 : option G1) (ambient1 : G1) (rng2 : option G2) (ambient2 : G2) :
  R (default ambient1 rng1) (default ambient2 rng2) →
  ∃ qs skipped g1 g2,
    generate_all_questions entries kanji_pool kana_pool meaning_pool
      min_options1 rng1 ambient1 = Ok (qs, skipped, g1) ∧
    generate_all_questions entries kanji_pool kana_pool meaning_pool
      min_options2 rng2 ambient2 = Ok (qs, skipped, g2) ∧
    R g1 g2.
Proof.
  intros HR. unfold generate_all_questions.
  destruct (run_same (unique_pool kanji_pool) (unique_pool kana_pool)
    (unique_pool meaning_pool) entries _ _ HR)
    as (s1 & s2 & E1 & E2 & Hq & Hs & Hg).
  exists (questions s1), (skipped s1), (rng_state s1), (rng_state s2).
  destruct rng1, rng2; simpl in *; rewrite E1, E2; simpl;
    by rewrite Hq, Hs.
Qed.

End Determinism.

(** A random source is the same as itself. *)
Lemma same_draws_eq {G : Type} `{RandomSource G} : same_draws (@eq G).
Proof.
  split.
  - intros g1 g2 l k <-. by destruct (rng_sample g1 l k) as [[r g'] |].
  - by intros g1 g2 l <-.
Qed.

(** ** The level header *)

Section LevelFacts.
Context `{UnicodeData}.

Lemma level_map_Some (key : str) (id : nat) :
  level_map !! key = Some id ↔
  ∃ tok, (tok, id) ∈ level_tokens ∧ key = str_of tok.
Proof.
  unfold level_map. rewrite <- elem_of_list_to_map.
  - unfold level_tokens. rewrite !elem_of_cons, elem_of_nil. split.
    + intros [Hk | [Hk | [Hk | [Hk | [Hk | []]]]]]; injection Hk as -> ->;
        eexists; rewrite !elem_of_cons; split; eauto 10.
    + intros (tok & Htok & ->). rewrite !elem_of_cons, elem_of_nil in Htok.
      destruct Htok as [Hk | [Hk | [Hk | [Hk | [Hk | []]]]]];
        injection Hk as -> ->; simpl; tauto.
  - apply (bool_decide_unpack _). vm_compute. exact I.
Qed.

Lemma level_map_None (key : str) :
  level_map !! key = None ↔
  ∀ tok id, (tok, id) ∈ level_tokens → key ≠ str_of tok.
Proof.
  split.
  - intros Hnone tok id Htok ->.
    assert (level_map !! str_of tok = Some id) as Hs.
    { apply level_map_Some. by exists tok. }
    congruence.
  - intros Hno. destruct (level_map !! key) as [id |] eqn:Hk; [| done].
    apply level_map_Some in Hk as (tok & Htok & ->). by destruct (Hno tok id).
Qed.

Lemma read_level_lines_blank (pre rest : list str) :
  Forall blank pre → read_level_lines (pre ++ rest) = read_level_lines rest.
Proof.
  induction 1 as [|l pre Hl Hpre IH]; [done |]. simpl.
  unfold blank in Hl. rewrite Hl.
  assert (lower [] = []) as -> by by apply lower_nil.
  simpl. exact IH.
Qed.

(** C8. [read_level_from_txt] looks at the first line of the file that is
    not empty after trimming.  When that line, trimmed and lowered, is one
    of the five tokens n5, n4, n3, n2, n1, the result is its id under n5 to
    1, n4 to 2, n3 to 3, n2 to 4, n1 to 5.  When it is none of them, and
    when the file has no such line, [ValueError] is raised. *)
Theorem read_level_first_line (content : str) :
  (∀ pre line post, readlines content = pre ++ line :: post →
     Forall blank pre → ¬ blank line →
     (∀ tok id, (tok, id) ∈ level_tokens →
        lower (strip line) = str_of tok →
        read_level_from_txt (Some content) = Ok id) ∧
     ((∀ tok id, (tok, id) ∈ level_tokens →
         lower (strip line) ≠ str_of tok) →
      read_level_from_txt (Some content) = Raise ValueError)) ∧
  (Forall blank (readlines content) →
     read_level_from_txt (Some content) = Raise ValueError).
Proof.
  unfold read_level_from_txt. split.
  - intros pre line post -> Hpre Hline.
    rewrite read_level_lines_blank by done. simpl.
    assert (truthy (lower (strip line)) = true) as ->.
    { apply truthy_true. rewrite lower_nil. exact Hline. }
    simpl. split.
    + intros tok id Htok Hlow.
      assert (level_map !! lower (strip line) = Some id) as ->; [| done].
      apply level_map_Some. by exists tok.
    + intros Hno.
      assert (level_map !! lower (strip line) = None) as ->; [| done].
      by apply level_map_None.
  - intros Hall. rewrite <- (app_nil_r (readlines content)).
    by rewrite read_level_lines_blank.
Qed.

End LevelFacts.

(** ** The parser of the fixed numbered file *)

Lemma readlines_newline (content : str) (line : str) :
  line ∈ readlines content →
  ∃ body, (newline ∉ body) ∧ (line = body ∨ line = body ++ [newline]).
Proof.
  revert line. induction content as [|c t IH]; intros line; simpl.
  - by intros ?%elem_of_nil.
  - destruct (decide (c = newline)) as [-> | Hc].
    + intros [-> | Hin]%elem_of_cons; [| by apply IH].
      exists []. split; [apply not_elem_of_nil | by right].
    + destruct (readlines t) as [|l ls] eqn:Hls.
      * intros ->%list_elem_of_singleton. exists [c].
        split; [| by left]. intros Hin%list_elem_of_singleton. congruence.
      * intros [-> | Hin]%elem_of_cons.
        -- destruct (IH l) as (body & Hb & Hl); [by left |].
           exists (c :: body). split.
           ++ intros [Heq | ?]%elem_of_cons; [congruence | done].
           ++ destruct Hl as [-> | ->]; [by left | by right].
        -- apply IH. by right.
Qed.

Lemma split_no_sep (sep : char) (n : nat) (s : str) :
  sep ∉ s → split sep n s = [s].
Proof.
  induction s as [|c s IH]; [done |]. intros Hs.
  apply not_elem_of_cons in Hs as [Hne Hs]. simpl.
  rewrite decide_False by done. by rewrite IH.
Qed.

Lemma split_zero (sep : char) (s : str) : split sep 0 s = [s].
Proof.
  induction s as [|c s IH]; [done |]. simpl.
  destruct (decide (c = sep)); [done |]. by rewrite IH.
Qed.

Lemma split_at_sep (sep : char) (n : nat) (a b : str) :
  sep ∉ a → split sep (S n) (a ++ sep :: b) = a :: split sep n b.
Proof.
  induction a as [|c a IH]; intros Ha; simpl.
  - by rewrite decide_True.
  - apply not_elem_of_cons in Ha as [Hne Ha].
    rewrite decide_False by done. by rewrite IH.
Qed.

Lemma span_all (p : char → bool) (a : str) (c : char) (b : str) :
  Forall (λ x, p x = true) a → p c = false → span p (a ++ c :: b) = (a, c :: b).
Proof.
  intros Ha Hc. induction Ha as [|x a Hx Ha IH]; simpl.
  - by rewrite Hc.
  - by rewrite Hx, IH.
Qed.

Lemma span_whole (p : char → bool) (s : str) :
  Forall (λ x, p x = true) s → span p s = (s, []).
Proof.
  induction 1 as [|x s Hx Hs IH]; simpl; [done |]. by rewrite Hx, IH.
Qed.

Lemma span_app (p : char → bool) (s a b : str) :
  span p s = (a, b) → s = a ++ b ∧ Forall (λ x, p x = true) a.
Proof.
  revert a b. induction s as [|c s IH]; intros a b; simpl.
  - by intros [= <- <-].
  - destruct (p c) eqn:Hc.
    + destruct (span p s) as [a' b'] eqn:Hs. intros [= <- <-].
      destruct (IH a' b' eq_refl) as [-> Ha]. split; [done | by constructor].
    + by intros [= <- <-].
Qed.

Section ParserFacts.
Context `{UnicodeData}.

Lemma lstrip_idemp (s : str) : lstrip (lstrip s) = lstrip s.
Proof.
  induction s as [|c s IH]; simpl; [done |].
  destruct (isspace c) eqn:Hc; [done |]. simpl. by rewrite Hc.
Qed.

Lemma strip_lstrip (s : str) : strip (lstrip s) = strip s.
Proof. unfold strip. by rewrite lstrip_idemp. Qed.

Lemma lstrip_app (a b : str) :
  lstrip (a ++ b) = if decide (lstrip a = []) then lstrip b else lstrip a ++ b.
Proof.
  induction a as [|c a IH]; simpl; [done |].
  destruct (isspace c); [done |]. by rewrite decide_False.
Qed.

Lemma rstrip_snoc_space (s : str) (c : char) :
  isspace c = true → rstrip (s ++ [c]) = rstrip s.
Proof.
  intros Hc. unfold rstrip. rewrite reverse_app. simpl. by rewrite Hc.
Qed.

Lemma strip_snoc_space (s : str) (c : char) :
  isspace c = true → strip (s ++ [c]) = strip s.
Proof.
  intros Hc. unfold strip. rewrite lstrip_app.
  destruct (decide (lstrip s = [])) as [Hs | Hs].
  - rewrite Hs. simpl. by rewrite Hc.
  - by apply rstrip_snoc_space.
Qed.

(** A line of a file has no line feed left once trimmed. *)
Lemma strip_line_no_newline (content line : str) :
  line ∈ readlines content → newline ∉ strip line.
Proof.
  intros (body & Hb & Hl)%readlines_newline.
  assert (strip line = strip body) as ->.
  { destruct Hl as [-> | ->]; [done |].
    apply strip_snoc_space, isspace_newline. }
  destruct (strip_decompose body) as (ws1 & ws2 & Hs & _).
  intros Hin. apply Hb. rewrite Hs, !elem_of_app. tauto.
Qed.

Lemma pad_parts_length (parts : list str) : 3 ≤ length (pad_parts parts).
Proof. unfold pad_parts. rewrite length_app, length_replicate. lia. Qed.

(** The loop body never raises: after padding, the three items exist. *)
Lemma parse_fixed_line_ok (raw : str) : ∃ r, parse_fixed_line raw = Ok r.
Proof.
  unfold parse_fixed_line.
  destruct (negb (truthy (strip raw))); [by eexists |].
  destruct (entry_line_match (strip raw)) as [[g1 g2] |]; [| by eexists].
  pose proof (pad_parts_length (strip <$> split comma 2 (strip g2))) as Hlen.
  destruct (pad_parts _) as [|k [|n [|m parts]]]; simpl in Hlen; try lia.
  by eexists.
Qed.

Lemma parse_fixed_lines_omap (lines : list str) : ∀ entries,
  parse_fixed_lines lines entries = Ok (entries ++ omap line_entry lines).
Proof.
  induction lines as [|raw lines IH]; intros entries; simpl.
  - by rewrite app_nil_r.
  - unfold line_entry at 1.
    destruct (parse_fixed_line_ok raw) as [r ->]. simpl. rewrite IH.
    destruct r as [e |]; [| done]. by rewrite <- app_assoc.
Qed.

End ParserFacts.

Section ParserTheorem.
Context `{UnicodeData}.

Lemma lstrip_strip (s : str) : lstrip (strip s) = strip s.
Proof.
  unfold strip. destruct (lstrip s) as [|c x] eqn:Hx; [done |].
  pose proof (lstrip_head _ _ _ Hx) as Hc.
  destruct (rstrip_prefix (c :: x)) as (ws & Hr & _).
  destruct (rstrip (c :: x)) as [|c' r]; [done |].
  injection Hr as <- _. by eapply lstrip_id.
Qed.

Lemma entry_line_match_Some (s g1 g2 : str) :
  entry_line_match s = Some (g1, g2) →
  ∃ rest, lstrip s = g1 ++ dot :: rest ∧ g1 ≠ [] ∧
    Forall (λ c, isdecimal c = true) g1.
Proof.
  unfold entry_line_match.
  destruct (span isdecimal (lstrip s)) as [digits s2] eqn:Hspan.
  apply span_app in Hspan as [Hs Hds].
  destruct digits as [|d digits]; [done |].
  destruct s2 as [|c s3]; [done |].
  destruct (decide (c = dot)) as [-> |]; [| done].
  destruct (span _ (lstrip s3)) as [body tail].
  intros Hm. exists s3.
  assert (g1 = d :: digits) as ->.
  { by destruct tail as [|? [|? ?]]; simplify_eq. }
  by split_and!.
Qed.

Lemma entry_line_match_accepts (ds rest : str) :
  ds ≠ [] → Forall (λ c, isdecimal c = true) ds → newline ∉ rest →
  entry_line_match (ds ++ dot :: rest) = Some (ds, lstrip rest).
Proof.
  intros Hne Hds Hnl. unfold entry_line_match.
  destruct ds as [|d ds]; [done |].
  assert (lstrip ((d :: ds) ++ dot :: rest) = (d :: ds) ++ dot :: rest) as ->.
  { eapply lstrip_id; [done |]. apply isdecimal_not_space.
    by apply Forall_cons in Hds as [? _]. }
  rewrite (span_all isdecimal) by (done || apply isdecimal_dot).
  rewrite decide_True by done.
  rewrite span_whole; [done |].
  apply Forall_forall. intros c Hc. apply bool_decide_eq_true. intros ->.
  apply Hnl. destruct (lstrip_suffix rest) as (ws & Hrest & _).
  rewrite Hrest, elem_of_app. by right.
Qed.

(** C10. [parse_fixed_file] returns the entries of the lines of the file,
    in order, one entry at most per line.  A line of the file whose trimmed
    form is a non-empty run of digits, a full stop and a remainder yields
    exactly one entry of three fields.  With the remainder trimmed: when it
    has no comma, it is the first field (trimmed) and the other two are
    empty strings; when it has one comma, the parts before and after it
    (trimmed) are the first two fields and the third is the empty string;
    otherwise the parts before the first comma, between the first two
    commas, and after the second comma (trimmed; this last part may hold
    commas) are the three fields.  No other line yields an entry. *)
Theorem parse_fixed_file_accepted_lines (content : str) :
  parse_fixed_file (Some content) = Ok (omap line_entry (readlines content)) ∧
  (∀ line ds rest,
    line ∈ readlines content →
    strip line = ds ++ dot :: rest →
    ds ≠ [] → Forall (λ c, isdecimal c = true) ds →
    (∃ kanji kana meaning,
      line_entry line = Some (kanji, kana, meaning) ∧
      (((comma ∉ strip rest) ∧
        kanji = strip (strip rest) ∧ kana = [] ∧ meaning = []) ∨
       (∃ a b, strip rest = a ++ comma :: b ∧ (comma ∉ a) ∧ (comma ∉ b) ∧
          kanji = strip a ∧ kana = strip b ∧ meaning = []) ∨
       (∃ a b c, strip rest = a ++ comma :: b ++ comma :: c ∧
          (comma ∉ a) ∧ (comma ∉ b) ∧
          kanji = strip a ∧ kana = strip b ∧ meaning = strip c)))) ∧
  (∀ line e,
    line_entry line = Some e →
    ∃ ds rest,
      strip line = ds ++ dot :: rest ∧
      ds ≠ [] ∧ Forall (λ c, isdecimal c = true) ds).
Proof.
  split_and!.
  { unfold parse_fixed_file. by rewrite parse_fixed_lines_omap. }
  2:{ intros line e. unfold line_entry, parse_fixed_line.
      destruct (negb (truthy (strip line))); [done |].
      destruct (entry_line_match (strip line)) as [[g1 g2] |] eqn:Hm; [| done].
      intros _. apply entry_line_match_Some in Hm as (rest & Hs & Hne & Hds).
      rewrite lstrip_strip in Hs. by exists g1, rest. }
  intros line ds rest Hline Hstrip Hne Hds.
  pose proof (strip_line_no_newline _ _ Hline) as Hnl.
  rewrite Hstrip in Hnl.
  assert (newline ∉ rest) as Hnl'.
  { intros Hin. apply Hnl. rewrite elem_of_app, elem_of_cons. tauto. }
  unfold line_entry, parse_fixed_line. rewrite Hstrip.
  assert (truthy (ds ++ dot :: rest) = true) as -> by by destruct ds.
  simpl negb. cbv iota.
  rewrite entry_line_match_accepts by done. rewrite strip_lstrip.
  destruct (decide (comma ∈ strip rest)) as [Hc | Hc].
  - apply list_elem_of_split_l in Hc as (a & b' & Hr & Ha).
    rewrite Hr, (split_at_sep comma 1 a b' Ha).
    destruct (decide (comma ∈ b')) as [Hc' | Hc'].
    + apply list_elem_of_split_l in Hc' as (b & c & -> & Hb).
      rewrite (split_at_sep comma 0 b c Hb), split_zero. simpl.
      exists (strip a), (strip b), (strip c). split; [done |].
      right. right. by exists a, b, c.
    + rewrite split_no_sep by done. simpl.
      exists (strip a), (strip b'), []. split; [done |].
      right. left. by exists a, b'.
  - rewrite split_no_sep by done. simpl.
    exists (strip (strip rest)), [], []. split; [done |]. by left.
Qed.

End ParserTheorem.

(** ** The properties on concrete runs *)


(** C4. The code reads [min_options] nowhere: [sample_distractors] is
    always called with its default [need = 3], and a call with any
    [min_options] is the call with 4.  With [min_options = 2] and
    two entries, every pool holds one value other than the correct one,
    which is [min_options - 1], yet all twelve attempts are counted as
    skipped and no question is returned.  With [min_options = 5] and five
    entries, every one of the thirty questions returned has four options,
    not five. *)
Theorem min_options_not_honoured :
  (∀ entries kanji_pool kana_pool meaning_pool (min_options : Z)
     (rng : option N) (ambient : N),
     generate_all_questions entries kanji_pool kana_pool meaning_pool
       min_options rng ambient =
     generate_all_questions entries kanji_pool kana_pool meaning_pool
       4 rng ambient) ∧
  run_seeded two_entries 2 42 = Ok ([], 12, 42%N) ∧
  ∃ qs skipped g,
    run_seeded five_entries 5 42 = Ok (qs, skipped, g) ∧
    length qs = 30 ∧ skipped = 0 ∧
    Forall (λ q, length (options q) = 4) qs.
Proof.
  split; [reflexivity |].
  split; [vm_compute; reflexivity |].
  destruct (run_seeded five_entries 5 42) as [[[qs sk] g] |] eqn:Hrun;
    vm_compute in Hrun; [| discriminate].
  injection Hrun as <- <- <-. do 3 eexists. split; [reflexivity |].
  split_and!; [reflexivity | reflexivity |].
  repeat (apply List.Forall_cons; [reflexivity |]). apply List.Forall_nil.
Qed.

(** The claim C2 as stated fails.  First input: four entries and the pools
    [build_pools] makes of them; the kanji field of the first entry is a
    single space, so it is non-empty, its kana field is [b], and the kana
    pool holds the three distinct values [e], [h], [k] other than [b]; no
    question of type kanji to hiragana is returned for the first entry.
    Second input: both fields of the only entry are non-empty and the kana
    pool argument holds the three distinct values the empty string, [x] and
    [y] other than [b]; no question of that type is returned either. *)
Lemma emitted_claim_counterexample :
  (let e := E " " "b" "c" in
   let entries := [e; E "d" "e" "f"; E "g" "h" "i"; E "j" "k" "l"] in
   entries !! 0 = Some e ∧
   source_field KanjiToHiragana e ≠ [] ∧
   target_field KanjiToHiragana e ≠ [] ∧
   NoDup [str_of "e"; str_of "h"; str_of "k"] ∧
   (∀ v, v ∈ [str_of "e"; str_of "h"; str_of "k"] →
      v ∈ (build_pools entries).1.2 ∧ v ≠ target_field KanjiToHiragana e) ∧
   ∃ qs skipped g,
     run_seeded entries 4 42 = Ok (qs, skipped, g) ∧
     filter (λ q, entry_index q = 1 ∧ q_type q = KanjiToHiragana) qs = []) ∧
  (let e := E "a" "b" "c" in
   let kana_pool := [str_of ""; str_of "x"; str_of "y"; str_of "b"] in
   [e] !! 0 = Some e ∧
   source_field KanjiToHiragana e ≠ [] ∧
   target_field KanjiToHiragana e ≠ [] ∧
   NoDup [str_of ""; str_of "x"; str_of "y"] ∧
   (∀ v, v ∈ [str_of ""; str_of "x"; str_of "y"] →
      v ∈ kana_pool ∧ v ≠ target_field KanjiToHiragana e) ∧
   ∃ qs skipped g,
     generate_all_questions [e] [] kana_pool [] 4 (Some 42%N) 0%N
       = Ok (qs, skipped, g) ∧
     filter (λ q, entry_index q = 1 ∧ q_type q = KanjiToHiragana) qs = []).
Proof.
  split; cbv zeta; (split_and!;
    [ reflexivity | discriminate | discriminate
    | apply (bool_decide_unpack _); vm_compute; exact I
    | intros v Hv; rewrite !elem_of_cons, elem_of_nil in Hv;
      destruct Hv as [-> | [-> | [-> | []]]];
      apply (bool_decide_unpack _); vm_compute; exact I
    | do 3 eexists; split; [vm_compute; reflexivity | reflexivity] ]).
Qed.

(** The claim C3 as stated fails.  The only entry has the kanji [a], a
    single space as kana and no meaning.  For the type kanji to hiragana
    both fields are non-empty, and the kana pool [build_pools] makes holds a
    single value, so fewer than three distractors whatever the correct
    value; the skipped count returned is 0, not 1. *)
Lemma skipped_claim_counterexample :
  let e := E "a" " " "" in
  source_field KanjiToHiragana e ≠ [] ∧
  target_field KanjiToHiragana e ≠ [] ∧
  length (build_pools [e]).1.2 < 3 ∧
  run_seeded [e] 4 42 = Ok ([], 0, 42%N).
Proof.
  cbv zeta. split_and!; [discriminate | discriminate | vm_compute; lia |].
  vm_compute. reflexivity.
Qed.

(** The theorem of C2 at the first of four entries and the type kanji to
    meaning: the meaning pool holds [f], [i] and [l] besides [c]. *)
Lemma question_emitted_witness :
  ∃ qs skipped g q,
    generate_all_questions four_entries (build_pools four_entries).1.1
      (build_pools four_entries).1.2 (build_pools four_entries).2 4
      (Some 42%N) 0%N = Ok (qs, skipped, g) ∧
    filter (λ q, entry_index q = 1 ∧ q_type q = KanjiToMeaning) qs = [q] ∧
    prompt q = strip (source_field KanjiToMeaning (E "a" "b" "c")) ∧
    correct_answer q = strip (target_field KanjiToMeaning (E "a" "b" "c")).
Proof.
  apply (question_emitted_when_enough_distractors four_entries
           (build_pools four_entries).1.1 (build_pools four_entries).1.2
           (build_pools four_entries).2 4 (Some 42%N) 0%N 0 (E "a" "b" "c")
           KanjiToMeaning (str_of "f") (str_of "i") (str_of "l")).
  - reflexivity.
  - vm_compute. discriminate.
  - vm_compute. discriminate.
  - apply (bool_decide_unpack _). vm_compute. exact I.
  - intros v Hv. rewrite !elem_of_cons, elem_of_nil in Hv.
    destruct Hv as [-> | [-> | [-> | []]]];
      apply (bool_decide_unpack _); vm_compute; exact I.
Defined.

(** The theorem of C5 at two runs over four entries: one is handed a
    generator seeded with 42, the other is handed none and finds the
    module-level generator seeded with 42; they are given different
    [min_options]. *)
Lemma generation_deterministic_witness :
  ∃ qs skipped g1 g2,
    generate_all_questions four_entries (build_pools four_entries).1.1
      (build_pools four_entries).1.2 (build_pools four_entries).2 4
      (Some 42%N) 0%N = Ok (qs, skipped, g1) ∧
    generate_all_questions four_entries (build_pools four_entries).1.1
      (build_pools four_entries).1.2 (build_pools four_entries).2 7
      None 42%N = Ok (qs, skipped, g2) ∧
    g1 = g2.
Proof.
  apply (generation_deterministic (@eq N)).
  - apply same_draws_eq.
  - reflexivity.
Defined.

(** * Further properties

    Properties of the code beyond the statements of the specification: the
    files of entries, the accounting of a run of the generator, the
    chapters, and the rows handed to the database. *)

(** ** Trimming *)

Section StripFacts.
Context `{UnicodeData}.

Lemma lstrip_spaces (ws s : str) :
  Forall (λ c, isspace c = true) ws → lstrip (ws ++ s) = lstrip s.
Proof. induction 1 as [|c ws Hc Hws IH]; simpl; [done |]. by rewrite Hc. Qed.

Lemma rstrip_spaces (s ws : str) :
  Forall (λ c, isspace c = true) ws → rstrip (s ++ ws) = rstrip s.
Proof.
  intros Hws. unfold rstrip. rewrite reverse_app, lstrip_spaces; [done |].
  by apply Forall_reverse.
Qed.

Lemma lstrip_all_spaces (ws : str) :
  Forall (λ c, isspace c = true) ws → lstrip ws = [].
Proof. intros Hws. rewrite <- (app_nil_r ws). by rewrite lstrip_spaces. Qed.

Lemma rstrip_all_spaces (ws : str) :
  Forall (λ c, isspace c = true) ws → rstrip ws = [].
Proof. intros Hws. change ws with ([] ++ ws). by rewrite rstrip_spaces. Qed.

Lemma rstrip_idemp (s : str) : rstrip (rstrip s) = rstrip s.
Proof. unfold rstrip. by rewrite reverse_involutive, lstrip_idemp. Qed.

Lemma lstrip_app_nonspace (a x : str) (c : char) :
  isspace c = false → lstrip (a ++ c :: x) = lstrip a ++ c :: x.
Proof.
  intros Hc. rewrite lstrip_app.
  destruct (decide (lstrip a = [])) as [-> |]; [| done].
  simpl. by rewrite Hc.
Qed.

Lemma rstrip_app_nonspace (x b : str) (c : char) :
  isspace c = false → rstrip (x ++ c :: b) = x ++ c :: rstrip b.
Proof.
  intros Hc. unfold rstrip.
  rewrite reverse_app, reverse_cons, <- app_assoc. simpl.
  rewrite lstrip_app_nonspace by done.
  rewrite reverse_app, reverse_cons, reverse_involutive, <- app_assoc. done.
Qed.

(** Trimming on the left and trimming on the right commute. *)
Lemma lstrip_rstrip (s : str) : lstrip (rstrip s) = rstrip (lstrip s).
Proof.
  destruct (lstrip s) as [|c t] eqn:Ht.
  - destruct (lstrip_suffix s) as (ws & Hs & Hws). rewrite Ht, app_nil_r in Hs.
    subst s. by rewrite rstrip_all_spaces.
  - pose proof (lstrip_head _ _ _ Ht) as Hc.
    destruct (lstrip_suffix s) as (ws & Hs & Hws). rewrite Ht in Hs.
    rewrite Hs at 1. rewrite rstrip_app_nonspace by done.
    rewrite lstrip_spaces by done. simpl. rewrite Hc.
    change (c :: t) with ([] ++ c :: t). by rewrite rstrip_app_nonspace.
Qed.

Lemma strip_rstrip (s : str) : strip (rstrip s) = strip s.
Proof. unfold strip. by rewrite lstrip_rstrip, rstrip_idemp. Qed.

Lemma strip_idemp (s : str) : strip (strip s) = strip s.
Proof.
  unfold strip at 1. rewrite lstrip_strip. unfold strip. apply rstrip_idemp.
Qed.

Lemma strip_spaces_l (ws s : str) :
  Forall (λ c, isspace c = true) ws → strip (ws ++ s) = strip s.
Proof. intros Hws. unfold strip. by rewrite lstrip_spaces. Qed.

Lemma elem_of_strip (s : str) (c : char) : c ∈ strip s → c ∈ s.
Proof.
  intros Hc. destruct (strip_decompose s) as (ws1 & ws2 & Hs & _).
  rewrite Hs, !elem_of_app. tauto.
Qed.

Lemma elem_of_lstrip (s : str) (c : char) : c ∈ lstrip s → c ∈ s.
Proof.
  intros Hc. destruct (lstrip_suffix s) as (ws & Hs & _).
  rewrite Hs, elem_of_app. tauto.
Qed.

Lemma elem_of_rstrip (s : str) (c : char) : c ∈ rstrip s → c ∈ s.
Proof.
  intros Hc. destruct (rstrip_prefix s) as (ws & Hs & _).
  rewrite Hs, elem_of_app. tauto.
Qed.

End StripFacts.

(** ** The decimal digits of a number *)

Lemma pretty_N_char_digit (x : N) : digit (N_of_ascii (pretty_N_char x)).
Proof.
  unfold pretty_N_char, digit. repeat case_match; vm_compute; split; congruence.
Qed.

Lemma pretty_N_go_digits (x : N) : ∀ s,
  Forall digit (str_of s) → Forall digit (str_of (pretty_N_go x s)).
Proof.
  induction (N.lt_wf_0 x) as [x _ IH]; intros s Hs.
  destruct (decide (x = 0)%N) as [-> | Hx]; [by rewrite pretty_N_go_0 |].
  rewrite pretty_N_go_step by lia. apply IH.
  - apply N.div_lt; lia.
  - simpl. apply List.Forall_cons; [apply pretty_N_char_digit | done].
Qed.

Lemma pretty_N_go_nonempty (x : N) : ∀ s,
  (0 < x)%N ∨ s ≠ EmptyString → pretty_N_go x s ≠ EmptyString.
Proof.
  induction (N.lt_wf_0 x) as [x _ IH]; intros s Hs.
  destruct (decide (x = 0)%N) as [-> | Hx].
  - rewrite pretty_N_go_0. destruct Hs; [lia | done].
  - rewrite pretty_N_go_step by lia. apply IH; [apply N.div_lt; lia |].
    by right.
Qed.

Lemma str_of_nat_digits (i : nat) : Forall digit (str_of_nat i).
Proof.
  unfold str_of_nat, pretty, pretty_nat, pretty, pretty_N.
  case_decide.
  - apply List.Forall_cons; [vm_compute; split; congruence | constructor].
  - by apply pretty_N_go_digits.
Qed.

Lemma str_of_nat_nonempty (i : nat) : str_of_nat i ≠ [].
Proof.
  unfold str_of_nat, pretty, pretty_nat, pretty, pretty_N.
  case_decide; [done |].
  pose proof (pretty_N_go_nonempty (N.of_nat i) EmptyString) as Hne.
  destruct (pretty_N_go _ _); [| done]. exfalso. apply Hne; [lia | done].
Qed.

(** ** Lines of a file *)

Lemma readlines_line (l rest : str) :
  newline ∉ l →
  readlines (l ++ newline :: rest) = (l ++ [newline]) :: readlines rest.
Proof.
  induction l as [|c l IH]; intros Hl.
  - done.
  - apply not_elem_of_cons in Hl as [Hc Hl].
    cbn [app readlines]. rewrite decide_False by done. by rewrite IH.
Qed.

Lemma text_mode_read_id (s : str) :
  carriage_return ∉ s → text_mode_read s = s.
Proof.
  induction s as [|c s IH]; intros Hs; [done |].
  apply not_elem_of_cons in Hs as [Hc Hs]. simpl.
  rewrite decide_False by done. by rewrite IH.
Qed.

(** ** Writing the fixed numbered file and reading it back *)

Lemma digit_not_control (c : char) :
  digit c → c ≠ newline ∧ c ≠ carriage_return.
Proof. unfold digit, newline, carriage_return. lia. Qed.

Ltac elem_cases H :=
  repeat match type of H with
  | _ ∈ _ ++ _ => apply elem_of_app in H as [H | H]
  | _ ∈ _ :: _ => apply elem_of_cons in H as [H | H]
  | _ ∈ [] => by apply elem_of_nil in H
  end.

Ltac list_norm :=
  repeat (rewrite <- app_assoc || rewrite <- app_comm_cons); reflexivity.

Section RoundTrip.
Context `{UnicodeData}.

Lemma rstrip_strip (s : str) : rstrip (strip s) = strip s.
Proof. unfold strip. apply rstrip_idemp. Qed.

Lemma fixed_line_shape (i : nat) (k n m : str) :
  fixed_line i (k, n, m) =
    (str_of_nat i ++ dot :: (space :: space :: space :: strip k) ++
       comma :: (space :: strip n) ++ comma :: space :: strip m) ++ [newline].
Proof.
  unfold fixed_line. cbn [str_of]. list_norm.
Qed.

(** A written line is one line of the file. *)
Lemma fixed_line_one_line (i : nat) (e : entry) :
  storable e →
  ∃ body, fixed_line i e = body ++ [newline] ∧
    (newline ∉ body) ∧ (carriage_return ∉ body ++ [newline]).
Proof.
  destruct e as [[k n] m]. intros (_ & _ & Hf).
  destruct (Hf Kanji) as [Hk1 Hk2], (Hf Kana) as [Hn1 Hn2],
    (Hf Meaning) as [Hm1 Hm2].
  cbn [field_of kanji_of kana_of meaning_of fst snd] in *.
  rewrite fixed_line_shape. eexists. split; [done |].
  pose proof (str_of_nat_digits i) as Hds.
  assert (∀ c, c ∈ str_of_nat i → c ≠ newline ∧ c ≠ carriage_return) as Hd.
  { intros c Hc. apply digit_not_control.
    by eapply (proj1 (Forall_forall _ _) Hds). }
  split; intros Hin; elem_cases Hin; try done.
  - by destruct (Hd _ Hin).
  - by destruct (Hd _ Hin).
Qed.

(** Reading a written line gives the entry back, trimmed. *)
Lemma line_entry_fixed_line (i : nat) (e : entry) :
  ascii_conventions → storable e →
  line_entry (fixed_line i e) = Some (normalize e).
Proof.
  intros (Hsp & Hcomma & Hdig) Hst.
  destruct (fixed_line_one_line i e Hst) as (body & Hbody & Hnl & _).
  destruct Hst as (Hk & Hn & Hf). destruct e as [[k n] m].
  unfold normalize. cbn [kanji_of kana_of meaning_of fst snd] in Hk, Hn |- *.
  rewrite fixed_line_shape in Hbody |- *. apply app_inj_tail in Hbody as [<- _].
  set (ks := strip k) in *. set (ns := strip n) in *. set (ms := strip m) in *.
  pose proof (str_of_nat_digits i) as Hds.
  pose proof (str_of_nat_nonempty i) as Hne.
  remember (str_of_nat i) as ds eqn:Hdsdef. clear Hdsdef.
  assert (Forall (λ c, isdecimal c = true) ds) as Hdec.
  { eapply Forall_impl; [exact Hds | exact Hdig]. }
  assert (lstrip ks = ks) as Hlk by apply lstrip_strip.
  set (R := rstrip (space :: ms)).
  assert (strip R = ms) as HR.
  { unfold R. rewrite strip_rstrip.
    rewrite (strip_spaces_l [space] ms) by (by repeat constructor).
    apply strip_idemp. }
  assert (strip (space :: ns) = ns) as HB.
  { rewrite (strip_spaces_l [space] ns) by (by repeat constructor).
    apply strip_idemp. }
  set (rest := (space :: space :: space :: ks) ++
                 comma :: (space :: ns) ++ comma :: R).
  assert (strip ((ds ++ dot :: (space :: space :: space :: ks) ++
            comma :: (space :: ns) ++ comma :: space :: ms) ++ [newline])
          = ds ++ dot :: rest) as Hline.
  { rewrite strip_snoc_space by apply isspace_newline. unfold strip.
    destruct ds as [|d ds'] eqn:Hdseq; [done |].
    erewrite lstrip_id; [| done |]; last first.
    { apply isdecimal_not_space. by apply Forall_cons in Hdec as [? _]. }
    rewrite <- Hdseq.
    replace (ds ++ dot :: (space :: space :: space :: ks) ++
               comma :: (space :: ns) ++ comma :: space :: ms)
      with ((ds ++ dot :: (space :: space :: space :: ks) ++
               comma :: space :: ns) ++ comma :: space :: ms)
      by list_norm.
    rewrite rstrip_app_nonspace by done. unfold rest. list_norm. }
  unfold line_entry, parse_fixed_line. rewrite Hline.
  assert (truthy (ds ++ dot :: rest) = true) as ->.
  { by destruct ds. }
  simpl negb. cbv iota.
  assert (newline ∉ rest) as Hrest.
  { destruct (Hf Kanji) as [Hk1 _], (Hf Kana) as [Hn1 _],
      (Hf Meaning) as [Hm1 _].
    cbn [field_of kanji_of kana_of meaning_of fst snd] in *.
    intros Hin. unfold rest in Hin. elem_cases Hin; try done.
    apply elem_of_rstrip in Hin. elem_cases Hin; done. }
  rewrite entry_line_match_accepts by done.
  assert (lstrip rest = ks ++ comma :: (space :: ns) ++ comma :: R) as ->.
  { unfold rest. cbn [app lstrip]. rewrite Hsp.
    rewrite lstrip_app_nonspace by done. by rewrite Hlk. }
  assert (strip (ks ++ comma :: (space :: ns) ++ comma :: R)
          = ks ++ comma :: (space :: ns) ++ comma :: R) as ->.
  { unfold strip. rewrite lstrip_app_nonspace, Hlk by done.
    replace (ks ++ comma :: (space :: ns) ++ comma :: R)
      with ((ks ++ comma :: space :: ns) ++ comma :: R)
      by list_norm.
    rewrite rstrip_app_nonspace by done. unfold R. rewrite rstrip_idemp.
    list_norm. }
  rewrite split_at_sep by done.
  rewrite split_at_sep; last first.
  { intros [Heq | Hin]%elem_of_cons; [done | by apply Hn]. }
  rewrite split_zero. cbn [fmap list_fmap].
  rewrite HB, HR. unfold ks at 1. rewrite strip_idemp. done.
Qed.

Lemma parse_written_lines (entries : list entry) : ∀ i,
  ascii_conventions → Forall storable entries →
  omap line_entry (readlines (write_fixed_lines i entries))
    = normalize <$> entries ∧
  carriage_return ∉ write_fixed_lines i entries.
Proof.
  induction entries as [|e entries IH]; intros i Hascii Hst.
  - split; [done | apply not_elem_of_nil].
  - apply Forall_cons in Hst as [He Hst].
    destruct (IH (S i) Hascii Hst) as [IH1 IH2].
    destruct (fixed_line_one_line i e He) as (body & Hbody & Hnl & Hcr).
    cbn [write_fixed_lines]. split.
    + rewrite Hbody, <- app_assoc. cbn [app].
      rewrite readlines_line by done. cbn [omap list_omap].
      rewrite <- Hbody, line_entry_fixed_line by done.
      by rewrite IH1.
    + rewrite Hbody, elem_of_app. tauto.
Qed.

End RoundTrip.

(** ** What [split] returns *)

Lemma split_elem (sep : char) (s : str) : ∀ n p c,
  p ∈ split sep n s → c ∈ p → c ∈ s.
Proof.
  induction s as [|a s IH]; intros n p c; simpl.
  - by intros ->%list_elem_of_singleton.
  - destruct (decide (a = sep)) as [-> | Ha].
    + destruct n as [|n].
      * by intros ->%list_elem_of_singleton.
      * intros [-> | Hp]%elem_of_cons Hc; [by apply elem_of_nil in Hc |].
        apply elem_of_cons. right. by eapply IH.
    + destruct (split sep n s) as [|p0 ps] eqn:Hsp.
      * intros ->%list_elem_of_singleton ->%list_elem_of_singleton. by left.
      * intros [-> | Hp]%elem_of_cons Hc.
        -- apply elem_of_cons in Hc as [-> | Hc]; [by left |].
           apply elem_of_cons. right. apply (IH n p0); [| done].
           rewrite Hsp. by left.
        -- apply elem_of_cons. right. apply (IH n p); [| done].
           rewrite Hsp. by right.
Qed.

(** The parts before the last one allowed hold no separator. *)
Lemma split_part_no_sep (sep : char) (s : str) : ∀ n i p,
  split sep n s !! i = Some p → i < n → sep ∉ p.
Proof.
  induction s as [|a s IH]; intros n i p; simpl.
  - destruct i; [| done]. intros [= <-] _. apply not_elem_of_nil.
  - destruct (decide (a = sep)) as [-> | Ha].
    + destruct n as [|n]; [lia |]. destruct i as [|i]; simpl.
      * intros [= <-] _. apply not_elem_of_nil.
      * intros Hp Hi. apply (IH n i); [done | lia].
    + destruct (split sep n s) as [|p0 ps] eqn:Hsp.
      * destruct i; [| done]. intros [= <-] _.
        intros Hin%list_elem_of_singleton. congruence.
      * destruct i as [|i]; simpl.
        -- intros [= <-] Hi. apply not_elem_of_cons. split; [congruence |].
           apply (IH n 0); [by rewrite Hsp | done].
        -- intros Hp Hi. apply (IH n (S i)); [by rewrite Hsp | done].
Qed.

Lemma split_length (sep : char) (s : str) : ∀ n,
  1 ≤ length (split sep n s) ≤ S n.
Proof.
  induction s as [|a s IH]; intros n; simpl; [lia |].
  destruct (decide (a = sep)).
  - destruct n as [|n]; simpl; [lia |]. specialize (IH n). lia.
  - specialize (IH n). destruct (split sep n s); simpl in *; lia.
Qed.

Lemma readlines_elem (content line : str) (c : char) :
  line ∈ readlines content → c ∈ line → c ∈ content.
Proof.
  revert line. induction content as [|a t IH]; intros line; simpl.
  - by intros ?%elem_of_nil.
  - destruct (decide (a = newline)) as [-> | Ha].
    + intros [-> | Hin]%elem_of_cons Hc.
      * apply list_elem_of_singleton in Hc as ->. by left.
      * apply elem_of_cons. right. by eapply IH.
    + destruct (readlines t) as [|l ls] eqn:Hls.
      * intros ->%list_elem_of_singleton Hc.
        apply list_elem_of_singleton in Hc as ->. by left.
      * intros [-> | Hin]%elem_of_cons Hc.
        -- apply elem_of_cons in Hc as [-> | Hc]; [by left |].
           apply elem_of_cons. right. apply (IH l); [by left | done].
        -- apply elem_of_cons. right. apply (IH line); [by right | done].
Qed.

Lemma text_mode_read_no_cr (stored : str) :
  carriage_return ∉ text_mode_read stored.
Proof.
  assert (∀ n s, length s ≤ n → carriage_return ∉ text_mode_read s) as Hgen.
  { induction n as [|n IH]; intros s Hlen.
    - destruct s; [apply not_elem_of_nil | simpl in Hlen; lia].
    - destruct s as [|c s]; [apply not_elem_of_nil |]. simpl in Hlen.
      cbn [text_mode_read]. destruct (decide (c = carriage_return)) as [-> | Hc].
      + destruct s as [|c' s'].
        * intros Hin%list_elem_of_singleton. done.
        * destruct (decide (c' = newline)).
          -- apply not_elem_of_cons. split; [done |]. apply IH.
             simpl in Hlen. lia.
          -- apply not_elem_of_cons. split; [done |]. apply IH. lia.
      + apply not_elem_of_cons. split; [congruence |]. apply IH. lia. }
  by apply (Hgen (length stored)).
Qed.

(** ** The fields [parse_fixed_file] returns *)

Section FixedFields.
Context `{UnicodeData}.

Lemma strip_nil : strip [] = [].
Proof. reflexivity. Qed.

Lemma entry_line_match_group2 (s g1 g2 : str) :
  entry_line_match s = Some (g1, g2) →
  (newline ∉ g2) ∧ ∀ c, c ∈ g2 → c ∈ s.
Proof.
  unfold entry_line_match.
  destruct (span isdecimal (lstrip s)) as [digits s2] eqn:Hspan.
  apply span_app in Hspan as [Hs _].
  destruct digits as [|d digits]; [done |].
  destruct s2 as [|c s3]; [done |].
  destruct (decide (c = dot)) as [-> |]; [| done].
  destruct (span _ (lstrip s3)) as [body tail] eqn:Hspan2.
  apply span_app in Hspan2 as [Hs3 Hbody].
  intros Hm. assert (g2 = body) as ->.
  { by destruct tail as [|? [|? ?]]; simplify_eq. }
  split.
  - intros Hin. eapply Forall_forall in Hbody; [| exact Hin].
    by apply bool_decide_eq_true in Hbody.
  - intros c Hc. apply elem_of_lstrip. rewrite Hs.
    apply elem_of_app. right. apply elem_of_cons. right.
    apply elem_of_lstrip. rewrite Hs3. apply elem_of_app. by left.
Qed.

Lemma pad_parts_lookup (l : list str) (i : nat) (p : str) :
  pad_parts (strip <$> l) !! i = Some p →
  p = [] ∨ ∃ x, l !! i = Some x ∧ p = strip x.
Proof.
  unfold pad_parts. intros [Hp | [_ Hp]]%lookup_app_Some.
  - rewrite list_lookup_fmap in Hp.
    destruct (l !! i) as [x |]; [| done]. right. exists x.
    by injection Hp as <-.
  - apply lookup_replicate in Hp as [-> _]. by left.
Qed.

(** What one line contributes: trimmed fields, of characters of the line
    other than the line feed, the first two without a comma. *)
Lemma line_entry_fields (line : str) (e : entry) :
  line_entry line = Some e →
  trimmed e ∧ (comma ∉ kanji_of e) ∧ (comma ∉ kana_of e) ∧
  (∀ f, newline ∉ field_of f e) ∧
  (∀ f c, c ∈ field_of f e → c ∈ line).
Proof.
  unfold line_entry, parse_fixed_line.
  destruct (negb (truthy (strip line))); [done |].
  destruct (entry_line_match (strip line)) as [[g1 g2] |] eqn:Hm; [| done].
  apply entry_line_match_group2 in Hm as [Hnl Hsub].
  set (pieces := split comma 2 (strip g2)).
  assert (∀ i p, pad_parts (strip <$> pieces) !! i = Some p →
            strip p = p ∧ (newline ∉ p) ∧ (∀ c, c ∈ p → c ∈ line) ∧
            (i < 2 → comma ∉ p)) as Hpart.
  { intros i p [-> | (x & Hx & ->)]%pad_parts_lookup.
    { split_and!; [done | apply not_elem_of_nil | | intros _; apply not_elem_of_nil].
      by intros c ?%elem_of_nil. }
    assert (∀ c, c ∈ strip x → c ∈ g2) as Hxg.
    { intros c Hc%elem_of_strip. apply elem_of_strip.
      eapply split_elem; [| exact Hc]. by eapply list_elem_of_lookup_2. }
    split_and!.
    - apply strip_idemp.
    - intros Hin. by apply Hnl, Hxg.
    - intros c Hc. by apply elem_of_strip, Hsub, Hxg.
    - intros Hi Hin%elem_of_strip.
      by eapply (split_part_no_sep comma (strip g2)). }
  unfold item.
  destruct (pad_parts _ !! 0) as [k |] eqn:Hk; [| done].
  destruct (pad_parts _ !! 1) as [n |] eqn:Hn; [| done].
  destruct (pad_parts _ !! 2) as [m |] eqn:Hmm; [| done].
  simpl. intros [= <-].
  destruct (Hpart _ _ Hk) as (Hk1 & Hk2 & Hk3 & Hk4).
  destruct (Hpart _ _ Hn) as (Hn1 & Hn2 & Hn3 & Hn4).
  destruct (Hpart _ _ Hmm) as (Hm1 & Hm2 & Hm3 & _).
  split_and!.
  - by intros [].
  - apply Hk4. lia.
  - apply Hn4. lia.
  - by intros [].
  - by intros [].
Qed.

Lemma elem_of_omap_line_entry (lines : list str) (e : entry) :
  e ∈ omap line_entry lines → ∃ line, line ∈ lines ∧ line_entry line = Some e.
Proof. intros (line & Hin & He)%list_elem_of_omap. by exists line. Qed.

End FixedFields.

Section FixedFile.
Context `{UnicodeData}.

Ltac elem_search :=
  solve [ assumption
        | apply elem_of_cons; right; elem_search
        | apply elem_of_app; left; elem_search
        | apply elem_of_app; right; elem_search ].

Lemma utf8_encodable_app (a b : str) :
  utf8_encodable (a ++ b) = utf8_encodable a && utf8_encodable b.
Proof. apply forallb_app. Qed.

Lemma utf8_encodable_true (text : str) :
  utf8_encodable text = true ↔ Forall (λ c, surrogate c = false) text.
Proof.
  unfold utf8_encodable. rewrite forallb_forall, Forall_forall.
  split; intros Hall c Hc.
  - apply negb_true_iff, Hall. by apply list_elem_of_In.
  - apply negb_true_iff, Hall. by apply list_elem_of_In.
Qed.

Lemma utf8_encodable_false (text : str) (c : char) :
  c ∈ text → surrogate c = true → utf8_encodable text = false.
Proof.
  intros Hc Hs. destruct (utf8_encodable text) eqn:Henc; [| done].
  apply utf8_encodable_true in Henc.
  eapply Forall_forall in Henc; [| exact Hc]. congruence.
Qed.

Lemma digit_not_surrogate (c : char) : digit c → surrogate c = false.
Proof.
  unfold digit, surrogate. intros [? ?]. apply bool_decide_eq_false. lia.
Qed.

(** The call raises at the first line that does not encode, and leaves the
    text of all the lines when there is none. *)
Lemma write_fixed_lines_call_spec (entries : list entry) : ∀ i written,
  write_fixed_lines_call i entries written
  = if utf8_encodable (write_fixed_lines i entries)
    then Some (written ++ write_fixed_lines i entries)
    else None.
Proof.
  induction entries as [|e entries IH]; intros i written;
    cbn [write_fixed_lines_call write_fixed_lines].
  - by rewrite app_nil_r.
  - rewrite utf8_encodable_app.
    destruct (utf8_encodable (fixed_line i e)); cbn [andb]; [| done].
    rewrite IH. destruct (utf8_encodable _); [| done].
    by rewrite app_assoc.
Qed.

Lemma fixed_line_encodable (i : nat) (e : entry) :
  encodable e → utf8_encodable (fixed_line i e) = true.
Proof.
  destruct e as [[k n] m]. intros Henc.
  pose proof (Henc Kanji) as Hk. pose proof (Henc Kana) as Hn.
  pose proof (Henc Meaning) as Hm.
  cbn [field_of kanji_of kana_of meaning_of fst snd] in Hk, Hn, Hm.
  rewrite fixed_line_shape. apply utf8_encodable_true.
  pose proof (str_of_nat_digits i) as Hds.
  repeat first [apply Forall_app_2 | apply List.Forall_cons
               | apply List.Forall_nil]; try done.
  eapply Forall_impl; [exact Hds | apply digit_not_surrogate].
Qed.

Lemma field_in_fixed_line (i : nat) (e : entry) (f : Field) (c : char) :
  c ∈ strip (field_of f e) → c ∈ fixed_line i e.
Proof.
  destruct e as [[k n] m]. rewrite fixed_line_shape.
  destruct f; cbn [field_of kanji_of kana_of meaning_of fst snd]; intros Hc;
    elem_search.
Qed.

Lemma written_text_encodable (entries : list entry) : ∀ i,
  Forall encodable entries →
  utf8_encodable (write_fixed_lines i entries) = true.
Proof.
  induction entries as [|e entries IH]; intros i Henc; [done |].
  apply Forall_cons in Henc as [He Henc]. cbn [write_fixed_lines].
  by rewrite utf8_encodable_app, fixed_line_encodable, IH.
Qed.

Lemma field_in_written_text (entries : list entry) (e : entry) (f : Field)
    (c : char) : ∀ i,
  e ∈ entries → c ∈ strip (field_of f e) → c ∈ write_fixed_lines i entries.
Proof.
  induction entries as [|e' entries IH]; intros i; [by intros ?%elem_of_nil |].
  cbn [write_fixed_lines]. rewrite elem_of_app.
  intros [-> | He]%elem_of_cons Hc.
  - left. by eapply field_in_fixed_line.
  - right. by apply IH.
Qed.

(** When no trimmed field of an entry holds a surrogate, and in the trimmed
    fields no kanji or kana holds a comma and nothing holds a line feed or a
    carriage return, [write_fixed_file] returns, and reading back with
    [parse_fixed_file] the file it wrote gives the entries back in the same
    order, each field trimmed.  The line numbers and the spaces written
    after the full stop and the commas leave no trace; a meaning may hold
    commas.  When a trimmed field of some entry holds a surrogate,
    [write_fixed_file] raises. *)
Theorem write_then_parse_fixed_file (entries : list entry) :
  (ascii_conventions → Forall storable entries → Forall encodable entries →
   write_fixed_file_call entries = Some (write_fixed_file entries) ∧
   parse_fixed_file (Some (text_mode_read (write_fixed_file entries)))
     = Ok (normalize <$> entries)) ∧
  (∀ e f c, e ∈ entries → c ∈ strip (field_of f e) → surrogate c = true →
     write_fixed_file_call entries = None).
Proof.
  unfold write_fixed_file_call, write_fixed_file.
  rewrite write_fixed_lines_call_spec. split.
  - intros Hascii Hst Henc. rewrite written_text_encodable by done.
    split; [done |].
    destruct (parse_written_lines entries 1 Hascii Hst) as [Hlines Hcr].
    rewrite text_mode_read_id by done.
    unfold parse_fixed_file. by rewrite parse_fixed_lines_omap, Hlines.
  - intros e f c He Hc Hs.
    rewrite (utf8_encodable_false _ c); [done | | done].
    by eapply field_in_written_text.
Qed.

(** Whatever the file holds, [parse_fixed_file] returns entries whose fields
    are trimmed and made of characters of the file other than the line feed,
    with no comma in the kanji and none in the kana. *)
Theorem parse_fixed_file_fields (content : str) :
  ∃ entries,
    parse_fixed_file (Some content) = Ok entries ∧
    Forall (λ e, trimmed e ∧ (comma ∉ kanji_of e) ∧ (comma ∉ kana_of e) ∧
                 ∀ f, (newline ∉ field_of f e) ∧
                      ∀ c, c ∈ field_of f e → c ∈ content) entries.
Proof.
  eexists. split.
  { unfold parse_fixed_file. by rewrite parse_fixed_lines_omap. }
  apply Forall_forall. intros e (line & Hline & He)%elem_of_omap_line_entry.
  apply line_entry_fields in He as (Htr & Hk & Hn & Hnl & Hsub).
  split_and!; try done. intros f. split; [done |].
  intros c Hc. eapply readlines_elem; [exact Hline | by eapply Hsub].
Qed.

(** The entries read from a fixed file are a fixed point of writing and
    reading: written by [write_fixed_file] and read again by
    [parse_fixed_file], they come back unchanged. *)
Theorem parse_write_parse_fixed_file (stored : str) (entries : list entry) :
  ascii_conventions →
  parse_fixed_file (Some (text_mode_read stored)) = Ok entries →
  parse_fixed_file (Some (text_mode_read (write_fixed_file entries)))
    = Ok entries.
Proof.
  intros Hascii. unfold parse_fixed_file at 1.
  rewrite parse_fixed_lines_omap. intros [= <-].
  set (entries := omap line_entry (readlines (text_mode_read stored))).
  assert (Forall (λ e, storable e ∧ normalize e = e) entries) as Hall.
  { apply Forall_forall.
    intros [[k n] m] (line & Hline & He)%elem_of_omap_line_entry.
    apply line_entry_fields in He as (Htr & Hk & Hn & Hnl & Hsub).
    pose proof (Htr Kanji) as Hk'. pose proof (Htr Kana) as Hn'.
    pose proof (Htr Meaning) as Hm'.
    cbn [field_of kanji_of kana_of meaning_of fst snd] in *.
    split; [| unfold normalize; cbn [kanji_of kana_of meaning_of fst snd];
              by rewrite Hk', Hn', Hm'].
    unfold storable. cbn [kanji_of kana_of fst snd].
    rewrite Hk', Hn'. split_and!; [done.. |].
    intros f. rewrite (Htr f). split; [done |].
    intros Hcr. apply (text_mode_read_no_cr stored).
    eapply readlines_elem; [exact Hline | by eapply Hsub]. }
  unfold write_fixed_file.
  destruct (parse_written_lines entries 1 Hascii) as [Hlines Hcr].
  { eapply Forall_impl; [exact Hall | by intros ? [? _]]. }
  rewrite text_mode_read_id by done.
  unfold parse_fixed_file. rewrite parse_fixed_lines_omap, Hlines.
  cbn [app]. f_equal. clear Hlines Hcr.
  induction Hall as [|e es [_ He] _ IH]; [done |].
  cbn [fmap list_fmap]. by rewrite He, IH.
Qed.

End FixedFile.

Ltac ascii_conv :=
  split_and!;
    [reflexivity | reflexivity
    | intros ? [? ?]; apply bool_decide_eq_true; lia].

Ltac storable_entry :=
  split_and!;
    [apply (bool_decide_unpack _); vm_compute; exact I
    | apply (bool_decide_unpack _); vm_compute; exact I
    | intros []; split; apply (bool_decide_unpack _); vm_compute; exact I].

Ltac encodable_entry :=
  intros []; apply (bool_decide_unpack _); vm_compute; exact I.

(** The theorem on writing and reading at two entries, one with spaces
    around its kanji and a comma in its meaning, one with a meaning only. *)
Lemma write_then_parse_fixed_file_witness :
  write_fixed_file_call padded_entries
    = Some (write_fixed_file padded_entries) ∧
  parse_fixed_file (Some (text_mode_read (write_fixed_file padded_entries)))
    = Ok [E "a" "b" "c, d"; E "" "" "x"].
Proof.
  change [E "a" "b" "c, d"; E "" "" "x"] with (normalize <$> padded_entries).
  apply (proj1 (write_then_parse_fixed_file padded_entries)).
  - ascii_conv.
  - repeat (apply List.Forall_cons; [storable_entry |]). apply List.Forall_nil.
  - repeat (apply List.Forall_cons; [encodable_entry |]). apply List.Forall_nil.
Defined.

(** The theorem on the fixed point at a stored text with two kinds of line
    ends and a line that is no entry. *)
Lemma parse_write_parse_fixed_file_witness :
  parse_fixed_file
    (Some (text_mode_read (write_fixed_file [E "a" "b" ""; E "" "x" "y,z"])))
    = Ok [E "a" "b" ""; E "" "x" "y,z"].
Proof.
  apply (parse_write_parse_fixed_file crlf_fixed_text).
  - ascii_conv.
  - vm_compute. reflexivity.
Defined.

(** ** The raw file *)

Lemma elem_of_lstrip_chars (chars : list char) (s : str) (c : char) :
  c ∈ lstrip_chars chars s → c ∈ s.
Proof.
  induction s as [|a s IH]; [done |]. simpl.
  destruct (bool_decide (a ∈ chars)); [| done].
  intros Hc. apply elem_of_cons. right. by apply IH.
Qed.

Lemma elem_of_rstrip_chars (chars : list char) (s : str) (c : char) :
  c ∈ rstrip_chars chars s → c ∈ s.
Proof.
  unfold rstrip_chars. rewrite elem_of_reverse.
  intros Hc%elem_of_lstrip_chars. by apply elem_of_reverse.
Qed.

(** When a filter keeps two elements or more, the first one kept is not the
    last element of the list. *)
Lemma filter_first_of_two {A : Type} (P : A → Prop) `{∀ x, Decision (P x)}
    (l : list A) (a b : A) (rest : list A) :
  filter P l = a :: b :: rest → ∃ i, l !! i = Some a ∧ S i < length l.
Proof.
  induction l as [|x l IH]; [done |]. rewrite filter_cons.
  destruct (decide (P x)).
  - intros [= -> Hl]. exists 0. split; [done |].
    destruct l; [done | simpl; lia].
  - intros (i & Hi & Hlen)%IH. exists (S i). split; [done | simpl; lia].
Qed.

Section RawFacts.
Context `{UnicodeData}.

Lemma parse_raw_lines_omap (lines : list str) : ∀ entries,
  parse_raw_lines lines entries = entries ++ omap parse_raw_line lines.
Proof.
  induction lines as [|raw lines IH]; intros entries; simpl.
  - by rewrite app_nil_r.
  - rewrite IH. destruct (parse_raw_line raw); [| done].
    by rewrite <- app_assoc.
Qed.

Lemma lower_nil_not_nan : lower [] ≠ str_of "nan".
Proof. by rewrite (proj2 (lower_nil [])). Qed.

Lemma is_kana_only_nil : _is_kana_only [] = false.
Proof. reflexivity. Qed.

(** What one line of the raw file contributes. *)
Lemma parse_raw_line_fields (raw : str) (e : entry) :
  parse_raw_line raw = Some e →
  trimmed e ∧
  (kanji_of e ≠ [] → kana_of e ≠ []) ∧
  (kana_of e ≠ [] ∨ meaning_of e ≠ []) ∧
  (kanji_of e = [] → kana_of e ≠ [] → _is_kana_only (kana_of e) = true) ∧
  (kanji_of e ≠ [] → meaning_of e = [] → _is_kana_only (kanji_of e) = false) ∧
  (kana_of e = [] → _is_kana_only (meaning_of e) = false) ∧
  (comma ∉ kanji_of e) ∧
  (∀ f, lower (field_of f e) ≠ str_of "nan") ∧
  (∀ f c, c ∈ field_of f e → c ∈ strip raw).
Proof.
  unfold parse_raw_line.
  destruct (negb (truthy (strip raw))); [done |].
  destruct (negb (bool_decide (comma ∈ strip raw))); [done |].
  set (line := rstrip_chars [comma] (strip raw)).
  set (pieces := split comma 2 line).
  set (kept := filter _ (strip <$> pieces)).
  assert (∀ p, p ∈ kept →
            p ≠ [] ∧ lower p ≠ str_of "nan" ∧ strip p = p ∧
            ∀ c, c ∈ p → c ∈ strip raw) as Hkept.
  { intros p [[Ht Hnan] (x & -> & Hx)%list_elem_of_fmap]%list_elem_of_filter.
    split_and!; [by apply truthy_true | done | apply strip_idemp |].
    intros c Hc%elem_of_strip. apply (elem_of_rstrip_chars [comma]).
    by eapply split_elem. }
  assert (∀ a b rest, kept = a :: b :: rest → comma ∉ a) as Hfirst.
  { intros a b rest (i & Hi & Hlen)%filter_first_of_two.
    rewrite length_fmap in Hlen. rewrite list_lookup_fmap in Hi.
    destruct (pieces !! i) as [x |] eqn:Hx; [| done]. injection Hi as <-.
    pose proof (split_length comma line 2) as Hsl.
    intros Hin%elem_of_strip.
    apply (split_part_no_sep comma line 2 i x); [done | | done].
    fold pieces in Hsl. lia. }
  assert (∀ f, field_of f ([], [], []) = @nil char) as Hnil by (by intros []).
  destruct kept as [|a [|b [|c rest]]] eqn:Hk; [done | | |].
  - destruct (Hkept a) as (Ha1 & Ha2 & Ha3 & Ha4); [by left |].
    destruct (_is_kana_only a) eqn:Hkana; intros [= <-];
      cbn [kanji_of kana_of meaning_of fst snd].
    + split_and!; try done.
      * by intros [].
      * by left.
      * apply not_elem_of_nil.
      * intros []; cbn [field_of kanji_of kana_of meaning_of fst snd];
          (done || apply lower_nil_not_nan).
      * intros [] c; cbn [field_of kanji_of kana_of meaning_of fst snd];
          (by intros ?%elem_of_nil) || by apply Ha4.
    + split_and!; try done.
      * by intros [].
      * by right.
      * apply not_elem_of_nil.
      * intros []; cbn [field_of kanji_of kana_of meaning_of fst snd];
          (done || apply lower_nil_not_nan).
      * intros [] c; cbn [field_of kanji_of kana_of meaning_of fst snd];
          (by intros ?%elem_of_nil) || by apply Ha4.
  - destruct (Hkept a) as (Ha1 & Ha2 & Ha3 & Ha4); [by left |].
    destruct (Hkept b) as (Hb1 & Hb2 & Hb3 & Hb4); [right; by left |].
    pose proof (Hfirst a b [] eq_refl) as Hca.
    destruct (_is_kana_only a) eqn:Hkana; intros [= <-];
      cbn [kanji_of kana_of meaning_of fst snd].
    + split_and!; try done.
      * by intros [].
      * by left.
      * apply not_elem_of_nil.
      * intros []; cbn [field_of kanji_of kana_of meaning_of fst snd];
          (done || apply lower_nil_not_nan).
      * intros [] c; cbn [field_of kanji_of kana_of meaning_of fst snd];
          (by intros ?%elem_of_nil) || (by apply Ha4) || by apply Hb4.
    + split_and!; try done.
      * by intros [].
      * by left.
      * intros []; cbn [field_of kanji_of kana_of meaning_of fst snd];
          (done || apply lower_nil_not_nan).
      * intros [] c; cbn [field_of kanji_of kana_of meaning_of fst snd];
          (by intros ?%elem_of_nil) || (by apply Ha4) || by apply Hb4.
  - destruct (Hkept a) as (Ha1 & Ha2 & Ha3 & Ha4); [by left |].
    destruct (Hkept b) as (Hb1 & Hb2 & Hb3 & Hb4); [right; by left |].
    destruct (Hkept c) as (Hc1 & Hc2 & Hc3 & Hc4); [right; right; by left |].
    pose proof (Hfirst a b (c :: rest) eq_refl) as Hca.
    intros [= <-]; cbn [kanji_of kana_of meaning_of fst snd].
    split_and!; try done.
    + by intros [].
    + by left.
    + by intros [].
    + intros [] x; cbn [field_of kanji_of kana_of meaning_of fst snd];
        (by apply Ha4) || (by apply Hb4) || by apply Hc4.
Qed.

End RawFacts.

Section RawFile.
Context `{UnicodeData}.

(** Whatever the file holds, [parse_raw_file] returns entries with trimmed
    fields made of characters of the file other than the line feed, none of
    which reads [nan] once lowered.  An entry has a kana or a meaning; one
    with a kanji has a kana too, and its kanji holds no comma.  A kana with
    no kanji before it is kana only; a meaning that stands alone, and a kanji
    with no meaning after it, are not. *)
Theorem parse_raw_file_fields (content : str) :
  ∃ entries,
    parse_raw_file (Some content) = Ok entries ∧
    Forall (λ e,
      trimmed e ∧
      (kanji_of e ≠ [] → kana_of e ≠ []) ∧
      (kana_of e ≠ [] ∨ meaning_of e ≠ []) ∧
      (kanji_of e = [] → kana_of e ≠ [] → _is_kana_only (kana_of e) = true) ∧
      (kanji_of e ≠ [] → meaning_of e = [] →
         _is_kana_only (kanji_of e) = false) ∧
      (kana_of e = [] → _is_kana_only (meaning_of e) = false) ∧
      (comma ∉ kanji_of e) ∧
      ∀ f, lower (field_of f e) ≠ str_of "nan" ∧
           (newline ∉ field_of f e) ∧
           ∀ c, c ∈ field_of f e → c ∈ content) entries.
Proof.
  eexists. split; [reflexivity |].
  rewrite parse_raw_lines_omap. cbn [app]. apply Forall_forall.
  intros e (raw & Hraw & He)%list_elem_of_omap.
  apply parse_raw_line_fields in He
    as (Htr & H1 & H2 & H3 & H4 & H5 & H6 & Hnan & Hsub).
  split_and!; try done. intros f. split_and!; [done | |].
  - intros Hin. by eapply strip_line_no_newline, Hsub.
  - intros c Hc. eapply readlines_elem; [exact Hraw |].
    by eapply elem_of_strip, Hsub.
Qed.

(** The fixed file that [main] writes from the raw file gives the raw
    entries back to [parse_fixed_file] exactly when no kana of theirs holds a
    comma. *)
Theorem raw_entries_survive_fixed_file (stored : str) (entries : list entry) :
  ascii_conventions →
  parse_raw_file (Some (text_mode_read stored)) = Ok entries →
  parse_fixed_file (Some (text_mode_read (write_fixed_file entries)))
    = Ok entries ↔
  Forall (λ e, comma ∉ kana_of e) entries.
Proof.
  intros Hascii. unfold parse_raw_file.
  rewrite parse_raw_lines_omap. cbn [app]. intros [= <-].
  set (entries := omap parse_raw_line (readlines (text_mode_read stored))).
  split.
  - unfold parse_fixed_file. rewrite parse_fixed_lines_omap. cbn [app].
    intros [= Heq]. rewrite <- Heq. apply Forall_forall.
    intros e (line & _ & He)%elem_of_omap_line_entry.
    by apply line_entry_fields in He as (_ & _ & Hn & _).
  - intros Hkana.
    assert (Forall (λ e, storable e ∧ normalize e = e) entries) as Hall.
    { apply Forall_forall. intros [[k n] m] He.
      pose proof (proj1 (Forall_forall _ _) Hkana _ He) as Hn.
      apply list_elem_of_omap in He as (raw & Hraw & He).
      apply parse_raw_line_fields in He
        as (Htr & _ & _ & _ & _ & _ & Hk & _ & Hsub).
      pose proof (Htr Kanji) as Hk'. pose proof (Htr Kana) as Hn'.
      pose proof (Htr Meaning) as Hm'.
      cbn [field_of kanji_of kana_of meaning_of fst snd] in *.
      split; [| unfold normalize; cbn [kanji_of kana_of meaning_of fst snd];
                by rewrite Hk', Hn', Hm'].
      unfold storable. cbn [kanji_of kana_of fst snd].
      rewrite Hk', Hn'. split_and!; [done.. |].
      intros f. rewrite (Htr f). split.
      - intros Hin. by eapply strip_line_no_newline, Hsub.
      - intros Hcr. apply (text_mode_read_no_cr stored).
        eapply readlines_elem; [exact Hraw |].
        by eapply elem_of_strip, Hsub. }
    unfold write_fixed_file.
    destruct (parse_written_lines entries 1 Hascii) as [Hlines Hcr].
    { eapply Forall_impl; [exact Hall | by intros ? [? _]]. }
    rewrite text_mode_read_id by done.
    unfold parse_fixed_file. rewrite parse_fixed_lines_omap, Hlines.
    cbn [app]. f_equal. clear Hlines Hcr Hkana.
    induction Hall as [|e es [_ He] _ IH]; [done |].
    cbn [fmap list_fmap]. by rewrite He, IH.
Qed.

End RawFile.

(** The theorem on the raw entries at a raw text of five lines, one of
    them a heading and one starting with a kana. *)
Lemma raw_entries_survive_fixed_file_witness :
  parse_fixed_file (Some (text_mode_read (write_fixed_file raw_entries)))
    = Ok raw_entries ↔
  Forall (λ e, comma ∉ kana_of e) raw_entries.
Proof.
  apply (raw_entries_survive_fixed_file raw_text).
  - ascii_conv.
  - vm_compute. reflexivity.
Defined.

(** ** Attempts, questions and skips *)

Lemma first_occ_NoDup (l : list str) : NoDup l → first_occ l = l.
Proof.
  induction 1 as [|x l Hx Hnd IH]; [done |]. simpl. rewrite IH.
  by rewrite filter_ne_id.
Qed.

Lemma unique_pool_id (l : list str) : NoDup l → ([] ∉ l) → unique_pool l = l.
Proof.
  intros Hnd Hnil. rewrite unique_pool_first_occ, first_occ_NoDup by done.
  induction l as [|x l IH]; [done |].
  apply not_elem_of_cons in Hnil as [Hx Hnil]. apply NoDup_cons in Hnd as [_ Hnd].
  rewrite filter_cons_True by (by apply truthy_true). by rewrite IH.
Qed.

Lemma unique_pool_idemp (l : list str) :
  unique_pool (unique_pool l) = unique_pool l.
Proof.
  apply unique_pool_id; [apply NoDup_unique_pool |].
  rewrite elem_of_unique_pool. by intros [? _].
Qed.

Lemma unique_pool_length (l : list str) : length (unique_pool l) ≤ length l.
Proof.
  apply submseteq_length, NoDup_submseteq; [apply NoDup_unique_pool |].
  intros x. rewrite elem_of_unique_pool. tauto.
Qed.

Lemma candidates_length_le (pool : list str) (c : str) :
  length (candidates pool c) ≤ length pool.
Proof. apply length_filter. Qed.

Lemma candidates_length (pool : list str) (c : str) :
  NoDup pool → c ∈ pool → S (length (candidates pool c)) = length pool.
Proof.
  unfold candidates. induction 1 as [|x l Hx Hnd IH]; [by intros ?%elem_of_nil |].
  intros [-> | Hc]%elem_of_cons.
  - rewrite filter_cons_False by (by intros ?).
    by rewrite filter_ne_id.
  - rewrite filter_cons_True by (intros ->; done). simpl. by rewrite IH.
Qed.

Lemma target_pool_built (entries : list entry) (d : QType) :
  target_pool d (build_pools entries).1.1 (build_pools entries).1.2
    (build_pools entries).2
  = unique_pool (field_of (target d) <$> entries).
Proof. rewrite build_pools_unique_pool. by destruct d. Qed.

Section Attempts.
Context `{UnicodeData}.

Lemma directions_attempts (kp np mp : list str) (idx : nat) (e : entry)
    (ds : list QType) (outs : list outcome) :
  Forall2 (task_outcome kp np mp) ((λ d, (idx, e, d)) <$> ds) outs →
  length (outs ≫= emitted) + sum_list_with counted outs
  = length (filter (attempted_dir e) ds).
Proof.
  revert outs. induction ds as [|d ds IH]; intros outs HF.
  - by apply Forall2_nil_inv_l in HF as ->.
  - rewrite fmap_cons in HF.
    apply Forall2_cons_inv_l in HF as (o & outs' & Ho & HF & ->).
    specialize (IH _ HF). rewrite filter_cons.
    unfold task_outcome, prompt_val, correct_val in Ho.
    destruct o as [| | q]; cbn [outcome_of] in Ho;
      cbn [mbind list_bind emitted counted sum_list_with app length].
    + rewrite decide_False; [lia |]. unfold attempted_dir. tauto.
    + rewrite decide_True by (unfold attempted_dir; tauto). simpl. lia.
    + rewrite decide_True by (unfold attempted_dir; tauto). simpl. lia.
Qed.

Lemma all_tasks_attempts (kp np mp : list str) (entries : list entry) :
  ∀ idx outs,
  Forall2 (task_outcome kp np mp) (all_tasks idx entries) outs →
  length (outs ≫= emitted) + sum_list_with counted outs
  = sum_list_with entry_attempts entries.
Proof.
  induction entries as [|e entries IH]; intros idx outs HF; cbn [all_tasks] in HF.
  - by apply Forall2_nil_inv_l in HF as ->.
  - apply Forall2_app_inv_l in HF as (o1 & o2 & H1 & H2 & ->).
    rewrite bind_app, length_app, sum_list_with_app. cbn [sum_list_with].
    specialize (IH _ _ H2). unfold entry_attempts at 1.
    pose proof (directions_attempts _ _ _ _ _ _ _ H1). lia.
Qed.

Lemma entry_attempts_le (e : entry) : entry_attempts e ≤ 6.
Proof. unfold entry_attempts. etrans; [apply length_filter | done]. Qed.

Lemma sum_entry_attempts_le (entries : list entry) :
  sum_list_with entry_attempts entries ≤ 6 * length entries.
Proof.
  induction entries as [|e entries IH]; simpl; [lia |].
  pose proof (entry_attempts_le e). lia.
Qed.

(** An entry with [k] filled fields is attempted [k * (k - 1)] times. *)
Lemma entry_attempts_filled (e : entry) :
  entry_attempts e = length (filled_fields e) * (length (filled_fields e) - 1).
Proof.
  destruct e as [[k n] m].
  unfold entry_attempts, filled_fields, directions, attempted_dir,
    source_field, target_field.
  cbn [source target field_of kanji_of kana_of meaning_of fst snd].
  rewrite !filter_cons, !filter_nil.
  cbn [source target field_of kanji_of kana_of meaning_of fst snd].
  destruct (decide (strip k = [])) as [Hk | Hk];
    destruct (decide (strip n = [])) as [Hn | Hn];
    destruct (decide (strip m = [])) as [Hm | Hm];
    repeat first [rewrite decide_True by tauto | rewrite decide_False by tauto];
    reflexivity.
Qed.

End Attempts.

(** ** Runs that draw nothing *)

Section QuietRuns.
Context `{UnicodeData} {G : Type} `{RandomSource G}.

Lemma attempt_keeps_rng (idx : nat) (d : QType) (p c : str) (pool : list str)
    (st : @GenState G) :
  ¬ (p ≠ [] ∧ c ≠ [] ∧ 3 ≤ length (candidates pool c)) →
  ∃ st', attempt idx d p c pool st = Ok st' ∧ rng_state st' = rng_state st.
Proof.
  intros Hno. unfold attempt.
  destruct (truthy p) eqn:Hp; [| by eexists].
  destruct (truthy c) eqn:Hc; [| by eexists]. cbn [andb].
  apply truthy_true in Hp, Hc.
  unfold sample_distractors. fold (candidates pool c).
  rewrite decide_True by (apply Nat.lt_nge; tauto). cbn [bind]. by eexists.
Qed.

Lemma entry_body_keeps_rng (kp np mp : list str) (idx : nat) (e : entry)
    (st : @GenState G) :
  (∀ d, ¬ (prompt_val d e ≠ [] ∧ correct_val d e ≠ [] ∧
           3 ≤ length (candidates (target_pool d kp np mp) (correct_val d e)))) →
  ∃ st', entry_body kp np mp idx e st = Ok st' ∧ rng_state st' = rng_state st.
Proof.
  intros Hno. destruct e as [[kanji kana] meaning]. unfold entry_body.
  destruct (attempt_keeps_rng idx KanjiToHiragana (strip kanji) (strip kana)
              np st (Hno KanjiToHiragana)) as (st1 & -> & H1); cbn [bind].
  destruct (attempt_keeps_rng idx KanjiToMeaning (strip kanji) (strip meaning)
              mp st1 (Hno KanjiToMeaning)) as (st2 & -> & H2); cbn [bind].
  destruct (attempt_keeps_rng idx KanaToMeaning (strip kana) (strip meaning)
              mp st2 (Hno KanaToMeaning)) as (st3 & -> & H3); cbn [bind].
  destruct (attempt_keeps_rng idx KanaToKanji (strip kana) (strip kanji)
              kp st3 (Hno KanaToKanji)) as (st4 & -> & H4); cbn [bind].
  destruct (attempt_keeps_rng idx MeaningToKanji (strip meaning) (strip kanji)
              kp st4 (Hno MeaningToKanji)) as (st5 & -> & H5); cbn [bind].
  destruct (attempt_keeps_rng idx MeaningToKana (strip meaning) (strip kana)
              np st5 (Hno MeaningToKana)) as (st6 & -> & H6).
  exists st6. split; [done | congruence].
Qed.

Lemma gen_loop_keeps_rng (kp np mp : list str) (entries : list entry) :
  (∀ e d, e ∈ entries →
     ¬ (prompt_val d e ≠ [] ∧ correct_val d e ≠ [] ∧
        3 ≤ length (candidates (target_pool d kp np mp) (correct_val d e)))) →
  ∀ idx (st : @GenState G),
  ∃ st', gen_loop kp np mp idx entries st = Ok st' ∧
    rng_state st' = rng_state st.
Proof.
  induction entries as [|e entries IH]; intros Hno idx st; cbn [gen_loop].
  - by eexists.
  - destruct (entry_body_keeps_rng kp np mp idx e st) as (st1 & -> & H1).
    { intros d. apply Hno. by left. }
    cbn [bind]. destruct (IH (λ e d He, Hno e d (list_elem_of_further _ _ _ He))
                            (S idx) st1) as (st2 & -> & H2).
    exists st2. split; [done | congruence].
Qed.

(** A run in which no type yields a question for any entry returns no
    question, counts every attempt as skipped and leaves the random source
    as it found it. *)
Lemma no_emitting_run (entries : list entry) (kp np mp : list str)
    (min_options : Z) (rng : option G) (ambient : G) :
  (∀ e d, e ∈ entries → ¬ emitting_dir kp np mp e d) →
  generate_all_questions entries kp np mp min_options rng ambient
  = Ok ([], sum_list_with entry_attempts entries, default ambient rng).
Proof.
  intros Hno.
  destruct (generate_trace entries kp np mp min_options rng ambient)
    as (outs & qs & sk & g & Hrun & HF & -> & ->).
  assert (outs ≫= emitted = []) as Hqs.
  { destruct (outs ≫= emitted) as [|q qs] eqn:Hq; [done |]. exfalso.
    destruct (trace_emitted _ _ _ q HF) as ([[i e] d] & Ht & Ho).
    { rewrite Hq. by left. }
    apply elem_of_all_tasks in Ht as (n & Hn & _).
    apply task_outcome_class in Ho as [Hem _].
    apply (Hno e d); [by eapply list_elem_of_lookup_2 |].
    apply Hem. by exists q. }
  pose proof (all_tasks_attempts _ _ _ _ _ _ HF) as Hacc.
  rewrite Hqs in Hacc. cbn [length] in Hacc.
  rewrite Hrun, Hqs. f_equal. f_equal; [by f_equal |].
  unfold generate_all_questions in Hrun.
  edestruct (gen_loop_keeps_rng (unique_pool kp) (unique_pool np)
               (unique_pool mp) entries) as (st' & Hloop & Hrng).
  { intros e d He (Hp & Hc & Hen). apply (Hno e d He).
    unfold emitting_dir, enough. rewrite <- target_pool_unique.
    by split_and!. }
  rewrite Hloop in Hrun. cbn [bind] in Hrun.
  injection Hrun as _ _ <-. rewrite Hrng. by destruct rng.
Qed.

(** With the pools [build_pools] made of the entries, whether the unique
    pool holds enough distractors for a trimmed non-empty target value is a
    matter of the length of the pool alone. *)
Lemma enough_built (entries : list entry) (e : entry) (d : QType) :
  e ∈ entries → strip (target_field d e) = target_field d e →
  target_field d e ≠ [] →
  enough (build_pools entries).1.1 (build_pools entries).1.2
    (build_pools entries).2 e d ↔
  4 ≤ length (target_pool d (build_pools entries).1.1
                (build_pools entries).1.2 (build_pools entries).2).
Proof.
  intros He Htr Hne. unfold enough.
  rewrite target_pool_built, unique_pool_idemp, Htr.
  rewrite <- (candidates_length (unique_pool _) (target_field d e));
    [lia | apply NoDup_unique_pool |].
  apply elem_of_unique_pool. split; [done |].
  unfold target_field. by apply list_elem_of_fmap_2.
Qed.

(** The attempts of a run are its questions and its skips: the number of
    questions and the skipped count add up to the number of attempts, an
    entry with [k] fields that are non-empty once trimmed being attempted
    [k * (k - 1)] times, that is 0, 2 or 6 times. *)
Theorem attempts_are_questions_or_skips (entries : list entry)
    (kanji_pool kana_pool meaning_pool : list str) (min_options : Z)
    (rng : option G) (ambient : G) :
  ∃ qs skipped g,
    generate_all_questions entries kanji_pool kana_pool meaning_pool
      min_options rng ambient = Ok (qs, skipped, g) ∧
    length qs + skipped = sum_list_with entry_attempts entries ∧
    (∀ e, entry_attempts e
          = length (filled_fields e) * (length (filled_fields e) - 1)) ∧
    length qs + skipped ≤ 6 * length entries.
Proof.
  destruct (generate_trace entries kanji_pool kana_pool meaning_pool
    min_options rng ambient) as (outs & qs & sk & g & Hrun & HF & -> & ->).
  exists (outs ≫= emitted), (sum_list_with counted outs), g.
  pose proof (all_tasks_attempts _ _ _ _ _ _ HF) as Hacc.
  split_and!; [done | done | apply entry_attempts_filled |].
  rewrite Hacc. apply sum_entry_attempts_le.
Qed.

(** The pools [build_pools] returns are what [generate_all_questions] makes
    of them before its loop: removing duplicates and empty strings changes
    none of them. *)
Theorem built_pools_already_unique (entries : list entry) :
  unique_pool (build_pools entries).1.1 = (build_pools entries).1.1 ∧
  unique_pool (build_pools entries).1.2 = (build_pools entries).1.2 ∧
  unique_pool (build_pools entries).2 = (build_pools entries).2.
Proof.
  rewrite build_pools_unique_pool. cbn [fst snd].
  by rewrite !unique_pool_idemp.
Qed.

(** From fewer than three entries, or from fewer than four entries whose
    fields are trimmed, [build_pools] and [generate_all_questions] make no
    question: every attempt is counted as skipped, and the random source is
    left as it was found. *)
Theorem few_entries_no_questions (entries : list entry) (min_options : Z)
    (rng : option G) (ambient : G) :
  length entries < 3 ∨ (length entries < 4 ∧ Forall trimmed entries) →
  generate_all_questions entries (build_pools entries).1.1
    (build_pools entries).1.2 (build_pools entries).2
    min_options rng ambient
  = Ok ([], sum_list_with entry_attempts entries, default ambient rng).
Proof.
  intros Hfew. apply no_emitting_run. intros e d He (Hp & Hc & Hen).
  pose proof (unique_pool_length (field_of (target d) <$> entries)) as Hlen.
  rewrite length_fmap in Hlen.
  destruct Hfew as [Hlt | [Hlt Htr]].
  - unfold enough in Hen. rewrite target_pool_built, unique_pool_idemp in Hen.
    pose proof (candidates_length_le
      (unique_pool (field_of (target d) <$> entries))
      (strip (target_field d e))). lia.
  - pose proof (proj1 (Forall_forall _ _) Htr e He (target d)) as Hte.
    fold (target_field d e) in Hte. rewrite Hte in Hc.
    apply enough_built in Hen; [| done..].
    rewrite target_pool_built in Hen. lia.
Qed.

(** From entries whose fields are trimmed, as [parse_fixed_file] returns
    them, and the pools [build_pools] makes of them: a type with both its
    fields non-empty in an entry yields exactly one question for it, with
    these fields as prompt and correct answer, when the pool of the target
    field holds four values or more, and none otherwise. *)
Theorem trimmed_entries_threshold (entries : list entry) (min_options : Z)
    (rng : option G) (ambient : G) :
  Forall trimmed entries →
  ∃ qs skipped g,
    generate_all_questions entries (build_pools entries).1.1
      (build_pools entries).1.2 (build_pools entries).2
      min_options rng ambient = Ok (qs, skipped, g) ∧
    ∀ n e d, entries !! n = Some e →
      source_field d e ≠ [] → target_field d e ≠ [] →
      if decide (4 ≤ length (target_pool d (build_pools entries).1.1
                               (build_pools entries).1.2
                               (build_pools entries).2))
      then ∃ q,
        filter (λ q, entry_index q = S n ∧ q_type q = d) qs = [q] ∧
        prompt q = source_field d e ∧ correct_answer q = target_field d e
      else filter (λ q, entry_index q = S n ∧ q_type q = d) qs = [].
Proof.
  intros Htr.
  destruct (generate_trace entries (build_pools entries).1.1
    (build_pools entries).1.2 (build_pools entries).2
    min_options rng ambient) as (outs & qs & sk & g & Hrun & HF & -> & ->).
  exists (outs ≫= emitted), (sum_list_with counted outs), g.
  split; [done |]. intros n e d Hn Hs Ht.
  assert (e ∈ entries) as He by (by eapply list_elem_of_lookup_2).
  pose proof (proj1 (Forall_forall _ _) Htr e He) as Hte.
  pose proof (Hte (source d)) as Hts. pose proof (Hte (target d)) as Htt.
  fold (source_field d e) in Hts. fold (target_field d e) in Htt.
  pose proof (direction_questions _ _ _ entries outs n e d HF Hn) as Hdq.
  pose proof (enough_built entries e d He Htt Ht) as Hen.
  destruct (decide (emitting_dir _ _ _ e d)) as [Hem | Hem].
  - rewrite decide_True by (apply Hen; by destruct Hem as (_ & _ & ?)).
    destruct Hdq as (q & Hq & Hp & Hc). exists q.
    by rewrite Hp, Hc, Hts, Htt.
  - rewrite decide_False; [done |]. intros Hge. apply Hem.
    unfold emitting_dir. rewrite Hts, Htt. split_and!; [done | done |].
    by apply Hen.
Qed.

(** Every question of a run has a non-empty trimmed prompt and a non-empty
    trimmed correct answer, no empty option, the question text of its type
    around its prompt, and the position of an entry of the list. *)
Theorem questions_have_values (entries : list entry)
    (kanji_pool kana_pool meaning_pool : list str) (min_options : Z)
    (rng : option G) (ambient : G) :
  ∃ qs skipped g,
    generate_all_questions entries kanji_pool kana_pool meaning_pool
      min_options rng ambient = Ok (qs, skipped, g) ∧
    Forall (λ q,
      prompt q ≠ [] ∧ strip (prompt q) = prompt q ∧
      correct_answer q ≠ [] ∧ strip (correct_answer q) = correct_answer q ∧
      Forall (λ o, o ≠ []) (options q) ∧
      text q = question_text (q_type q) (prompt q) ∧
      1 ≤ entry_index q ≤ length entries) qs.
Proof.
  destruct (generate_trace entries kanji_pool kana_pool meaning_pool
    min_options rng ambient) as (outs & qs & sk & g & Hrun & HF & -> & ->).
  exists (outs ≫= emitted), (sum_list_with counted outs), g.
  split; [done |]. apply Forall_forall. intros q Hq.
  destruct (generated_question _ _ _ _ _ _ HF Hq) as (n & e & Hn & Hidx & Ho).
  cbn [outcome_of] in Ho.
  destruct Ho as (Hp & Hc & _ & _ & _ & Hpq & Htext & Hcq & _ &
                  ds & _ & Hds & Hperm).
  rewrite Hpq, Hcq. unfold prompt_val, correct_val in *.
  split_and!; try done.
  - apply strip_idemp.
  - apply strip_idemp.
  - apply Forall_forall. intros o Ho. rewrite Hperm in Ho.
    apply elem_of_app in Ho as [Ho | ->%list_elem_of_singleton]; [| done].
    eapply elem_of_submseteq in Ho; [| exact Hds].
    unfold candidates in Ho. apply list_elem_of_filter in Ho as [_ Ho].
    rewrite target_pool_unique in Ho.
    by apply elem_of_unique_pool in Ho as [? _].
  - lia.
  - apply lookup_lt_Some in Hn. lia.
Qed.

End QuietRuns.

Ltac trimmed_entries :=
  repeat (apply List.Forall_cons; [by intros [] |]); apply List.Forall_nil.

(** The theorem on few entries at two entries. *)
Lemma few_entries_no_questions_witness :
  generate_all_questions two_entries (build_pools two_entries).1.1
    (build_pools two_entries).1.2 (build_pools two_entries).2 4
    (Some 42%N) 0%N
  = Ok ([], sum_list_with entry_attempts two_entries, 42%N).
Proof.
  apply (few_entries_no_questions two_entries 4 (Some 42%N) 0%N).
  left. simpl. lia.
Defined.

(** The theorem on trimmed entries at four entries with letters for
    fields. *)
Lemma trimmed_entries_threshold_witness :
  ∃ qs skipped g,
    generate_all_questions four_entries (build_pools four_entries).1.1
      (build_pools four_entries).1.2 (build_pools four_entries).2 4
      (Some 42%N) 0%N = Ok (qs, skipped, g) ∧
    ∀ n e d, four_entries !! n = Some e →
      source_field d e ≠ [] → target_field d e ≠ [] →
      if decide (4 ≤ length (target_pool d (build_pools four_entries).1.1
                               (build_pools four_entries).1.2
                               (build_pools four_entries).2))
      then ∃ q,
        filter (λ q, entry_index q = S n ∧ q_type q = d) qs = [q] ∧
        prompt q = source_field d e ∧ correct_answer q = target_field d e
      else filter (λ q, entry_index q = S n ∧ q_type q = d) qs = [].
Proof.
  apply (trimmed_entries_threshold four_entries 4 (Some 42%N) 0%N).
  trimmed_entries.
Defined.

(** ** Chapters *)

Lemma lookup_foldl_insert (v : nat) (ids : list Z) : ∀ (m : gmap Z nat) k,
  foldl (λ m id, <[id := v]> m) m ids !! k
  = if decide (k ∈ ids) then Some v else m !! k.
Proof.
  induction ids as [|id ids IH]; intros m k; cbn [foldl].
  - rewrite decide_False; [done | apply not_elem_of_nil].
  - rewrite IH. destruct (decide (k ∈ ids)) as [Hin | Hin].
    + rewrite decide_True; [done | by right].
    + destruct (decide (k = id)) as [-> | Hne].
      * rewrite lookup_insert_eq. rewrite decide_True; [done | by left].
      * rewrite lookup_insert_ne by done. rewrite decide_False; [done |].
        by intros [? | ?]%elem_of_cons.
Qed.

(** The last element of a list that satisfies a decidable predicate, if
    one does. *)
Lemma last_satisfying {A : Type} (P : A → Prop) `{∀ x, Decision (P x)}
    (l : list A) :
  (∀ x, x ∈ l → ¬ P x) ∨
  ∃ j x, l !! j = Some x ∧ P x ∧ ∀ j' x', j < j' → l !! j' = Some x' → ¬ P x'.
Proof.
  induction l as [|a l IH].
  - left. by intros x ?%elem_of_nil.
  - destruct IH as [Hnone | (j & x & Hj & Hx & Hlast)].
    + destruct (decide (P a)) as [Ha | Ha].
      * right. exists 0, a. split_and!; [done | done |].
        intros [|j'] x' Hlt Hj'; [lia |]. apply Hnone.
        by eapply list_elem_of_lookup_2.
      * left. by intros x [-> | ?]%elem_of_cons; [| apply Hnone].
    + right. exists (S j), x. split_and!; [done | done |].
      intros [|j'] x' Hlt Hj'; [lia |]. apply (Hlast j'); [lia | done].
Qed.

Lemma findall_blocks_no_close (text : str) : ∀ inside,
  close_brace ∉ text → findall_blocks inside text = [].
Proof.
  induction text as [|c text IH]; intros inside Hno; [done |].
  apply not_elem_of_cons in Hno as [Hc Hno]. cbn [findall_blocks].
  destruct inside as [block |].
  - rewrite decide_False by done. by apply IH.
  - destruct (decide (c = open_brace)); by apply IH.
Qed.

Lemma findall_blocks_no_open (text : str) :
  open_brace ∉ text → findall_blocks None text = [].
Proof.
  induction text as [|c text IH]; intros Hno; [done |].
  apply not_elem_of_cons in Hno as [Hc Hno]. cbn [findall_blocks].
  rewrite decide_False by done. by apply IH.
Qed.

Lemma findall_blocks_closed (text : str) : ∀ inside,
  (∀ block, inside = Some block → close_brace ∉ block) →
  Forall (λ block, close_brace ∉ block) (findall_blocks inside text).
Proof.
  induction text as [|c text IH]; intros inside Hin; [constructor |].
  cbn [findall_blocks]. destruct inside as [block |].
  - destruct (decide (c = close_brace)) as [-> | Hc].
    + apply List.Forall_cons; [by apply Hin |]. by apply IH.
    + apply IH. intros ? [= <-].
      intros [? | Heq%list_elem_of_singleton]%elem_of_app;
        [by eapply Hin | congruence].
  - destruct (decide (c = open_brace)); apply IH; [| done].
    intros ? [= <-]. apply not_elem_of_nil.
Qed.

Section ChapterFacts.
Context `{UnicodeData} `{IntConversion}.

Lemma chapter_line_spec (idx : nat) (raw : str) (m m' : gmap Z nat) :
  chapter_line idx raw m = Ok m' →
  m' = match line_number raw with Some id => <[id := idx]> m | None => m end.
Proof.
  unfold chapter_line, line_number.
  destruct (truthy (strip raw)) eqn:Ht; cbn [negb].
  - destruct (chapter_line_match (strip raw)) as [digits |]; [| by intros [= <-]].
    destruct (py_int digits) as [id | ?]; cbn [bind]; [| done].
    by intros [= <-].
  - apply truthy_false in Ht. rewrite Ht. by intros [= <-].
Qed.

Lemma chapter_lines_spec (idx : nat) (lines : list str) : ∀ m m',
  chapter_lines idx lines m = Ok m' →
  m' = foldl (λ m id, <[id := idx]> m) m (omap line_number lines).
Proof.
  induction lines as [|raw lines IH]; intros m m'; cbn [chapter_lines].
  - by intros [= <-].
  - destruct (chapter_line idx raw m) as [m1 | ?] eqn:H1; cbn [bind]; [| done].
    apply chapter_line_spec in H1. intros ->%IH. subst m1.
    cbn [omap list_omap]. by destruct (line_number raw).
Qed.

Lemma chapter_blocks_spec (blocks : list str) : ∀ idx m m',
  chapter_blocks idx blocks m = Ok m' → m' = chapters_from idx blocks m.
Proof.
  induction blocks as [|b blocks IH]; intros idx m m'; cbn [chapter_blocks].
  - by intros [= <-].
  - destruct (chapter_lines idx (splitlines b) m) as [m1 | ?] eqn:H1;
      cbn [bind]; [| done].
    apply chapter_lines_spec in H1. intros ->%IH. by subst m1.
Qed.

(** On a trimmed line the two patterns match alike. *)
Lemma apply_chapters_line_match_strip (raw : str) :
  apply_chapters_line_match (strip raw) = chapter_line_match (strip raw).
Proof.
  unfold apply_chapters_line_match, chapter_line_match.
  by rewrite lstrip_strip.
Qed.

Lemma apply_chapters_line_spec (ci : nat) (raw : str) (m m' : gmap Z nat) :
  apply_chapters_line ci raw m = Ok m' →
  m' = match line_number raw with Some id => <[id := ci]> m | None => m end.
Proof.
  unfold apply_chapters_line, line_number.
  rewrite apply_chapters_line_match_strip.
  destruct (truthy (strip raw)) eqn:Ht; cbn [negb].
  - destruct (chapter_line_match (strip raw)) as [digits |]; [| by intros [= <-]].
    destruct (py_int digits) as [id | []]; try done; by intros [= <-].
  - apply truthy_false in Ht. rewrite Ht. by intros [= <-].
Qed.

Lemma apply_chapters_lines_spec (ci : nat) (lines : list str) : ∀ m m',
  apply_chapters_lines ci lines m = Ok m' →
  m' = foldl (λ m id, <[id := ci]> m) m (omap line_number lines).
Proof.
  induction lines as [|raw lines IH]; intros m m'; cbn [apply_chapters_lines].
  - by intros [= <-].
  - destruct (apply_chapters_line ci raw m) as [m1 | ?] eqn:H1; cbn [bind];
      [| done].
    apply apply_chapters_line_spec in H1. intros ->%IH. subst m1.
    cbn [omap list_omap]. by destruct (line_number raw).
Qed.

Lemma apply_chapters_blocks_spec (blocks : list str) : ∀ ci m m',
  apply_chapters_blocks ci blocks m = Ok m' → m' = chapters_from ci blocks m.
Proof.
  induction blocks as [|b blocks IH]; intros ci m m';
    cbn [apply_chapters_blocks].
  - by intros [= <-].
  - destruct (apply_chapters_lines ci (splitlines b) m) as [m1 | ?] eqn:H1;
      cbn [bind]; [| done].
    apply apply_chapters_lines_spec in H1. intros ->%IH. by subst m1.
Qed.

(** When [int] raises nothing but [ValueError], the loops of
    [apply_chapters] raise nothing. *)
Lemma apply_chapters_lines_ok (ci : nat) (lines : list str) :
  (∀ s e, py_int s = Raise e → e = ValueError) →
  ∀ m, ∃ m', apply_chapters_lines ci lines m = Ok m'.
Proof.
  intros Hint. induction lines as [|raw lines IH]; intros m;
    cbn [apply_chapters_lines]; [by eexists |].
  assert (∃ m1, apply_chapters_line ci raw m = Ok m1) as [m1 ->].
  { unfold apply_chapters_line.
    destruct (negb (truthy (strip raw))); [by eexists |].
    destruct (apply_chapters_line_match (strip raw)) as [digits |];
      [| by eexists].
    destruct (py_int digits) as [id | e] eqn:Hd; [by eexists |].
    apply Hint in Hd as ->. by eexists. }
  cbn [bind]. apply IH.
Qed.

Lemma apply_chapters_blocks_ok (blocks : list str) :
  (∀ s e, py_int s = Raise e → e = ValueError) →
  ∀ ci m, ∃ m', apply_chapters_blocks ci blocks m = Ok m'.
Proof.
  intros Hint. induction blocks as [|b blocks IH]; intros ci m;
    cbn [apply_chapters_blocks]; [by eexists |].
  destruct (apply_chapters_lines_ok ci (splitlines b) Hint m) as [m1 ->].
  cbn [bind]. apply IH.
Qed.

(** What the loops over the blocks leave for one number: the chapter of the
    last block that numbers a line with it, or what was there. *)
Lemma chapters_from_spec (blocks : list str) : ∀ idx m id,
  ((∀ block, block ∈ blocks → id ∉ block_numbers block) →
   chapters_from idx blocks m !! id = m !! id) ∧
  (∀ j block, blocks !! j = Some block → id ∈ block_numbers block →
     (∀ j' block', j < j' → blocks !! j' = Some block' →
        id ∉ block_numbers block') →
     chapters_from idx blocks m !! id = Some (idx + j)).
Proof.
  induction blocks as [|b blocks IH]; intros idx m id; cbn [chapters_from].
  - split; [done |]. by intros j block ?.
  - set (m1 := foldl (λ m id, <[id := idx]> m) m (block_numbers b)).
    destruct (IH (S idx) m1 id) as [IHb IHa].
    assert (m1 !! id = if decide (id ∈ block_numbers b) then Some idx
                       else m !! id) as Hm1 by apply lookup_foldl_insert.
    split.
    + intros Hnone. rewrite IHb; [| intros block Hb; apply Hnone; by right].
      rewrite Hm1, decide_False; [done |]. apply Hnone. by left.
    + intros [|j] block Hj Hid Hlast.
      * injection Hj as <-. rewrite IHb.
        -- rewrite Hm1, decide_True by done. f_equal. lia.
        -- intros block' [j' Hj']%list_elem_of_lookup_1.
           apply (Hlast (S j')); [lia | done].
      * rewrite (IHa j block); [f_equal; lia | done | done |].
        intros j' block' Hlt Hj'. apply (Hlast (S j')); [lia | done].
Qed.

Lemma chapters_from_last_block (blocks : list str) (id : Z) (ch : nat) :
  chapters_from 1 blocks ∅ !! id = Some ch ↔
  ∃ j block,
    ch = S j ∧ blocks !! j = Some block ∧ id ∈ block_numbers block ∧
    ∀ j' block', j < j' → blocks !! j' = Some block' →
      id ∉ block_numbers block'.
Proof.
  destruct (chapters_from_spec blocks 1 ∅ id) as [Hb Ha]. split.
  - intros Hch.
    destruct (last_satisfying (λ block, id ∈ block_numbers block) blocks)
      as [Hnone | (j & block & Hj & Hid & Hlast)].
    + rewrite Hb in Hch by done. by rewrite lookup_empty in Hch.
    + exists j, block. split_and!; try done.
      rewrite (Ha j block Hj Hid Hlast) in Hch. by injection Hch as <-.
  - intros (j & block & -> & Hj & Hid & Hlast).
    by rewrite (Ha j block Hj Hid Hlast).
Qed.

(** [parse_chapters_from_fixed] maps a number to the chapter of the last
    block (counted from 1) that holds a line numbered with it, and maps no
    other number. *)
Theorem chapter_of_last_block (text : str) (mapping : gmap Z nat) :
  parse_chapters_from_fixed (Some text) = Ok mapping →
  ∀ id ch,
    mapping !! id = Some ch ↔
    ∃ j block,
      ch = S j ∧ blocks_of_text text !! j = Some block ∧
      id ∈ block_numbers block ∧
      ∀ j' block', j < j' → blocks_of_text text !! j' = Some block' →
        id ∉ block_numbers block'.
Proof.
  unfold parse_chapters_from_fixed. intros ->%chapter_blocks_spec id ch.
  apply chapters_from_last_block.
Qed.

(** A text with no opening brace, or with no closing brace, is one chapter:
    [parse_chapters_from_fixed] maps every number of a numbered line of the
    text to chapter 1, and maps nothing else. *)
Theorem text_without_braces_is_one_chapter (text : str)
    (mapping : gmap Z nat) :
  (open_brace ∉ text) ∨ (close_brace ∉ text) →
  parse_chapters_from_fixed (Some text) = Ok mapping →
  ∀ id, mapping !! id = if decide (id ∈ block_numbers text) then Some 1
                        else None.
Proof.
  intros Hno. unfold parse_chapters_from_fixed, blocks_of_text.
  assert (findall_blocks None text = []) as ->.
  { destruct Hno; [by apply findall_blocks_no_open
                  | by apply findall_blocks_no_close]. }
  intros ->%chapter_blocks_spec id. cbn [chapters_from].
  rewrite lookup_foldl_insert.
  destruct (decide _); [done | apply lookup_empty].
Qed.

(** [apply_chapters] builds the mapping that [parse_chapters_from_fixed]
    returns for the same text, whenever the latter returns one. *)
Theorem apply_chapters_same_mapping (text : str) (mapping : gmap Z nat) :
  parse_chapters_from_fixed (Some text) = Ok mapping →
  entry_to_chapter text = Ok mapping.
Proof.
  unfold parse_chapters_from_fixed, entry_to_chapter, blocks_of_text.
  set (blocks := match findall_blocks None text with [] => [text] | _ => _ end).
  clearbody blocks. generalize (∅ : gmap Z nat) 1. revert mapping.
  induction blocks as [|b blocks IH]; intros mapping m idx;
    cbn [chapter_blocks apply_chapters_blocks]; [done |].
  destruct (chapter_lines idx (splitlines b) m) as [m1 |] eqn:H1;
    cbn [bind]; [| done].
  assert (apply_chapters_lines idx (splitlines b) m = Ok m1) as ->.
  { clear IH. revert m m1 H1.
    induction (splitlines b) as [|raw lines IHl]; intros m m1;
      cbn [chapter_lines apply_chapters_lines]; [done |].
    destruct (chapter_line idx raw m) as [m2 |] eqn:H2; cbn [bind]; [| done].
    assert (apply_chapters_line idx raw m = Ok m2) as ->.
    { revert H2. unfold chapter_line, apply_chapters_line.
      rewrite apply_chapters_line_match_strip.
      destruct (negb (truthy (strip raw))); [done |].
      destruct (chapter_line_match (strip raw)) as [digits |]; [| done].
      by destruct (py_int digits). }
    cbn [bind]. apply IHl. }
  cbn [bind]. apply IH.
Qed.

(** When [int] raises nothing but [ValueError], [apply_chapters] builds a
    mapping for every text, passing over the lines whose number [int]
    refuses: a number is mapped to the chapter of the last block that holds
    a line numbered with it, and no other number is mapped. *)
Theorem apply_chapters_mapping_of_last_block (text : str) :
  (∀ s e, py_int s = Raise e → e = ValueError) →
  ∃ mapping,
    entry_to_chapter text = Ok mapping ∧
    ∀ id ch,
      mapping !! id = Some ch ↔
      ∃ j block,
        ch = S j ∧ blocks_of_text text !! j = Some block ∧
        id ∈ block_numbers block ∧
        ∀ j' block', j < j' → blocks_of_text text !! j' = Some block' →
          id ∉ block_numbers block'.
Proof.
  intros Hint. unfold entry_to_chapter. fold (blocks_of_text text).
  destruct (apply_chapters_blocks_ok (blocks_of_text text) Hint 1 ∅)
    as [mapping Hm].
  exists mapping. split; [done |].
  apply apply_chapters_blocks_spec in Hm as ->.
  intros id ch. apply chapters_from_last_block.
Qed.

End ChapterFacts.

(** The theorem on the last block at a text of two chapters that both
    number a line 1. *)
Lemma chapter_of_last_block_witness :
  parse_chapters_from_fixed (Some chapter_text)
    = Ok (list_to_map [(1%Z, 2); (22%Z, 1); (333%Z, 2)]) ∧
  ∀ id ch,
    (list_to_map [(1%Z, 2); (22%Z, 1); (333%Z, 2)] : gmap Z nat) !! id
      = Some ch ↔
    ∃ j block,
      ch = S j ∧ blocks_of_text chapter_text !! j = Some block ∧
      id ∈ block_numbers block ∧
      ∀ j' block', j < j' → blocks_of_text chapter_text !! j' = Some block' →
        id ∉ block_numbers block'.
Proof.
  split; [vm_compute; reflexivity |].
  apply (chapter_of_last_block chapter_text).
  vm_compute. reflexivity.
Defined.

(** The theorem on a text without braces at a text of three lines. *)
Lemma text_without_braces_is_one_chapter_witness :
  parse_chapters_from_fixed (Some plain_text)
    = Ok (list_to_map [(1%Z, 1); (2%Z, 1)]) ∧
  ∀ id,
    (list_to_map [(1%Z, 1); (2%Z, 1)] : gmap Z nat) !! id
    = if decide (id ∈ block_numbers plain_text) then Some 1 else None.
Proof.
  split; [vm_compute; reflexivity |].
  apply (text_without_braces_is_one_chapter plain_text).
  - left. apply (bool_decide_unpack _). vm_compute. exact I.
  - vm_compute. reflexivity.
Defined.

(** The theorem on the two mappings at the text of two chapters. *)
Lemma apply_chapters_same_mapping_witness :
  entry_to_chapter chapter_text
  = Ok (list_to_map [(1%Z, 2); (22%Z, 1); (333%Z, 2)]).
Proof.
  apply (apply_chapters_same_mapping chapter_text).
  vm_compute. reflexivity.
Defined.

(** The theorem on the mapping of [apply_chapters] at the text of two
    chapters, with the conversion of ASCII digits. *)
Lemma apply_chapters_mapping_of_last_block_witness :
  ∃ mapping,
    entry_to_chapter chapter_text = Ok mapping ∧
    ∀ id ch,
      mapping !! id = Some ch ↔
      ∃ j block,
        ch = S j ∧ blocks_of_text chapter_text !! j = Some block ∧
        id ∈ block_numbers block ∧
        ∀ j' block', j < j' → blocks_of_text chapter_text !! j' = Some block' →
          id ∉ block_numbers block'.
Proof.
  apply (apply_chapters_mapping_of_last_block chapter_text).
  intros s e. cbn [py_int ascii_int_conversion]. unfold ascii_int.
  destruct (_ && _); [done | by intros [= <-]].
Defined.

(** ** Inserting into the database *)

Section InsertFacts.
Context {D : Type} `{Connection D}.

(** The states the connection goes through in the loop of
    [insert_entries]: each statement is executed in the state the one
    before it left, and the row id it returns is the next of the list. *)
Lemma insert_entries_loop_states (entries : list entry) :
  ∀ conn i acc conn' ids,
  insert_entries_loop conn i entries acc = Some (conn', ids) →
  ∃ new states,
    ids = acc ++ new ∧ length new = length entries ∧
    length states = S (length entries) ∧
    states !! 0 = Some conn ∧ states !! length entries = Some conn' ∧
    ∀ n e, entries !! n = Some e →
      ∃ c c' id,
        states !! n = Some c ∧ states !! S n = Some c' ∧
        new !! n = Some id ∧
        execute_insert_entry c (entry_params (i + n) e) = Some (c', id).
Proof.
  induction entries as [|e entries IH]; intros conn i acc conn' ids;
    cbn [insert_entries_loop].
  - intros [= <- <-]. exists [], [conn].
    rewrite app_nil_r. split_and!; try done; by intros n e ?.
  - destruct (execute_insert_entry conn (entry_params i e))
      as [[conn1 id] |] eqn:Hex; [| done]. cbn.
    intros (new & states & -> & Hlen & Hslen & Hfirst & Hlast & Hnew)%IH.
    exists (id :: new), (conn :: states).
    split_and!; [by rewrite <- app_assoc | simpl; lia | simpl; lia | done
                | done |].
    intros [|n] e' Hn.
    + injection Hn as <-. exists conn, conn1, id.
      split_and!; [done | done | done |]. by rewrite Nat.add_0_r.
    + destruct (Hnew n e' Hn) as (c & c' & id' & Hc & Hc' & Hid & Hexn).
      exists c, c', id'. split_and!; [done | done | done |].
      by replace (i + S n) with (S i + n) by lia.
Qed.

(** The same for the loop of [insert_questions]. *)
Lemma insert_questions_loop_states (questions : list Question)
    (entry_db_ids : list Z) : ∀ conn inserted conn' inserted',
  insert_questions_loop conn questions entry_db_ids inserted
    = Some (conn', inserted') →
  inserted' = inserted + length questions ∧
  ∃ states,
    length states = S (length questions) ∧
    states !! 0 = Some conn ∧ states !! length questions = Some conn' ∧
    ∀ k q, questions !! k = Some q →
      ∃ c c',
        states !! k = Some c ∧ states !! S k = Some c' ∧
        execute_insert_question c
          (question_params q entry_db_ids (utcnow_isoformat c)) = Some c'.
Proof.
  induction questions as [|q questions IH]; intros conn n conn' n';
    cbn [insert_questions_loop].
  - intros [= <- <-]. split; [simpl; lia |]. exists [conn].
    split_and!; try done; by intros k q ?.
  - destruct (execute_insert_question conn _) as [conn1 |] eqn:Hex; [| done].
    cbn. intros (-> & states & Hslen & Hfirst & Hlast & Hqs)%IH.
    split; [simpl; lia |]. exists (conn :: states).
    split_and!; [simpl; lia | done | done |].
    intros [|k] q' Hk.
    + injection Hk as <-. by exists conn, conn1.
    + destruct (Hqs k q' Hk) as (c & c' & Hc & Hc' & Hexk).
      by exists c, c'.
Qed.

Lemma entry_params_fields (i : nat) (e : entry) :
  entry_params i e
  = {| list_index := i;
       entry_kanji := if decide (kanji_of e = []) then None
                      else Some (kanji_of e);
       entry_kana := if decide (kana_of e = []) then None
                     else Some (kana_of e);
       entry_meaning := if decide (meaning_of e = []) then None
                        else Some (meaning_of e) |}.
Proof.
  destruct e as [[k n] m]. unfold entry_params, or_none.
  cbn [kanji_of kana_of meaning_of fst snd]. by destruct k, n, m.
Qed.

(** When [insert_entries] returns, the connection went from the state it
    was handed in through one state after each entry to the state that is
    committed and returned: the statement for the entry at position [n],
    counted from 0, was executed in the state after the entries before it,
    with [n + 1] as [list_index] and the three fields of the entry, an empty
    field as NULL, and the row id it returned is the one at position [n] of
    the list returned.  The list has one row id for each entry. *)
Theorem insert_entries_ids (conn conn' : D) (entries : list entry)
    (ids : list Z) :
  insert_entries conn entries = Some (conn', ids) →
  length ids = length entries ∧
  ∃ states,
    length states = S (length entries) ∧
    states !! 0 = Some conn ∧
    (∃ c, states !! length entries = Some c ∧ commit c = Some conn') ∧
    ∀ n e, entries !! n = Some e →
      ∃ c c' id,
        states !! n = Some c ∧ states !! S n = Some c' ∧
        ids !! n = Some id ∧
        execute_insert_entry c
          {| list_index := S n;
             entry_kanji := if decide (kanji_of e = []) then None
                            else Some (kanji_of e);
             entry_kana := if decide (kana_of e = []) then None
                           else Some (kana_of e);
             entry_meaning := if decide (meaning_of e = []) then None
                              else Some (meaning_of e) |}
          = Some (c', id).
Proof.
  unfold insert_entries.
  destruct (insert_entries_loop conn 1 entries []) as [[conn1 ids1] |] eqn:Hl;
    [| done]. cbn.
  destruct (commit conn1) as [conn2 |] eqn:Hcommit; [| done]. cbn.
  intros [= <- <-].
  apply insert_entries_loop_states in Hl
    as (new & states & -> & Hlen & Hslen & Hfirst & Hlast & Hnew).
  split; [done |]. exists states. split_and!; [done | done | by exists conn1 |].
  intros n e Hn. destruct (Hnew n e Hn) as (c & c' & id & Hc & Hc' & Hid & Hex).
  exists c, c', id. split_and!; [done | done | done |].
  by rewrite <- entry_params_fields.
Qed.

End InsertFacts.

Section Linking.
Context `{UnicodeData} {G : Type} `{RandomSource G} {D : Type} `{Connection D}.

(** As [run_generation] and the command line do: [insert_entries] on a
    connection, then [insert_questions] on the state it left, with the
    questions [generate_all_questions] made of the same entries and the row
    ids [insert_entries] returned.  When the two calls return, the
    connection went through one state after each question to the state that
    is committed and returned; the statement for each question was executed
    in the state after the questions before it, and its [entry_id] is
    the row id [insert_entries] returned for the entry the question was
    made from, never NULL; the count returned is the number of
    questions. *)
Theorem questions_linked_to_entries (entries : list entry)
    (kanji_pool kana_pool meaning_pool : list str) (min_options : Z)
    (rng : option G) (ambient : G) (qs : list Question) (skipped : nat)
    (g : G) (conn conn1 conn2 : D) (ids : list Z) (inserted : nat) :
  insert_entries conn entries = Some (conn1, ids) →
  generate_all_questions entries kanji_pool kana_pool meaning_pool
    min_options rng ambient = Ok (qs, skipped, g) →
  insert_questions conn1 qs ids = Some (conn2, inserted) →
  inserted = length qs ∧
  ∃ states,
    length states = S (length qs) ∧
    states !! 0 = Some conn1 ∧
    (∃ c, states !! length qs = Some c ∧ commit c = Some conn2) ∧
    ∀ k q, qs !! k = Some q →
      ∃ c c' n e id,
        states !! k = Some c ∧ states !! S k = Some c' ∧
        entry_index q = S n ∧ entries !! n = Some e ∧ ids !! n = Some id ∧
        prompt q = strip (source_field (q_type q) e) ∧
        correct_answer q = strip (target_field (q_type q) e) ∧
        execute_insert_question c
          (question_params q ids (utcnow_isoformat c)) = Some c' ∧
        param_entry_id (question_params q ids (utcnow_isoformat c))
          = Some id.
Proof.
  intros Hentries Hrun Hquestions.
  assert (length ids = length entries) as Hlen.
  { revert Hentries. unfold insert_entries.
    destruct (insert_entries_loop conn 1 entries []) as [[c ids1] |] eqn:Hl;
      [| done]. cbn.
    destruct (commit c); [| done]. cbn. intros [= _ <-].
    by apply insert_entries_loop_states in Hl as (new & _ & -> & ? & _). }
  destruct (generate_trace entries kanji_pool kana_pool meaning_pool
    min_options rng ambient) as (outs & qs' & sk & g' & Hrun' & HF & Hqs & _).
  rewrite Hrun in Hrun'. injection Hrun' as <- _ _.
  revert Hquestions. unfold insert_questions.
  destruct (insert_questions_loop conn1 qs ids 0) as [[c n] |] eqn:Hl;
    [| done]. cbn.
  destruct (commit c) as [c2 |] eqn:Hcommit; [| done]. cbn.
  intros [= <- <-].
  apply insert_questions_loop_states in Hl
    as (-> & states & Hslen & Hfirst & Hlast & Hstep).
  split; [done |]. exists states.
  split_and!; [done | done | by exists c |].
  intros k q Hk. destruct (Hstep k q Hk) as (ck & ck' & Hck & Hck' & Hex).
  assert (q ∈ outs ≫= emitted) as Hq.
  { rewrite <- Hqs. by eapply list_elem_of_lookup_2. }
  destruct (generated_question _ _ _ _ _ _ HF Hq) as (m & e & Hm & Hidx & Ho).
  cbn [outcome_of] in Ho.
  destruct Ho as (_ & _ & _ & _ & _ & Hp & _ & Hc & _).
  pose proof (lookup_lt_Some _ _ _ Hm) as Hlt.
  destruct (lookup_lt_is_Some_2 ids m) as [id Hid]; [lia |].
  exists ck, ck', m, e, id. split_and!; try done.
  cbn [question_params param_entry_id].
  rewrite decide_True by lia. rewrite Hidx.
  by replace (S m - 1) with m by lia.
Qed.

End Linking.

(** The theorem on the row ids at two entries, the second with no kanji,
    inserted into empty tables. *)
Lemma insert_entries_ids_witness :
  length [1%Z; 2%Z] = length [E "a" "b" "c"; E "" "e" "f"] ∧
  ∃ states,
    length states = S (length [E "a" "b" "c"; E "" "e" "f"]) ∧
    states !! 0 = Some empty_tables ∧
    (∃ c, states !! length [E "a" "b" "c"; E "" "e" "f"] = Some c ∧
       commit c
       = Some {| entries_table :=
                   [(1%Z, entry_params 1 (E "a" "b" "c"));
                    (2%Z, entry_params 2 (E "" "e" "f"))];
                 questions_table := [] |}) ∧
    ∀ n e, [E "a" "b" "c"; E "" "e" "f"] !! n = Some e →
      ∃ c c' id,
        states !! n = Some c ∧ states !! S n = Some c' ∧
        [1%Z; 2%Z] !! n = Some id ∧
        execute_insert_entry c
          {| list_index := S n;
             entry_kanji := if decide (kanji_of e = []) then None
                            else Some (kanji_of e);
             entry_kana := if decide (kana_of e = []) then None
                           else Some (kana_of e);
             entry_meaning := if decide (meaning_of e = []) then None
                              else Some (meaning_of e) |}
          = Some (c', id).
Proof.
  apply (insert_entries_ids empty_tables).
  vm_compute. reflexivity.
Defined.

(** The theorem on the links at four entries inserted into empty tables,
    with the twenty-four questions made of them. *)
Lemma questions_linked_to_entries_witness :
  ∃ qs skipped g conn1 conn2,
    insert_entries empty_tables four_entries
      = Some (conn1, [1%Z; 2%Z; 3%Z; 4%Z]) ∧
    run_seeded four_entries 4 42 = Ok (qs, skipped, g) ∧
    insert_questions conn1 qs [1%Z; 2%Z; 3%Z; 4%Z] = Some (conn2, 24) ∧
    24 = length qs ∧
    ∃ states,
      length states = S (length qs) ∧
      states !! 0 = Some conn1 ∧
      (∃ c, states !! length qs = Some c ∧ commit c = Some conn2) ∧
      ∀ k q, qs !! k = Some q →
        ∃ c c' n e id,
          states !! k = Some c ∧ states !! S k = Some c' ∧
          entry_index q = S n ∧ four_entries !! n = Some e ∧
          [1%Z; 2%Z; 3%Z; 4%Z] !! n = Some id ∧
          prompt q = strip (source_field (q_type q) e) ∧
          correct_answer q = strip (target_field (q_type q) e) ∧
          execute_insert_question c
            (question_params q [1%Z; 2%Z; 3%Z; 4%Z] (utcnow_isoformat c))
            = Some c' ∧
          param_entry_id
            (question_params q [1%Z; 2%Z; 3%Z; 4%Z] (utcnow_isoformat c))
            = Some id.
Proof.
  do 5 eexists.
  split; [vm_compute; reflexivity |].
  split; [vm_compute; reflexivity |].
  split; [vm_compute; reflexivity |].
  eapply (questions_linked_to_entries four_entries
            (build_pools four_entries).1.1 (build_pools four_entries).1.2
            (build_pools four_entries).2 4 (Some 42%N) 0%N _ _ _
            empty_tables);
    vm_compute; reflexivity.
Defined.

(** ** The level of a file and the level of [apply_chapters] *)

Section Levels.
Context `{UnicodeData}.

(** [read_level_from_txt] gives a file the level, or the [ValueError], that
    [apply_chapters] gives the first line of the file that is not empty
    after trimming, once trimmed; the level is between 1 and 5. *)
Theorem file_level_is_level_of_first_line (content : str)
    (pre : list str) (line : str) (post : list str) :
  readlines content = pre ++ line :: post →
  Forall blank pre → ¬ blank line →
  read_level_from_txt (Some content) = apply_chapters_level (strip line) ∧
  ∀ level_id, apply_chapters_level (strip line) = Ok level_id →
    1 ≤ level_id ≤ 5.
Proof.
  intros Hlines Hpre Hline. unfold read_level_from_txt, apply_chapters_level.
  rewrite Hlines, read_level_lines_blank by done. cbn [read_level_lines].
  assert (truthy (lower (strip line)) = true) as ->.
  { apply truthy_true. rewrite lower_nil. exact Hline. }
  cbn [negb]. split; [by destruct (level_map !! lower (strip line)) |].
  intros level_id.
  destruct (level_map !! lower (strip line)) as [id |] eqn:Hid; [| done].
  intros [= <-]. apply level_map_Some in Hid as (tok & Htok & _).
  unfold level_tokens in Htok. rewrite !elem_of_cons, elem_of_nil in Htok.
  destruct Htok as [[= _ ->] | [[= _ ->] | [[= _ ->] | [[= _ ->] |
    [[= _ ->] | []]]]]]; lia.
Qed.

End Levels.

(** The theorem on the level at the text of two chapters, whose first line
    is the header. *)
Lemma file_level_is_level_of_first_line_witness :
  read_level_from_txt (Some chapter_text)
    = apply_chapters_level (strip (str_of "n3" ++ [newline])) ∧
  ∀ level_id,
    apply_chapters_level (strip (str_of "n3" ++ [newline])) = Ok level_id →
    1 ≤ level_id ≤ 5.
Proof.
  eapply (file_level_is_level_of_first_line chapter_text []).
  - vm_compute. reflexivity.
  - apply List.Forall_nil.
  - unfold blank. vm_compute. discriminate.
Defined.
